(** * react-fre: keyed diff, commit, removal, memo check and scheduler queues

    A shallow embedding of [src/reconcile.ts], [src/commit.ts] and
    [src/schedule.ts].  JavaScript objects that the code compares by
    identity carry an explicit identity number; arrays are lists; the two
    plain objects [aMap] and [bMap] that [diff] uses as dictionaries are
    finite maps from property names to indices, read through the lookup of
    a JavaScript object literal (own properties first, then the members
    every object literal inherits). *)

From Stdlib Require Import ZArith Lia Bool.
From stdpp Require Import base option list strings gmap pretty.

Set Warnings "-register-all".
Open Scope Z_scope.

(** ** JavaScript values *)

(** Values stored in props; objects and functions are compared by identity. *)
Inductive JVal :=
| VUndef
| VNull
| VBool (b : bool)
| VNum (n : Z)
| VStr (s : string)
| VRef (id : nat)
| VBuiltin (name : string).   (* a member of Object.prototype *)

#[global] Instance JVal_eq_dec : EqDecision JVal.
Proof. solve_decision. Defined.

(** [a !== b] on the modelled values. *)
Definition strict_ne (a b : JVal) : bool := negb (bool_decide (a = b)).

(** A fiber key: declared [string | number]; [h] stores [null] when no key
    is given and [createText] leaves the field absent. *)
Inductive Key :=
| KUndef
| KNull
| KNum (n : Z)
| KStr (s : string).

#[global] Instance Key_eq_dec : EqDecision Key.
Proof. solve_decision. Defined.

(** Truthiness of a key, as tested by [if (aCh[i].key)]. *)
Definition truthy (k : Key) : bool :=
  match k with
  | KUndef | KNull => false
  | KNum n => negb (n =? 0)
  | KStr s => negb (bool_decide (s = ""%string))
  end.

(** The property name a key is converted to by [obj[key]]. *)
Definition prop_name (k : Key) : string :=
  match k with
  | KUndef => "undefined"
  | KNull => "null"
  | KNum n => pretty n
  | KStr s => s
  end.

(** Names every object literal inherits from [Object.prototype]. *)
Definition proto_names : list string :=
  [ "constructor"; "__defineGetter__"; "__defineSetter__"; "hasOwnProperty";
    "__lookupGetter__"; "__lookupSetter__"; "isPrototypeOf";
    "propertyIsEnumerable"; "toString"; "valueOf"; "__proto__";
    "toLocaleString" ]%string.

Definition is_proto_name (s : string) : bool :=
  bool_decide (s ∈ proto_names).

(** The result of reading [obj[name]] on one of the index maps. *)
Inductive Found :=
| FNone                (* undefined *)
| FIdx (i : Z)         (* a stored index *)
| FInherited.          (* an inherited member: neither null nor an index *)

(** [m[k] = i]: assigning to [__proto__] with a number is ignored. *)
Definition map_set (m : gmap string Z) (k : Key) (i : Z) : gmap string Z :=
  if bool_decide (prop_name k = "__proto__"%string) then m
  else <[prop_name k := i]> m.

(** [m[k]] *)
Definition map_get (m : gmap string Z) (k : Key) : Found :=
  match m !! prop_name k with
  | Some i => FIdx i
  | None => if is_proto_name (prop_name k) then FInherited else FNone
  end.

(** [x == null] *)
Definition is_nullish (f : Found) : bool :=
  match f with FNone => true | _ => false end.

(** ** Fibers *)

Inductive FType :=
| THost (tag : string)
| TComp (fn : nat).

#[global] Instance FType_eq_dec : EqDecision FType.
Proof. solve_decision. Defined.

(** A ref is a callback or an object with a [current] field. *)
Inductive Ref :=
| RFn (id : nat)
| RObj (id : nat).

(** One slot of [hooks.list], an array per hook: index 0 holds the effect
    callback of an effect hook (a state or memo value for the other hooks)
    and index 2 the cleanup function the last run of the effect returned. *)
Record HookSlot := { hcb : option nat; cleanup : option nat }.

(** [hooks.effect] and [hooks.layout] hold the very arrays that are in
    [hooks.list]; they are modelled as positions in [hlist]. *)
Record Hooks := {
  hlist : list HookSlot;
  heffect : list nat;
  hlayout : list nat
}.

(** A props object: own enumerable properties. *)
Abbreviation Props := (gmap string JVal).

(** The bit flags of [TAG].  The enum is declared in [type.ts], which is
    not part of the sources at hand, so the code below is parameterised by
    the table; the code tests the flags with [&]. *)
Record TagTable := {
  UPDATE : Z;
  INSERT : Z;
  MOVE : Z;
  SVG : Z
}.

(** An action object [{ op, cur, ref }]; [cur] and [ref] are absent on
    UPDATE, and [ref] is [undefined] when the anchor index is out of range. *)
Record Action_ (F : Type) := mkAction {
  op : Z;
  cur : option F;
  aref : option F
}.
Arguments mkAction {F} _ _ _.
Arguments op {F} _.
Arguments cur {F} _.
Arguments aref {F} _.

Inductive Fiber := mkFiber {
  fid : nat;                       (* object identity *)
  ftype : FType;
  key : Key;
  props : option Props;
  pchildren : list Fiber;          (* props.children, as arrayfy reads it *)
  ref : option Ref;
  node : option nat;               (* bound host handle *)
  hooks : option Hooks;
  kids : option (list Fiber);
  alternate : option Fiber;
  child : option Fiber;
  sibling : option Fiber;
  isComp : bool;
  memo : bool;
  dirty : bool;
  action : option (Action_ Fiber);
  lane : Z
}.

Definition Action := Action_ Fiber.

(** A descriptor as [createVnode] builds it: the remaining fields absent. *)
Definition vnode (id : nat) (t : FType) (k : Key) : Fiber :=
  mkFiber id t k (Some ∅) [] None None None None None None None
          false false false None 0.

(** ** Results of code that can throw

    A result is a value or an exception; what the code did before it threw
    is not part of the result. *)

Inductive Res (A : Type) :=
| Ok (a : A)
| Throw            (* a TypeError was raised *)
| OutOfFuel.       (* the model's loop bound was reached *)
Arguments Ok {A} _.
Arguments Throw {A}.
Arguments OutOfFuel {A}.

Definition rbind {A B} (m : Res A) (f : A -> Res B) : Res B :=
  match m with
  | Ok a => f a
  | Throw => Throw
  | OutOfFuel => OutOfFuel
  end.

Notation "x <-- m ;; k" := (rbind m (fun x => k))
  (at level 100, m at next level, right associativity).

Definition rmap {A B} (f : A -> B) (m : Res A) : Res B :=
  match m with
  | Ok a => Ok (f a)
  | Throw => Throw
  | OutOfFuel => OutOfFuel
  end.

(** ** Host and callback effects

    Calls that leave the reconciler are recorded in the order they are made. *)
Inductive Event :=
| ERemoveChild (n : nat)                     (* n.parentNode.removeChild(n) *)
| ECleanup (fn : nat)                        (* e[2]() *)
| ERefer (r : Ref) (dom : option nat)        (* ref(dom) / ref.current = dom *)
| EInsertBefore (parent : option nat) (c : option nat) (anchor : option nat)
| EUpdateElement (n : option nat) (old new : Props)
| ERender (fn : nat) (p : option Props)      (* the component function is called *)
| EEffect (fn : nat).                        (* e[0]() *)

(** ** commit.ts: refer, kidsRefer, removeElement *)

Definition refer (r : option Ref) (dom : option nat) : list Event :=
  match r with
  | Some r => [ERefer r dom]
  | None => []
  end.

(** The body of the [forEach] callback of [kidsRefer], for one kid. *)
Fixpoint kidRefer (kid : Fiber) : list Event :=
  match kids kid with
  | Some ks =>
      (fix each (l : list Fiber) : list Event :=
         match l with
         | [] => []
         | k :: l' => kidRefer k ++ each l'
         end) ks
  | None => []
  end ++ refer (ref kid) None.

Definition kidsRefer (ks : option (list Fiber)) : list Event :=
  match ks with
  | Some l => flat_map kidRefer l
  | None => []
  end.

(** [hooks.list.forEach((e) => e[2] && e[2]())] *)
Definition run_cleanups (h : option Hooks) : list Event :=
  match h with
  | Some h => flat_map (fun e => match cleanup e with
                                 | Some f => [ECleanup f]
                                 | None => []
                                 end) (hlist h)
  | None => []
  end.

(** [removeElement(fiber, flag)].  Reading [fiber.node.parentNode] on a
    fiber without a host handle raises a TypeError. *)
Fixpoint removeElement (fiber : Fiber) (flag : bool) : Res (list Event) :=
  let each := fun (flag' : bool) =>
    fix each (l : list Fiber) : Res (list Event) :=
      match l with
      | [] => Ok []
      | v :: l' =>
          e1 <-- removeElement v flag' ;;
          e2 <-- each l' ;;
          Ok (e1 ++ e2)
      end in
  let rest := fun (flag' : bool) =>
    match kids fiber with
    | Some ks => each flag' ks
    | None => Ok []
    end in
  if isComp fiber then
    r <-- rest flag ;;
    Ok (run_cleanups (hooks fiber) ++ r)
  else if flag then
    match node fiber with
    | Some n =>
        r <-- rest false ;;
        Ok (ERemoveChild n :: kidsRefer (kids fiber)
              ++ refer (ref fiber) None ++ r)
    | None => Throw
    end
  else
    r <-- rest false ;;
    Ok (kidsRefer (kids fiber) ++ refer (ref fiber) None ++ r).

(** ** reconcile.ts: clone, same, diff *)

(** [clone(a, b)]: the new fiber [b] takes over hooks, ref, node and kids
    of [a] and remembers [a] as its alternate. *)
Definition clone (a b : Fiber) : Fiber :=
  mkFiber (fid b) (ftype b) (key b) (props b) (pchildren b) (ref a) (node a)
          (hooks a) (kids a) (Some a) (child b) (sibling b) (isComp b)
          (memo b) (dirty b) (action b) (lane b).

Definition same (a b : Fiber) : bool :=
  bool_decide (ftype a = ftype b) && bool_decide (key a = key b).

(** [arr[i]] for a signed index: [None] is [undefined]. *)
Definition idx {A} (l : list A) (i : Z) : option A :=
  if i <? 0 then None else l !! Z.to_nat i.

(** [arr[i] = x] for an index inside the array. *)
Definition set_idx {A} (l : list A) (i : Z) (x : A) : list A :=
  <[Z.to_nat i := x]> l.

Section Diff.
Variable tg : TagTable.

(** The local variables of [diff]; a slot of [aCh] is [None] once the
    code has overwritten it with [null]. *)
Record DiffSt := mkDiffSt {
  aCh : list (option Fiber);
  bCh : list Fiber;
  aHead : Z;
  bHead : Z;
  aTail : Z;
  bTail : Z;
  aMap : gmap string Z;
  bMap : gmap string Z;
  temp : list Action;
  actions : list Action;
  dlog : list Event
}.

Definition update_action : Action := mkAction (UPDATE tg) None None.

(** Step 1: the loop that matches equal tails. *)
Fixpoint tail_loop (fuel : nat) (s : DiffSt) : Res DiffSt :=
  if (aHead s <=? aTail s) && (bHead s <=? bTail s) then
    match fuel with
    | O => OutOfFuel
    | S fuel' =>
        match idx (aCh s) (aTail s), idx (bCh s) (bTail s) with
        | Some (Some a), Some b =>
            if negb (same a b) then Ok s
            else tail_loop fuel'
                   (mkDiffSt (aCh s) (set_idx (bCh s) (bTail s) (clone a b))
                             (aHead s) (bHead s) (aTail s - 1) (bTail s - 1)
                             (aMap s) (bMap s)
                             (temp s ++ [update_action]) (actions s)
                             (dlog s))
        | _, _ => Throw
        end
    end
  else Ok s.

(** Step 2: the loop that matches equal heads. *)
Fixpoint head_loop (fuel : nat) (s : DiffSt) : Res DiffSt :=
  if (aHead s <=? aTail s) && (bHead s <=? bTail s) then
    match fuel with
    | O => OutOfFuel
    | S fuel' =>
        match idx (aCh s) (aHead s), idx (bCh s) (bHead s) with
        | Some (Some a), Some b =>
            if negb (same a b) then Ok s
            else head_loop fuel'
                   (mkDiffSt (aCh s) (set_idx (bCh s) (bHead s) (clone a b))
                             (aHead s + 1) (bHead s + 1) (aTail s) (bTail s)
                             (aMap s) (bMap s)
                             (temp s) (actions s ++ [update_action])
                             (dlog s))
        | _, _ => Throw
        end
    end
  else Ok s.

(** The indices [lo, lo+1, ..., hi] visited by [for (i = lo; i <= hi; i++)]. *)
Definition range (lo hi : Z) : list Z := seqZ lo (hi - lo + 1).

(** Step 3 for the old list: [if (aCh[i].key) aMap[aCh[i].key] = i]. *)
Definition index_old (ch : list (option Fiber)) (lo hi : Z)
  : Res (gmap string Z) :=
  foldl (fun (acc : Res (gmap string Z)) i =>
           m <-- acc ;;
           match idx ch i with
           | Some (Some f) =>
               Ok (if truthy (key f) then map_set m (key f) i else m)
           | _ => Throw
           end) (Ok ∅) (range lo hi).

(** Step 3 for the new list. *)
Definition index_new (ch : list Fiber) (lo hi : Z) : Res (gmap string Z) :=
  foldl (fun (acc : Res (gmap string Z)) i =>
           m <-- acc ;;
           match idx ch i with
           | Some f =>
               Ok (if truthy (key f) then map_set m (key f) i else m)
           | None => Throw
           end) (Ok ∅) (range lo hi).

Definition st_remove (s : DiffSt) (a : Fiber) : Res DiffSt :=
  ev <-- removeElement a true ;;
  Ok (mkDiffSt (aCh s) (bCh s) (aHead s + 1) (bHead s) (aTail s) (bTail s)
               (aMap s) (bMap s) (temp s) (actions s) (dlog s ++ ev)).

Definition st_insert (s : DiffSt) (bElm aElm : option Fiber) : DiffSt :=
  mkDiffSt (aCh s) (bCh s) (aHead s) (bHead s + 1) (aTail s) (bTail s)
           (aMap s) (bMap s) (temp s)
           (actions s ++ [mkAction (INSERT tg) bElm aElm]) (dlog s).

(** One turn of the loop of step 4. *)
Definition mid_step (s : DiffSt) : Res DiffSt :=
  let aElm := idx (aCh s) (aHead s) in
  let bElm := idx (bCh s) (bHead s) in
  match aElm with
  | Some None =>
      Ok (mkDiffSt (aCh s) (bCh s) (aHead s + 1) (bHead s) (aTail s)
                   (bTail s) (aMap s) (bMap s) (temp s) (actions s) (dlog s))
  | _ =>
      if bTail s + 1 <=? bHead s then
        match aElm with
        | Some (Some a) => st_remove s a
        | _ => Throw
        end
      else if aTail s + 1 <=? aHead s then
        Ok (st_insert s bElm (default None aElm))
      else
        match aElm, bElm with
        | Some (Some a), Some b =>
            if same a b then
              Ok (mkDiffSt (aCh s) (set_idx (bCh s) (bHead s) (clone a b))
                           (aHead s + 1) (bHead s + 1) (aTail s) (bTail s)
                           (aMap s) (bMap s) (temp s)
                           (actions s ++ [update_action]) (dlog s))
            else
              let foundB := map_get (bMap s) (key a) in
              let foundA := map_get (aMap s) (key b) in
              if is_nullish foundB then st_remove s a
              else if is_nullish foundA then
                Ok (st_insert s bElm (Some a))
              else
                match foundA with
                | FIdx i =>
                    match idx (aCh s) i with
                    | Some (Some m) =>
                        Ok (mkDiffSt (set_idx (aCh s) i None)
                              (set_idx (bCh s) (bHead s) (clone m b))
                              (aHead s) (bHead s + 1) (aTail s) (bTail s)
                              (aMap s) (bMap s) (temp s)
                              (actions s
                                 ++ [mkAction (MOVE tg) (Some m) (Some a)])
                              (dlog s))
                    | _ => Throw
                    end
                | _ => Throw
                end
        | _, _ => Throw
        end
  end.

(** Step 4: [while (aHead <= aTail || bHead <= bTail)]. *)
Fixpoint mid_loop (fuel : nat) (s : DiffSt) : Res DiffSt :=
  if (aHead s <=? aTail s) || (bHead s <=? bTail s) then
    match fuel with
    | O => OutOfFuel
    | S fuel' => s' <-- mid_step s ;; mid_loop fuel' s'
    end
  else Ok s.

(** Step 5: [for (i = temp.length - 1; i >= 0; i--) actions.push(temp[i])];
    [n] is [i + 1]. *)
Fixpoint flush_temp (n : nat) (tmp acts : list Action) : list Action :=
  match n with
  | O => acts
  | S i =>
      match tmp !! i with
      | Some t => flush_temp i tmp (acts ++ [t])
      | None => flush_temp i tmp acts
      end
  end.

(** What [diff] leaves behind: the returned actions, the (mutated) new
    and old arrays and the calls made by [removeElement]. *)
Record DiffOut := mkDiffOut {
  out_actions : list Action;
  out_bCh : list Fiber;
  out_aCh : list (option Fiber);
  out_log : list Event
}.

Definition diff_fuel (a b : list Fiber) : nat := S (length a + length b).

Definition diff (a b : list Fiber) : Res DiffOut :=
  let s0 := mkDiffSt (Some <$> a) b 0 0
                     (Z.of_nat (length a) - 1) (Z.of_nat (length b) - 1)
                     ∅ ∅ [] [] [] in
  s1 <-- tail_loop (diff_fuel a b) s0 ;;
  s2 <-- head_loop (diff_fuel a b) s1 ;;
  am <-- index_old (aCh s2) (aHead s2) (aTail s2) ;;
  bm <-- index_new (bCh s2) (bHead s2) (bTail s2) ;;
  s3 <-- mid_loop (diff_fuel a b)
           (mkDiffSt (aCh s2) (bCh s2) (aHead s2) (bHead s2) (aTail s2)
                     (bTail s2) am bm (temp s2) (actions s2) (dlog s2)) ;;
  Ok (mkDiffOut (flush_temp (length (temp s3)) (temp s3) (actions s3))
                (bCh s3) (aCh s3) (dlog s3)).

(** *** The phases, each run on its own

    The description of [diff] as a sequence of phases: every phase
    collects its own actions from an empty list, and the result is the
    head actions, then the middle actions, then the tail actions
    reversed. *)

Definition diff_init (a b : list Fiber) : DiffSt :=
  mkDiffSt (Some <$> a) b 0 0
           (Z.of_nat (length a) - 1) (Z.of_nat (length b) - 1)
           ∅ ∅ [] [] [].

(** The state with an empty action list. *)
Definition clear_actions (s : DiffSt) : DiffSt :=
  mkDiffSt (aCh s) (bCh s) (aHead s) (bHead s) (aTail s) (bTail s)
           (aMap s) (bMap s) (temp s) [] (dlog s).

Definition with_maps (am bm : gmap string Z) (s : DiffSt) : DiffSt :=
  mkDiffSt (aCh s) (bCh s) (aHead s) (bHead s) (aTail s) (bTail s)
           am bm (temp s) (actions s) (dlog s).

Definition tail_phase (a b : list Fiber) : Res DiffSt :=
  tail_loop (diff_fuel a b) (diff_init a b).

Definition head_phase (fuel : nat) (s : DiffSt) : Res DiffSt :=
  head_loop fuel (clear_actions s).

Definition middle_phase (fuel : nat) (s : DiffSt) : Res DiffSt :=
  am <-- index_old (aCh s) (aHead s) (aTail s) ;;
  bm <-- index_new (bCh s) (bHead s) (bTail s) ;;
  mid_loop fuel (with_maps am bm (clear_actions s)).

Definition diff_phases (a b : list Fiber) : Res (list Action) :=
  s1 <-- tail_phase a b ;;
  s2 <-- head_phase (diff_fuel a b) s1 ;;
  s3 <-- middle_phase (diff_fuel a b) s2 ;;
  Ok (actions s2 ++ actions s3 ++ reverse (temp s1)).
End Diff.


(** ** schedule.ts: the work queue and the deferred-callback queue *)

(** A callback stored in a work item. *)
Inductive TaskCb :=
| CbReconcile (fiber : nat)      (* () => reconcile(fiber), also its resumption *)
| CbSide (fiber : nat).          (* () => side(fiber.hooks.effect) *)

(** A work item [{ callback }]; [flush] empties the field while it runs. *)
Record Task := { callback : option TaskCb }.

(** A callback of the [transitions] queue. *)
Inductive Trans :=
| TFlush                          (* flush *)
| TUser (id : nat).               (* any other function given to startTransition *)

(** The channel a dispatch is posted on. *)
Inductive Channel := Microtask | MessagePort | Timer.

Section Schedule.
(** Whether the host defines [queueMicrotask] and [MessageChannel]. *)
Variable has_queueMicrotask has_MessageChannel : bool.

Record Sched := mkSched {
  queue : list Task;
  transitions : list Trans;
  translate : Channel;          (* the closure [task] last returned *)
  posted : list Channel         (* dispatches of [cb] handed to the host *)
}.

(** [task(pending)]: which channel the returned closure posts [cb] on. *)
Definition task (pending : bool) : Channel :=
  if negb pending && has_queueMicrotask then Microtask
  else if has_MessageChannel then MessagePort
  else Timer.

Definition sched_init : Sched := mkSched [] [] (task false) [].

(** [transitions.push(cb) && translate()]: [push] returns the new length. *)
Definition startTransition (cb : Trans) (s : Sched) : Sched :=
  let ts := transitions s ++ [cb] in
  if negb (Z.of_nat (length ts) =? 0)
  then mkSched (queue s) ts (translate s) (posted s ++ [translate s])
  else mkSched (queue s) ts (translate s) (posted s).

(** [schedule(callback)] *)
Definition schedule (c : TaskCb) (s : Sched) : Sched :=
  startTransition TFlush
    (mkSched (queue s ++ [{| callback := Some c |}]) (transitions s)
             (translate s) (posted s)).

(** The dispatch [cb] of [task]:
    [transitions.splice(0, 1).forEach((c) => c())].  The callbacks it
    calls are returned in call order, with the queue as it is when the
    first of them starts.  The host runs it once for every dispatch that
    was posted; [posted] records the requests. *)
Definition dispatch (s : Sched) : list Trans * Sched :=
  (take 1 (transitions s),
   mkSched (queue s) (drop 1 (transitions s)) (translate s) (posted s)).
End Schedule.

(** ** h.ts: h, arrayfy, some, flat, createVnode, createText *)

Module Hts.

(** What [h] is given as a child or finds in [props]. *)
Inductive FreNode :=
| NUndef
| NNull
| NBool (b : bool)
| NNum (n : Z)
| NStr (s : string)
| NText (s : string)     (* { type: '#text', props: { nodeValue: s } } *)
| NObj (id : nat)        (* any other object or function, e.g. a vnode *)
| NArr (l : list FreNode).

(** Truthiness, as tested by [!x] and [x || y]. *)
Definition truthy (v : FreNode) : bool :=
  match v with
  | NUndef | NNull => false
  | NBool b => b
  | NNum n => negb (n =? 0)
  | NStr s => negb (bool_decide (s = ""%string))
  | NText _ | NObj _ | NArr _ => true
  end.

(** [x || y] *)
Definition or_else (x y : FreNode) : FreNode := if truthy x then x else y.

Definition isArr (v : FreNode) : bool :=
  match v with NArr _ => true | _ => false end.

(** [typeof s === 'number' || typeof s === 'string'] *)
Definition isStr (v : FreNode) : bool :=
  match v with NNum _ | NStr _ => true | _ => false end.

(** [!arr ? [] : isArr(arr) ? arr : [arr]] *)
Definition arrayfy (arr : FreNode) : list FreNode :=
  if negb (truthy arr) then []
  else match arr with
       | NArr l => l
       | _ => [arr]
       end.

(** [x != null && x !== true && x !== false] *)
Definition some (x : FreNode) : bool :=
  match x with
  | NUndef | NNull | NBool _ => false
  | _ => true
  end.

(** [vnode + ''] for a string or a number. *)
Definition to_text (v : FreNode) : string :=
  match v with
  | NStr s => s
  | NNum n => pretty n
  | _ => ""
  end.

Definition createText (v : FreNode) : FreNode := NText (to_text v).

(** The body of the [forEach] callback of [flat] for the element [v],
    [target] being the array collected so far. *)
Fixpoint flat_one (v : FreNode) (target : list FreNode) : list FreNode :=
  match v with
  | NArr l =>
      (fix each (l : list FreNode) (t : list FreNode) : list FreNode :=
         match l with
         | [] => t
         | x :: r => each r (flat_one x t)
         end) l target
  | _ =>
      if some v then target ++ [if isStr v then createText v else v]
      else target
  end.

(** [flat(arr, target)] *)
Definition flat (arr : list FreNode) (target : list FreNode)
  : list FreNode :=
  foldl (fun t v => flat_one v t) target arr.

(** The properties of [props] that [h] reads or writes; an absent
    property reads as [undefined]. *)
Record Props := mkProps {
  children : FreNode;
  pkey : FreNode;
  pref : FreNode
}.

(** [{ type, props, key, ref }] *)
Record VNode := createVnode {
  vtype : FType;
  vprops : Props;
  vkey : FreNode;
  vref : FreNode
}.

(** [h(type, props, ...kids)]; [props] is [None] when a falsy value is
    passed. *)
Definition h (type : FType) (props : option Props) (kids : list FreNode)
  : VNode :=
  let props := default (mkProps NUndef NUndef NUndef) props in
  let kids := flat (arrayfy (or_else (children props) (NArr kids))) [] in
  let ch :=
    match kids with
    | [] => children props
    | [k] => k
    | _ => NArr kids
    end in
  let key := or_else (pkey props) NNull in
  let ref := or_else (pref props) NNull in
  createVnode type
    (mkProps ch
             (if truthy key then NUndef else pkey props)
             (if truthy ref then NUndef else pref props))
    key ref.

End Hts.

(** ** schedule.ts: flush, shouldYield, getTime, peek *)

(** What the callback of a work item can do to the scheduler: the two
    queues, the deadline and [translate] are private to the module, so a
    callback reaches them only through the exported functions. *)
Inductive Call :=
| CSchedule (c : TaskCb)          (* schedule(c) *)
| CStart (t : Trans).             (* startTransition(t) *)

Definition apply_call (s : Sched) (c : Call) : Sched :=
  match c with
  | CSchedule cb => schedule cb s
  | CStart t => startTransition t s
  end.

Definition threshold : Z := 5.

(** [peek(queue)]: [queue[0]] *)
Definition peek (q : list Task) : option Task := head q.

Section Flush.
Variable has_queueMicrotask has_MessageChannel : bool.
(** [now n] is the value of the [n]-th reading of [performance.now()]. *)
Variable now : nat -> Z.
(** The state outside the scheduler that the callbacks work on. *)
Variable Rt : Type.
(** Running a callback, given the deadline, the number of clock readings
    made so far and the outside state: the continuation it returns (none
    when the work is finished), its calls of the exported functions in
    order, the number of clock readings it made and the new outside
    state; [None] when it throws. *)
Variable run : TaskCb -> Z -> nat -> Rt
               -> option (option TaskCb * list Call * nat * Rt).

Record FlushSt := mkFlushSt {
  f_sched : Sched;
  f_reads : nat;                  (* clock readings made so far *)
  f_deadline : Z;
  f_rest : Rt
}.

Definition getTime (st : FlushSt) : Z * FlushSt :=
  (now (f_reads st),
   mkFlushSt (f_sched st) (S (f_reads st)) (f_deadline st) (f_rest st)).

(** [getTime() >= deadline] *)
Definition shouldYield (st : FlushSt) : bool * FlushSt :=
  let '(t, st') := getTime st in (f_deadline st <=? t, st').

(** [queue[0].callback = c], the queue being non-empty. *)
Definition set_head_callback (c : option TaskCb) (s : Sched) : Sched :=
  mkSched ({| callback := c |} :: tail (queue s)) (transitions s)
          (translate s) (posted s).

(** [queue.shift()] *)
Definition shift (s : Sched) : Sched :=
  mkSched (tail (queue s)) (transitions s) (translate s) (posted s).

(** One turn of the loop of [flush] once the callback has returned: the
    callback ran with [job.callback = null] and made [calls]; then
    [job.callback = next] or, without a continuation, [queue.shift()]. *)
Definition after_run (st : FlushSt) (next : option TaskCb)
  (calls : list Call) (k : nat) (rest' : Rt) : FlushSt :=
  let s1 := foldl apply_call (set_head_callback None (f_sched st)) calls in
  let s2 := match next with
            | Some n => set_head_callback (Some n) s1
            | None => shift s1
            end in
  mkFlushSt s2 (f_reads st + k) (f_deadline st) rest'.

(** The loop [while (job && !shouldYield())] of [flush]; [job] is
    [peek(queue)] at every test. *)
Fixpoint flush_loop (fuel : nat) (st : FlushSt) : Res FlushSt :=
  match peek (queue (f_sched st)) with
  | None => Ok st
  | Some job =>
      let '(y, st1) := shouldYield st in
      if y then Ok st1
      else
        match fuel with
        | O => OutOfFuel
        | S fuel' =>
            match callback job with
            | None => Throw
            | Some cb =>
                match run cb (f_deadline st1) (f_reads st1) (f_rest st1) with
                | None => Throw
                | Some (next, calls, k, rest') =>
                    flush_loop fuel' (after_run st1 next calls k rest')
                end
            end
        end
  end.

Definition flush (fuel : nat) (st : FlushSt) : Res FlushSt :=
  let '(t, st0) := getTime st in
  st2 <-- flush_loop fuel
            (mkFlushSt (f_sched st0) (f_reads st0) (t + threshold)
                       (f_rest st0)) ;;
  match peek (queue (f_sched st2)) with
  | None => Ok st2
  | Some _ =>
      let '(y, st3) := shouldYield st2 in
      let s := f_sched st3 in
      Ok (mkFlushSt
            (startTransition TFlush
               (mkSched (queue s) (transitions s)
                        (task has_queueMicrotask has_MessageChannel y)
                        (posted s)))
            (f_reads st3) (f_deadline st3) (f_rest st3))
  end.
End Flush.
Arguments mkFlushSt {Rt} _ _ _ _.
Arguments f_sched {Rt} _.
Arguments f_reads {Rt} _.
Arguments f_deadline {Rt} _.
Arguments f_rest {Rt} _.
Arguments getTime _ {Rt} _.
Arguments shouldYield _ {Rt} _.
Arguments after_run {Rt} _ _ _ _ _.
Arguments flush_loop _ {Rt} _ _ _.
Arguments flush _ _ _ {Rt} _ _ _.

(** ** reconcile.ts: update *)

(** Assignments to one field of a fiber. *)
Definition set_dirty (b : bool) (f : Fiber) : Fiber :=
  mkFiber (fid f) (ftype f) (key f) (props f) (pchildren f) (ref f) (node f)
          (hooks f) (kids f) (alternate f) (child f) (sibling f) (isComp f)
          (memo f) b (action f) (lane f).

Definition set_memo (b : bool) (f : Fiber) : Fiber :=
  mkFiber (fid f) (ftype f) (key f) (props f) (pchildren f) (ref f) (node f)
          (hooks f) (kids f) (alternate f) (child f) (sibling f) (isComp f)
          b (dirty f) (action f) (lane f).

Definition set_isComp (b : bool) (f : Fiber) : Fiber :=
  mkFiber (fid f) (ftype f) (key f) (props f) (pchildren f) (ref f) (node f)
          (hooks f) (kids f) (alternate f) (child f) (sibling f) b (memo f)
          (dirty f) (action f) (lane f).

Definition set_node (n : option nat) (f : Fiber) : Fiber :=
  mkFiber (fid f) (ftype f) (key f) (props f) (pchildren f) (ref f) n
          (hooks f) (kids f) (alternate f) (child f) (sibling f) (isComp f)
          (memo f) (dirty f) (action f) (lane f).

Definition set_action (a : option Action) (f : Fiber) : Fiber :=
  mkFiber (fid f) (ftype f) (key f) (props f) (pchildren f) (ref f) (node f)
          (hooks f) (kids f) (alternate f) (child f) (sibling f) (isComp f)
          (memo f) (dirty f) a (lane f).

Definition set_hooks (h : option Hooks) (f : Fiber) : Fiber :=
  mkFiber (fid f) (ftype f) (key f) (props f) (pchildren f) (ref f) (node f)
          h (kids f) (alternate f) (child f) (sibling f) (isComp f) (memo f)
          (dirty f) (action f) (lane f).

Definition set_lane (l : Z) (f : Fiber) : Fiber :=
  mkFiber (fid f) (ftype f) (key f) (props f) (pchildren f) (ref f) (node f)
          (hooks f) (kids f) (alternate f) (child f) (sibling f) (isComp f)
          (memo f) (dirty f) (action f) l.

Definition set_sibling (s : option Fiber) (f : Fiber) : Fiber :=
  mkFiber (fid f) (ftype f) (key f) (props f) (pchildren f) (ref f) (node f)
          (hooks f) (kids f) (alternate f) (child f) s (isComp f) (memo f)
          (dirty f) (action f) (lane f).

Definition set_children (ks : option (list Fiber)) (c : option Fiber)
  (f : Fiber) : Fiber :=
  mkFiber (fid f) (ftype f) (key f) (props f) (pchildren f) (ref f) (node f)
          (hooks f) ks (alternate f) c (sibling f) (isComp f) (memo f)
          (dirty f) (action f) (lane f).

(** [update(fiber)]: the fiber object and the scheduler are both mutated,
    so both are returned. *)
Definition update (fiber : Fiber) (s : Sched) : Fiber * Sched :=
  if negb (dirty fiber)
  then (set_dirty true fiber, schedule (CbReconcile (fid fiber)) s)
  else (fiber, s).

(** ** reconcile.ts: shouldUpdate, isMemo *)

(** [name in obj] for an object literal. *)
Definition has_prop (p : Props) (i : string) : bool :=
  bool_decide (is_Some (p !! i)) || is_proto_name i.

(** [obj[name]] for an object literal. *)
Definition get_prop (p : Props) (i : string) : JVal :=
  match p !! i with
  | Some v => v
  | None => if is_proto_name i then VBuiltin i else VUndef
  end.

(** The default shallow comparison.  [a] is [fiber.props] (possibly
    absent), [b] an object.  Reading [a[i]] on an absent [a] throws. *)
Definition shouldUpdate (a : option Props) (b : Props) : Res bool :=
  match a with
  | Some a =>
      Ok (existsb (fun kv => negb (has_prop b kv.1)) (map_to_list a)
          || existsb (fun kv => strict_ne (get_prop a kv.1) kv.2)
                     (map_to_list b))
  | None => if bool_decide (b = ∅) then Ok false else Throw
  end.

(** What is known of a component function: the flags [memo] sets on it
    and what a call returns. *)
Inductive RenderOut :=
| ROne (f : Fiber)
| RMany (l : list Fiber)
| RText (s : string)
| RNothing.

Record Comp := {
  cmemo : bool;
  cshouldUpdate : option (option Props -> Props -> bool);
  crender : option Props -> option Hooks -> RenderOut * option Hooks
}.

Section Memo.
Variable comps : nat -> Comp.

(** [(fiber.type as FC).memo] *)
Definition type_memo (t : FType) : bool :=
  match t with
  | TComp c => cmemo (comps c)
  | THost _ => false
  end.

(** [(fiber.type as FC).shouldUpdate || shouldUpdate] *)
Definition scu (t : FType) (a : option Props) (b : Props) : Res bool :=
  match t with
  | TComp c =>
      match cshouldUpdate (comps c) with
      | Some f => Ok (f a b)
      | None => shouldUpdate a b
      end
  | THost _ => shouldUpdate a b
  end.

Definition isMemo (fiber : Fiber) : Res bool :=
  match alternate fiber with
  | Some alt =>
      match props alt with
      | Some altp =>
          if type_memo (ftype fiber)
             && bool_decide (ftype fiber = ftype alt)
          then
            r <-- scu (ftype fiber) (props fiber) altp ;;
            Ok (negb r)
          else Ok false
      | None => Ok false
      end
  | None => Ok false
  end.
End Memo.

(** ** The host tree

    The host adapter is outside the reconciler: the code reads three
    members of a host node and calls the adapter to create and edit nodes.
    Every edit is an [Event]; [h_apply] is what the edit does to the host. *)
Class Host (H : Type) := {
  h_nodeType : H -> nat -> Z;
  h_parentNode : H -> nat -> option nat;
  h_firstChild : H -> nat -> option nat;
  h_apply : H -> Event -> Res H;
  h_createElement : H -> Fiber -> nat * H;
  h_fragment : H -> Fiber -> nat * H
}.

(** ** commit.ts: commit, commitSibling *)

Section Commit.
Variable tg : TagTable.
Context {H : Type} `{Host H}.

(** [op & flag] as a condition. *)
Definition has_flag (o flag : Z) : bool := negb (Z.land o flag =? 0).

(** [x.node] for the fiber object [x] while [fiber] is being committed:
    [x] may be [fiber] itself, whose node is read as it is now. *)
Definition node_of (fiber x : Fiber) : option nat :=
  if bool_decide (fid x = fid fiber) then node fiber else node x.

(** The part of [commit] between the two recursive calls.  [pn] is
    [fiber.parent.node]. *)
Definition commit_self (pn : option nat) (fiber : Fiber) (h : H)
  : Res (H * list Event * Fiber) :=
  let o := match action fiber with Some a => op a | None => 0 end in
  let rf := match action fiber with Some a => aref a | None => None end in
  let cu := match action fiber with Some a => cur a | None => None end in
  let parent :=
    match pn with
    | Some p => if h_nodeType h p =? 8 then h_parentNode h p else Some p
    | None => None
    end in
  r1 <--
    (if has_flag o (INSERT tg) || has_flag o (MOVE tg) then
       let comment :=
         if isComp fiber then
           match node fiber with
           | Some n => h_firstChild h n
           | None => None
           end
         else None in
       match parent, cu with
       | Some p, Some c =>
           let e := EInsertBefore (Some p) (node_of fiber c)
                      (match rf with
                       | Some r => node_of fiber r
                       | None => None
                       end) in
           h' <-- h_apply h e ;;
           Ok (h', [e],
               if isComp fiber then set_node comment fiber else fiber)
       | _, _ => Throw
       end
     else Ok (h, [], fiber)) ;;
  let '(h1, ev1, f1) := r1 in
  r2 <--
    (if has_flag o (UPDATE tg) then
       match alternate f1 with
       | Some alt =>
           let e := EUpdateElement (node f1) (default ∅ (props alt))
                                   (default ∅ (props f1)) in
           h' <-- h_apply h1 e ;;
           Ok (h', [e])
       | None => Throw
       end
     else Ok (h1, [])) ;;
  let '(h2, ev2) := r2 in
  Ok (h2, ev1 ++ ev2, set_action None f1).

(** [commit] and [commitSibling] in one recursion: [via_sibling] tells
    that the fiber is entered through [commitSibling], which passes over
    fibers flagged [memo]; [commit(undefined)] returns at once. *)
Fixpoint commit_go (via_sibling : bool) (pn : option nat) (fiber : Fiber)
  (h : H) : Res (H * list Event * Fiber) :=
  if via_sibling && memo fiber then
    match sibling fiber with
    | Some s =>
        r <-- commit_go true pn s h ;;
        let '(h', ev, s') := r in
        Ok (h', ev, set_sibling (Some s') fiber)
    | None => Ok (h, [], fiber)
    end
  else
    let ev0 := refer (ref fiber) (node fiber) in
    r1 <--
      match child fiber with
      | Some c =>
          r <-- commit_go true (node fiber) c h ;;
          let '(h', ev, c') := r in Ok (h', ev, Some c')
      | None => Ok (h, [], None)
      end ;;
    let '(h1, ev1, c') := r1 in
    r2 <-- commit_self pn fiber h1 ;;
    let '(h2, ev2, f2) := r2 in
    r3 <--
      match sibling fiber with
      | Some s =>
          r <-- commit_go true pn s h2 ;;
          let '(h', ev, s') := r in Ok (h', ev, Some s')
      | None => Ok (h2, [], None)
      end ;;
    let '(h3, ev3, s') := r3 in
    Ok (h3, ev0 ++ ev1 ++ ev2 ++ ev3,
        set_sibling s' (set_children (kids f2) c' f2)).

Definition commit (pn : option nat) (fiber : Fiber) (h : H) :=
  commit_go false pn fiber h.

Definition commitSibling (pn : option nat) (fiber : option Fiber) (h : H)
  : Res (H * list Event * option Fiber) :=
  match fiber with
  | Some f =>
      r <-- commit_go true pn f h ;;
      let '(h', ev, f') := r in Ok (h', ev, Some f')
  | None => Ok (h, [], None)
  end.
End Commit.

(** ** reconcile.ts: side, bubble, getSibling, reconcileChidren, capture *)

(** Replace, in a chain of siblings starting at [c], the fiber that is the
    object [f'] by its current state. *)
Fixpoint chain_plug (f' : Fiber) (c : Fiber) : Fiber :=
  if bool_decide (fid c = fid f') then f'
  else match sibling c with
       | Some s => set_sibling (Some (chain_plug f' s)) c
       | None => c
       end.

(** The parent object [p] as it is once its child [f'] has been mutated:
    [p.child...] and [p.kids[i]] are the same objects. *)
Definition plug (f' : Fiber) (p : Fiber) : Fiber :=
  set_children
    (option_map
       (map (fun k : Fiber => if bool_decide (fid k = fid f') then f' else k))
       (kids p))
    (option_map (chain_plug f') (child p)) p.

(** [prev.sibling = child] along the new child list. *)
Fixpoint link (l : list Fiber) : list Fiber :=
  match l with
  | [] => []
  | c :: r =>
      let r' := link r in
      match r' with
      | n :: _ => set_sibling (Some n) c :: r'
      | [] => [c]
      end
  end.

(** [createText(vnode)]; the new object gets the identity [id]. *)
Definition createText (id : nat) (s : string) : Fiber :=
  mkFiber id (THost "#text") KUndef (Some {[ "nodeValue"%string := VStr s ]})
          [] None None None None None None None false false false None 0.

Section Capture.
Variable tg : TagTable.
Variable comps : nat -> Comp.
(** What a call of the effect callback [fn] returns (its cleanup). *)
Variable effect_result : nat -> option nat.
Context {H : Type} `{Host H}.

(** Everything outside the fiber tree that the walk changes. *)
Record World := mkWorld {
  w_host : H;
  w_sched : Sched;
  w_log : list Event;
  w_fresh : nat                 (* identity of the next object created *)
}.

(** Perform the host edits among [evs], in order. *)
Definition apply_all (h : H) (evs : list Event) : Res H :=
  foldl (fun (acc : Res H) e => h' <-- acc ;; h_apply h' e) (Ok h) evs.

(** [side(effects)] on the slots of [hooks.list]. *)
Definition side (effects : list nat) (slots : list HookSlot)
  : Res (list Event * list HookSlot) :=
  let ev1 := flat_map (fun i => match slots !! i with
                                | Some sl => match cleanup sl with
                                             | Some c => [ECleanup c]
                                             | None => []
                                             end
                                | None => []
                                end) effects in
  foldl (fun (acc : Res (list Event * list HookSlot)) i =>
           a <-- acc ;;
           match a.2 !! i with
           | Some sl =>
               match hcb sl with
               | Some cb =>
                   Ok (a.1 ++ [EEffect cb],
                       <[i := {| hcb := Some cb;
                                 cleanup := effect_result cb |}]> a.2)
               | None => Throw
               end
           | None => Throw
           end) (Ok (ev1, slots)) effects.

(** [bubble(fiber)] *)
Definition bubble (fiber : Fiber) (w : World) : Res (Fiber * World) :=
  if isComp fiber then
    match hooks fiber with
    | Some hk =>
        r <-- side (hlayout hk) (hlist hk) ;;
        Ok (set_hooks (Some {| hlist := r.2; heffect := heffect hk;
                               hlayout := [] |}) fiber,
            mkWorld (w_host w) (schedule (CbSide (fid fiber)) (w_sched w))
                    (w_log w ++ r.1) (w_fresh w))
    | None => Ok (fiber, w)
    end
  else Ok (fiber, w).

(** Where the walk stands: the fiber to capture next ([None] for [null])
    and the chain [fiber.parent], [fiber.parent.parent], ...  When the
    walk stops, the chain starts with the last fiber visited. *)
Record Pos := mkPos { focus : option Fiber; ctx : list Fiber }.

(** [getSibling(fiber)] *)
Fixpoint getSibling (fiber : Fiber) (parents : list Fiber) (w : World)
  : Res (Pos * World) :=
  r <-- bubble fiber w ;;
  let '(fiber1, w1) := r in
  if dirty fiber1 then
    let fiber2 := set_dirty false fiber1 in
    c <-- commit tg (head parents ≫= node) fiber2 (w_host w1) ;;
    let '(h', ev, fiber3) := c in
    Ok (mkPos None (fiber3 :: parents),
        mkWorld h' (w_sched w1) (w_log w1 ++ ev) (w_fresh w1))
  else
    match sibling fiber1 with
    | Some s =>
        Ok (mkPos (Some s)
                  (match parents with
                   | p :: ps => plug fiber1 p :: ps
                   | [] => []
                   end), w1)
    | None =>
        match parents with
        | p :: ps => getSibling (plug fiber1 p) ps w1
        | [] => Ok (mkPos None [fiber1], w1)
        end
    end.

(** [reconcileChidren(fiber, children)]; [children] is the array
    [arrayfy] returns.  [removeElement] edits the host while [diff] runs;
    [diff] does not read the host, so the edits are applied after it.  The
    slots that [diff] empties in the old array are not read again. *)
Definition reconcileChidren (fiber : Fiber) (children : list Fiber)
  (w : World) : Res (Fiber * World) :=
  let a := default [] (kids fiber) in
  d <-- diff tg a children ;;
  h' <-- apply_all (w_host w) (out_log d) ;;
  let stamped :=
    imap (fun i c =>
            let c1 := set_action (out_actions d !! i) c in
            if negb (Z.land (lane fiber) (SVG tg) =? 0)
            then set_lane (Z.lor (lane c1) (SVG tg)) c1 else c1)
         (out_bCh d) in
  let linked := link stamped in
  Ok (set_children (Some linked)
        (match linked with c :: _ => Some c | [] => child fiber end) fiber,
      mkWorld h' (w_sched w) (w_log w ++ out_log d) (w_fresh w)).

(** [updateHook(fiber)].  [resetCursor] and [currentFiber] only serve the
    hooks that the component function calls; their effect on the fiber is
    the hooks value that [crender] returns. *)
Definition updateHook (fiber : Fiber) (w : World) : Res (Fiber * World) :=
  match ftype fiber with
  | TComp c =>
      let '(fiber1, h1) :=
        match node fiber with
        | Some _ => (fiber, w_host w)
        | None => let '(n, h') := h_fragment (w_host w) fiber in
                  (set_node (Some n) fiber, h')
        end in
      let '(out, hk) := crender (comps c) (props fiber1) (hooks fiber1) in
      let fiber2 := set_hooks hk fiber1 in
      let w1 := mkWorld h1 (w_sched w)
                        (w_log w ++ [ERender c (props fiber1)])
                        (w_fresh w) in
      match out with
      | ROne f => reconcileChidren fiber2 [f] w1
      | RMany l => reconcileChidren fiber2 l w1
      | RText s =>
          reconcileChidren fiber2 [createText (w_fresh w1) s]
            (mkWorld (w_host w1) (w_sched w1) (w_log w1) (S (w_fresh w1)))
      | RNothing => reconcileChidren fiber2 [] w1
      end
  | THost _ => Throw
  end.

(** [updateHost(fiber)] *)
Definition updateHost (fiber : Fiber) (w : World) : Res (Fiber * World) :=
  let '(fiber1, h1) :=
    match node fiber with
    | Some _ => (fiber, w_host w)
    | None =>
        let f1 := if bool_decide (ftype fiber = THost "svg")
                  then set_lane (Z.lor (lane fiber) (SVG tg)) fiber
                  else fiber in
        let '(n, h') := h_createElement (w_host w) f1 in
        (set_node (Some n) f1, h')
    end in
  match props fiber1 with
  | Some _ =>
      reconcileChidren fiber1 (pchildren fiber1)
        (mkWorld h1 (w_sched w) (w_log w) (w_fresh w))
  | None => Throw
  end.

(** [isFn(fiber.type)] *)
Definition isFn_type (t : FType) : bool :=
  match t with TComp _ => true | THost _ => false end.

(** [capture(fiber)] *)
Definition capture (fiber : Fiber) (parents : list Fiber) (w : World)
  : Res (Pos * World) :=
  let fiber0 := set_isComp (isFn_type (ftype fiber)) fiber in
  let continue := fun (r : Fiber * World) =>
    let '(fiber3, w3) := r in
    match child fiber3 with
    | Some c => Ok (mkPos (Some c) (fiber3 :: parents), w3)
    | None => getSibling fiber3 parents w3
    end in
  if isComp fiber0 then
    m <-- isMemo comps fiber0 ;;
    if m then getSibling (set_memo true fiber0) parents w
    else
      let fiber1 := if memo fiber0 then set_memo false fiber0 else fiber0 in
      r <-- updateHook fiber1 w ;;
      continue r
  else
    r <-- updateHost fiber0 w ;;
    continue r.
End Capture.

(** ** reconcile.ts: reconcile *)

Section Reconcile.
Variable tg : TagTable.
Variable comps : nat -> Comp.
Variable effect_result : nat -> option nat.
Context {H : Type} `{Host H}.
(** [now n] is the value of the [n]-th reading of [performance.now()]. *)
Variable now : nat -> Z.

(** [reconcile(fiber)]: the loop
    [while (fiber && !shouldYield()) fiber = capture(fiber)], for the
    deadline set by [flush] and after [reads] readings of the clock.  The
    result is where the walk stands, and the number of readings: a focus
    is the fiber that the returned continuation is bound to, no focus is
    the result [null]. *)
Fixpoint reconcile (fuel : nat) (deadline : Z) (reads : nat) (pos : Pos)
  (w : World) : Res (Pos * World * nat) :=
  match focus pos with
  | None => Ok (pos, w, reads)
  | Some fiber =>
      if deadline <=? now reads then Ok (pos, w, S reads)
      else
        match fuel with
        | O => OutOfFuel
        | S fuel' =>
            r <-- capture tg comps effect_result fiber (ctx pos) w ;;
            let '(pos', w') := r in
            reconcile fuel' deadline (S reads) pos' w'
        end
  end.
End Reconcile.

(** ** The hooks: isChanged, getSlot, useMemo, and the dispatch function
    of useReducer *)

(** [isChanged(a, b)]: [a] is [hook[1]], undefined on a fresh slot; [b]
    is the [deps] argument, undefined when the caller leaves it out.
    Reading [b.length] on an undefined [b] throws.  [Object.is] on the
    modelled values is equality. *)
Definition isChanged (a b : option (list JVal)) : Res bool :=
  match a with
  | None => Ok true
  | Some a =>
      match b with
      | None => Throw
      | Some b =>
          Ok (negb (length a =? length b)%nat
              || existsb (fun '(index, arg) =>
                            negb (bool_decide (default VUndef (a !! index) = arg)))
                         (imap pair b))
      end
  end.

(** A slot of [hooks.list] as the memo hooks ([useMemo], [useCallback],
    [useRef]) use it: [hook[0]] is the value, [hook[1]] the dependency
    list; both are undefined on a fresh slot. *)
Record MemoSlot := mkMemoSlot {
  mval : JVal;
  mdeps : option (list JVal)
}.

(** The module variable [cursor] and [hooks.list] of the current fiber,
    for a component all of whose hooks are memo hooks. *)
Record HookStore := mkHookStore {
  cursor : nat;
  slots : list MemoSlot
}.

(** [resetCursor()] *)
Definition resetCursor (st : HookStore) : HookStore :=
  mkHookStore 0 (slots st).

(** [getSlot(cursor)]: the slot (undefined when [cursor] is beyond the
    slot just pushed) and the list. *)
Definition getSlot (c : nat) (l : list MemoSlot)
  : option MemoSlot * list MemoSlot :=
  let l' := if (length l <=? c)%nat then l ++ [mkMemoSlot VUndef None]
            else l in
  (l' !! c, l').

(** [useMemo(cb, deps)]; [cb] is given by the value a call of it returns.
    The result tells whether [cb] was called. *)
Definition useMemo (cb : JVal) (deps : option (list JVal)) (st : HookStore)
  : Res (JVal * bool * HookStore) :=
  let '(hook, l) := getSlot (cursor st) (slots st) in
  match hook with
  | None => Throw
  | Some hk =>
      ch <-- isChanged (mdeps hk) deps ;;
      if ch then
        Ok (cb, true,
            mkHookStore (S (cursor st))
                        (<[cursor st := mkMemoSlot cb deps]> l))
      else Ok (mval hk, false, mkHookStore (S (cursor st)) l)
  end.

(** What [setState] or [dispatch] is called with: a plain value (or an
    action), or a function of the state. *)
Inductive DispatchArg :=
| AVal (v : JVal)
| AFn (f : JVal -> JVal).

(** The function [hook[1]] that [useReducer] returns, called with
    [value]: [state] is [hook[0]], [current] the fiber of the hook. *)
Definition dispatch_state (reducer : option (JVal -> DispatchArg -> JVal))
  (value : DispatchArg) (state : JVal) (current : Fiber) (s : Sched)
  : JVal * Fiber * Sched :=
  let v := match reducer with
           | Some r => r state value
           | None => match value with
                     | AFn f => f state
                     | AVal v => v
                     end
           end in
  if strict_ne state v then
    let '(f, s') := update current s in (v, f, s')
  else (state, current, s).

(** ** Fibers as trees of kids *)

(** [fiber.kids.forEach((v) => removeElement(v, flag))] *)
Definition remove_all (flag : bool) : list Fiber -> Res (list Event) :=
  fix each (l : list Fiber) : Res (list Event) :=
    match l with
    | [] => Ok []
    | v :: l' =>
        e1 <-- removeElement v flag ;;
        e2 <-- each l' ;;
        Ok (e1 ++ e2)
    end.

(** [fiber?.kids?.forEach((v) => removeElement(v, flag))] *)
Definition remove_kids (flag : bool) (ks : option (list Fiber))
  : Res (list Event) :=
  match ks with
  | Some l => remove_all flag l
  | None => Ok []
  end.

(** The number of fibers reachable through [kids]. *)
Fixpoint kid_size (f : Fiber) : nat :=
  S (match kids f with
     | Some ks =>
         (fix sum (l : list Fiber) : nat :=
            match l with
            | [] => O
            | k :: l' => (kid_size k + sum l')%nat
            end) ks
     | None => O
     end).

(** The fibers of the subtree below and including [f], parents first. *)
Fixpoint subtree (f : Fiber) : list Fiber :=
  f :: match kids f with
       | Some ks => ks ≫= subtree
       | None => []
       end.

(** The host fibers of the subtree that have no host fiber above them in
    the subtree. *)
Fixpoint top_hosts (f : Fiber) : list Fiber :=
  if isComp f then
    match kids f with
    | Some ks => ks ≫= top_hosts
    | None => []
    end
  else [f].

(** The fibers of the subtree that are host fibers or lie below one. *)
Fixpoint below_host (f : Fiber) : list Fiber :=
  if isComp f then
    match kids f with
    | Some ks => ks ≫= below_host
    | None => []
    end
  else subtree f.

(** The host handles detached by a list of events, in order. *)
Definition detached (evs : list Event) : list nat :=
  omap (fun e => match e with ERemoveChild n => Some n | _ => None end) evs.

(** The number of fibers reachable through [child] and [sibling]. *)
Fixpoint cs_size (f : Fiber) : nat :=
  S (match child f with Some c => cs_size c | None => O end
     + match sibling f with Some s => cs_size s | None => O end).

(** Calls of a component function among the events. *)
Definition is_render (e : Event) : bool :=
  match e with ERender _ _ => true | _ => false end.

Definition no_render (evs : list Event) : Prop :=
  Forall (fun e => is_render e = false) evs.

(** ** A host tree: the part of the DOM the reconciler relies on

    Nodes have a type (1 element, 3 text, 8 comment, 11 fragment), a parent
    and an ordered list of children.  [insertBefore] moves the node (for a
    fragment: its children) before the anchor, or to the end when the
    anchor is null or undefined. *)
Record DNode := mkDNode {
  d_type : Z;
  d_parent : option nat;
  d_children : list nat
}.

Record Dom := mkDom {
  d_nodes : gmap nat DNode;
  d_next : nat                    (* handle of the next node created *)
}.

Definition dom_children (h : Dom) (n : nat) : list nat :=
  match d_nodes h !! n with Some d => d_children d | None => [] end.

Definition dom_nodeType (h : Dom) (n : nat) : Z :=
  match d_nodes h !! n with Some d => d_type d | None => 0 end.

Definition dom_parentNode (h : Dom) (n : nat) : option nat :=
  d_nodes h !! n ≫= d_parent.

Definition dom_firstChild (h : Dom) (n : nat) : option nat :=
  head (dom_children h n).

Definition remove_nat (c : nat) (l : list nat) : list nat :=
  filter (fun x => x ≠ c) l.

(** Take [c] out of the child list of its parent. *)
Definition dom_detach (h : Dom) (c : nat) : Dom :=
  match d_nodes h !! c with
  | Some d =>
      let m1 := <[c := mkDNode (d_type d) None (d_children d)]> (d_nodes h) in
      match d_parent d with
      | Some p =>
          mkDom (alter (fun pd => mkDNode (d_type pd) (d_parent pd)
                                    (remove_nat c (d_children pd))) p m1)
                (d_next h)
      | None => mkDom m1 (d_next h)
      end
  | None => h
  end.

(** [l] with [xs] placed before the anchor, or at the end. *)
Fixpoint insert_before (xs : list nat) (anchor : option nat) (l : list nat)
  : list nat :=
  match l with
  | [] => xs
  | y :: l' =>
      if bool_decide (anchor = Some y) then xs ++ y :: l'
      else y :: insert_before xs anchor l'
  end.

(** The sibling that follows [c] in [l]. *)
Fixpoint next_of (c : nat) (l : list nat) : option nat :=
  match l with
  | [] => None
  | y :: l' => if bool_decide (y = c) then head l' else next_of c l'
  end.

Definition dom_insertBefore (h : Dom) (p c : nat) (anchor : option nat)
  : Res Dom :=
  if match anchor with
     | Some r => bool_decide (r ∈ dom_children h p)
     | None => true
     end
  then
    let anchor' := if bool_decide (anchor = Some c)
                   then next_of c (dom_children h p) else anchor in
    let moved := if dom_nodeType h c =? 11 then dom_children h c else [c] in
    let h1 := foldl dom_detach h moved in
    let m2 := foldl (fun m x => alter (fun d => mkDNode (d_type d) (Some p)
                                                 (d_children d)) x m)
                    (d_nodes h1) moved in
    Ok (mkDom (alter (fun pd => mkDNode (d_type pd) (d_parent pd)
                                  (insert_before moved anchor'
                                     (d_children pd))) p m2)
              (d_next h1))
  else Throw.

Definition dom_apply (h : Dom) (e : Event) : Res Dom :=
  match e with
  | ERemoveChild n =>
      match dom_parentNode h n with
      | Some _ => Ok (dom_detach h n)
      | None => Throw
      end
  | EInsertBefore (Some p) (Some c) anchor => dom_insertBefore h p c anchor
  | EInsertBefore _ _ _ => Throw
  | _ => Ok h
  end.

Definition dom_createElement (h : Dom) (f : Fiber) : nat * Dom :=
  (d_next h,
   mkDom (<[d_next h := mkDNode (if bool_decide (ftype f = THost "#text")
                                 then 3 else 1) None []]> (d_nodes h))
         (S (d_next h))).

(** [fragment(fiber)]: a fragment holding one comment. *)
Definition dom_fragment (h : Dom) (f : Fiber) : nat * Dom :=
  (d_next h,
   mkDom (<[d_next h := mkDNode 11 None [S (d_next h)]]>
            (<[S (d_next h) := mkDNode 8 (Some (d_next h)) []]> (d_nodes h)))
         (S (S (d_next h)))).

#[global] Instance Dom_Host : Host Dom := {
  h_nodeType := dom_nodeType;
  h_parentNode := dom_parentNode;
  h_firstChild := dom_firstChild;
  h_apply := dom_apply;
  h_createElement := dom_createElement;
  h_fragment := dom_fragment
}.

(** ** Sample fibers and tables *)

(** The values [type.ts] of the upstream project gives the flags. *)
Definition sample_tags : TagTable :=
  {| UPDATE := 2; INSERT := 4; MOVE := 64; SVG := 16 |}.

Definition li (id : nat) (k : Key) : Fiber := vnode id (THost "li") k.

Local Open Scope nat_scope.

(** A committed host fiber: bound to the host node [n]. *)
Definition bound (n : nat) (f : Fiber) : Fiber := set_node (Some n) f.

(** A component fiber that carries a ref and has rendered one host child. *)
Definition comp_with_ref : Fiber :=
  mkFiber 10 (TComp 0) KNull (Some ∅) [] (Some (RObj 7)) (Some 20) None
          (Some [bound 21 (li 11 KNull)]) None None None true false false
          None 0%Z.

Local Close Scope nat_scope.

(** A memoised component with the default comparator that renders nothing. *)
Definition sample_comps (fn : nat) : Comp :=
  {| cmemo := true;
     cshouldUpdate := None;
     crender := fun _ hk => (RNothing, hk) |}.

Local Open Scope nat_scope.

Definition sample_alt : Fiber := vnode 30 (TComp 0) KNull.

(** A memoised component fiber with unchanged props that is dirty and
    still carries the UPDATE action an earlier commit passed over. *)
Definition dirty_memo : Fiber :=
  mkFiber 31 (TComp 0) KNull (Some ∅) [] None (Some 5) None (Some [])
          (Some sample_alt) None None true false true
          (Some (mkAction (UPDATE sample_tags) None None)) 0%Z.

(** The same fiber on its first render: no alternate, nothing pending. *)
Definition first_render : Fiber :=
  mkFiber 32 (TComp 0) KNull (Some ∅) [] None None None None
          None None None false false false None 0%Z.

(** An element (node 4) holding the comment (node 5) of a component. *)
Definition sample_dom : Dom :=
  mkDom (<[4 := mkDNode 1 None [5]]> (<[5 := mkDNode 8 (Some 4) []]> ∅)) 6.

Definition sample_world : World :=
  mkWorld sample_dom (sched_init true true) [] 100.

Local Close Scope nat_scope.

Local Open Scope nat_scope.

(** Old and new lists in which a new fiber with the falsy key [0] meets an
    old fiber with the key ["0"]. *)
Definition old_p0 : list Fiber := [li 40 (KStr "p"); li 41 (KStr "0")].
Definition new_0p : list Fiber := [li 42 (KNum 0%Z); li 43 (KStr "p")].

(** An element (node 4) with one child (node 6), and a detached element
    (node 7). *)
Definition sample_dom2 : Dom :=
  mkDom (<[4 := mkDNode 1 None [6]]>
           (<[6 := mkDNode 1 (Some 4) []]>
              (<[7 := mkDNode 1 None []]> ∅))) 8.

Local Close Scope nat_scope.

(** ** Invariants and measures used in the proofs *)

(** The state with [acc] in front of its action list. *)
Definition add_actions (acc : list Action) (s : DiffSt) : DiffSt :=
  mkDiffSt (aCh s) (bCh s) (aHead s) (bHead s) (aTail s) (bTail s)
           (aMap s) (bMap s) (temp s) (acc ++ actions s) (dlog s).

(** What steps 1 and 2 keep: the length of the old array, the sign of
    the head pointers and the bound on [bTail]. *)
Definition bounded (n m : nat) (s : DiffSt) : Prop :=
  length (aCh s) = n /\ 0 <= aHead s /\ 0 <= bHead s
  /\ bTail s < Z.of_nat m.

(** The number of turns step 4 can still take. *)
Definition mid_measure (s : DiffSt) : nat :=
  (Z.to_nat (Z.of_nat (length (aCh s)) - aHead s)
   + Z.to_nat (bTail s + 1 - bHead s))%nat.

(** Every entry of an index map points at a fiber whose key is truthy and
    is stored under the property name of that key. *)
Definition indexed_old (ch : list (option Fiber)) (m : gmap string Z) : Prop :=
  forall name i, m !! name = Some i ->
    exists f, idx ch i = Some (Some f) /\ truthy (key f) = true
              /\ prop_name (key f) = name.

(** The same for the map of the new list. *)
Definition indexed_new (ch : list Fiber) (m : gmap string Z) : Prop :=
  forall name i, m !! name = Some i ->
    exists f, idx ch i = Some f /\ truthy (key f) = true
              /\ prop_name (key f) = name.

(** The entries of [aMap] that still point at a fiber (the slot has not
    been emptied by a move) point at a fiber with that truthy key. *)
Definition amap_ok (s : DiffSt) : Prop :=
  forall name i m, aMap s !! name = Some i ->
    idx (aCh s) i = Some (Some m) ->
    truthy (key m) = true /\ prop_name (key m) = name.

(** What holds of a MOVE in a list of actions that is aligned with the
    new children: its [cur] has a truthy key, and the new fiber at the
    position of the action has a key with the same property name and has
    [cur] as alternate. *)
Definition move_ok (tg : TagTable) (bch : list Fiber) (j : nat) (act : Action) : Prop :=
  op act = MOVE tg ->
  exists m b', cur act = Some m /\ bch !! j = Some b'
               /\ truthy (key m) = true
               /\ prop_name (key m) = prop_name (key b')
               /\ alternate b' = Some m.

(** The action list is aligned with the new children up to [bHead] and
    its MOVEs are as described. *)
Definition moves_ok (tg : TagTable) (s : DiffSt) : Prop :=
  0 <= bHead s
  /\ length (actions s) = Z.to_nat (bHead s)
  /\ forall j act, actions s !! j = Some act -> move_ok tg (bCh s) j act.

(** What a removal that went through has done, for the top-most host
    fibers [tops], all fibers [all] and the fibers [below] a host fiber of
    the subtrees removed. *)
Definition removal_post (flag : bool) (tops all below : list Fiber)
  (evs : list Event) : Prop :=
  detached evs = (if flag then omap node tops else [])
  /\ (forall g e, g ∈ all -> isComp g = true ->
                  e ∈ run_cleanups (hooks g) -> e ∈ evs)
  /\ (forall g r, g ∈ below -> ref g = Some r -> ERefer r None ∈ evs).

(** The removal of [f] goes through, with that outcome, whenever the
    fibers it has to detach are bound to a host node. *)
Definition removal_ok (f : Fiber) : Prop :=
  forall flag,
    (flag = true -> Forall (fun g => is_Some (node g)) (top_hosts f)) ->
    exists evs, removeElement f flag = Ok evs
                /\ removal_post flag (top_hosts f) (subtree f) (below_host f) evs.

(** The log of the second world extends the log of the first. *)
Definition log_ext {H : Type} (w w' : World (H:=H)) : Prop :=
  exists evs, w_log w' = w_log w ++ evs.

(** ** What [diff] does at each position of the new list *)

(** How the new fiber [x] and its action came about: [x] was found new and
    is inserted as it is, before an old fiber or at the end; or it was
    paired with an old fiber [m], cloned from it, and is updated in place
    or moved before an old fiber. *)
Definition justified (tg : TagTable) (a : list Fiber) (x x' : Fiber)
  (act : Action) : Prop :=
  (op act = INSERT tg /\ cur act = Some x /\ x' = x
   /\ match aref act with Some r => r ∈ a | None => True end)
  \/ (exists m, m ∈ a /\ x' = clone m x
        /\ ((act = update_action tg /\ same m x = true)
            \/ (exists r, act = mkAction (MOVE tg) (Some m) (Some r)
                          /\ r ∈ a))).

(** The state of [diff] between two turns of any of its loops, for the old
    list [a] and the new list [b]: the actions collected so far belong to
    the positions before [bHead], the buffered ones to the positions after
    [bTail], and the fibers in between are untouched. *)
Definition positions_ok (tg : TagTable) (a b : list Fiber) (s : DiffSt)
  : Prop :=
  0 <= bHead s /\ bHead s <= bTail s + 1 /\ bTail s < Z.of_nat (length b)
  /\ length (bCh s) = length b
  /\ length (actions s) = Z.to_nat (bHead s)
  /\ Z.of_nat (length (temp s)) = Z.of_nat (length b) - 1 - bTail s
  /\ (forall i m, idx (aCh s) i = Some (Some m) -> m ∈ a)
  /\ (forall j x, (j < Z.to_nat (bHead s))%nat -> b !! j = Some x ->
        exists x' act, bCh s !! j = Some x' /\ actions s !! j = Some act
                       /\ justified tg a x x' act)
  /\ (forall j, (Z.to_nat (bHead s) <= j)%nat -> Z.of_nat j <= bTail s ->
        bCh s !! j = b !! j)
  /\ (forall t act, temp s !! t = Some act ->
        exists x x', b !! (length b - 1 - t)%nat = Some x
                     /\ bCh s !! (length b - 1 - t)%nat = Some x'
                     /\ justified tg a x x' act).

(** ** What [diff] removes *)

(** The old fibers still in [aCh] sit at their own index, and the calls
    made so far are the removals of some of the old fibers that [aHead]
    has passed, in the order of the old list. *)
Definition removed_ok (a : list Fiber) (s : DiffSt) : Prop :=
  0 <= aHead s
  /\ (forall i m, idx (aCh s) i = Some (Some m) -> a !! Z.to_nat i = Some m)
  /\ exists rem, rem `sublist_of` take (Z.to_nat (aHead s)) a
                 /\ remove_all true rem = Ok (dlog s).

(** ** Refs set to null *)

(** One call [ref(null)] (or [ref.current = null]) for every fiber of the
    list that has a ref. *)
Definition null_refs (gs : list Fiber) : list Event :=
  (fun r => ERefer r None) <$> omap ref gs.

(** ** The order of the children that [diff] and [commit] produce *)

(** The property name under which the key of a fiber is looked up. *)
Definition name_of (x : Fiber) : string := prop_name (key x).

(** The name of the host node a fiber of the new list stands for: every
    node is named by the fiber it was created for, so a fiber cloned from
    an old one stands for the node of that old fiber. *)
Definition owner (x : Fiber) : nat :=
  match alternate x with
  | Some m => fid m
  | None => fid x
  end.

(** The new fiber [y] once it is paired with the old fiber of the same
    key, if there is one. *)
Definition pair_up (a : list Fiber) (y : Fiber) : Fiber :=
  match list_find (fun x => name_of x = name_of y) a with
  | Some (_, x) => clone x y
  | None => y
  end.

(** What the [insertBefore] call that [commit] makes for an action does
    to the list of the parent's children: nothing for an UPDATE; for an
    INSERT or a MOVE the node of [cur] is taken out of the list, should it
    be there, and put before the node of [ref], or at the end.  The call
    throws when the anchor is not a child. *)
Definition play_action (tg : TagTable) (l : list nat) (act : Action)
  : Res (list nat) :=
  if has_flag (op act) (INSERT tg) || has_flag (op act) (MOVE tg) then
    match cur act with
    | Some c =>
        let anchor := fid <$> aref act in
        if match anchor with
           | Some r => bool_decide (r ∈ l)
           | None => true
           end
        then
          let anchor' := if bool_decide (anchor = Some (fid c))
                         then next_of (fid c) l else anchor in
          Ok (insert_before [fid c] anchor' (remove_nat (fid c) l))
        else Throw
    | None => Throw
    end
  else Ok l.

(** The actions of the children, committed in the order of the list. *)
Definition play (tg : TagTable) (l : list nat) (acts : list Action)
  : Res (list nat) :=
  foldl (fun (acc : Res (list nat)) act =>
           l' <-- acc ;; play_action tg l' act) (Ok l) acts.

(** Children with keys: every key is truthy, no two fibers have keys with
    the same property name, and no key is named like a member of
    [Object.prototype]. *)
Definition keyed (l : list Fiber) : Prop :=
  NoDup (name_of <$> l)
  /\ Forall (fun x => truthy (key x) = true
                      /\ is_proto_name (name_of x) = false) l.

(** The old fiber [x] behind a slot of [aCh]: the slot still holds [x], or
    it was emptied when [x] was moved to a new fiber already passed. *)
Definition cell_of (b0 : list Fiber) (c : option Fiber) (x : Fiber) : Prop :=
  c = Some x \/ (c = None /\ name_of x ∈ name_of <$> b0).

(** Where [diff] stands.  The old array is [apre], then the slots [L] of
    the old fibers [L0] still to be looked at, then the old fibers [Tl]
    matched from the tail; [a0] are the old fibers passed.  The new list
    is the fibers [b0] passed, the fibers [Bm] still to be placed and the
    fibers [bt] matched from the tail.  Played on the old children that
    stay, the actions collected so far give the new fibers passed, then
    the old fibers that stay and are still to be looked at, then the
    tail. *)
Record order_inv (tg : TagTable) (a b : list Fiber) (s : DiffSt)
  (apre L : list (option Fiber)) (a0 L0 Tl b0 Bm bt : list Fiber) : Prop := {
  oi_aCh : aCh s = apre ++ L ++ (Some <$> Tl);
  oi_a : a = a0 ++ L0 ++ Tl;
  oi_apre : length apre = length a0;
  oi_aHead : aHead s = Z.of_nat (length a0);
  oi_aTail : aTail s = Z.of_nat (length a0 + length L0) - 1;
  oi_cells : Forall2 (cell_of b0) L L0;
  oi_bCh : bCh s = (pair_up a <$> b0) ++ Bm ++ (pair_up a <$> bt);
  oi_b : b = b0 ++ Bm ++ bt;
  oi_bHead : bHead s = Z.of_nat (length b0);
  oi_bTail : bTail s = Z.of_nat (length b0 + length Bm) - 1;
  oi_tail : name_of <$> Tl = name_of <$> bt;
  oi_temp : temp s = replicate (length bt) (update_action tg);
  oi_log : remove_all true
             (filter (fun x => name_of x ∉ name_of <$> b) a0)
           = Ok (dlog s);
  oi_play : play tg (fid <$> filter (fun x => name_of x ∈ name_of <$> b) a)
                 (actions s)
            = Ok ((owner <$> (pair_up a <$> b0))
                  ++ (fid <$> filter (fun x => name_of x ∈ name_of <$> b)
                                     (omap id L))
                  ++ (fid <$> Tl));
  oi_nodup : NoDup ((owner <$> (pair_up a <$> b0))
                    ++ (fid <$> filter (fun x => name_of x ∈ name_of <$> b)
                                       (omap id L))
                    ++ (fid <$> Tl));
  oi_live : forall x, x ∈ omap id L -> name_of x ∉ name_of <$> (b0 ++ bt);
  oi_passed : forall x, x ∈ a0 -> name_of x ∉ name_of <$> Bm
}.

(** The index maps of step 3, for the slots and the new fibers still to
    be looked at. *)
Record maps_inv (a b : list Fiber) (s : DiffSt)
  (L : list (option Fiber)) (a0 Bm : list Fiber) : Prop := {
  mi_old : forall i x, L !! i = Some (Some x) ->
             aMap s !! name_of x = Some (Z.of_nat (length a0 + i));
  mi_old_sound : forall n i, aMap s !! n = Some i ->
                   0 <= i /\ exists x, a !! Z.to_nat i = Some x
                                       /\ name_of x = n;
  mi_new : forall y, y ∈ Bm -> is_Some (bMap s !! name_of y);
  mi_new_sound : forall n j, bMap s !! n = Some j -> n ∈ name_of <$> b
}.

(** ** Trees with nothing left to commit *)

(** No fiber that [commit] (or, with [via_sibling], [commitSibling])
    reaches from [f] carries an action: the walk is the one of
    [commit_go], passing over the fibers flagged [memo] that are entered
    through [commitSibling]. *)
Fixpoint settled (via_sibling : bool) (f : Fiber) : bool :=
  if via_sibling && memo f then
    match sibling f with Some s => settled true s | None => true end
  else
    match action f with None => true | Some _ => false end
    && match child f with Some c => settled true c | None => true end
    && match sibling f with Some s => settled true s | None => true end.

(** Calls of a ref among the events. *)
Definition is_refer (e : Event) : bool :=
  match e with ERefer _ _ => true | _ => false end.

(** ** Invariants of the scheduler *)

(** Every queued work item has a callback to call. *)
Definition callable (s : Sched) : Prop :=
  Forall (fun t => is_Some (callback t)) (queue s).

(** The dispatches requested from the host so far, less the callbacks
    still waiting in [transitions]. *)
Definition dispatch_surplus (s : Sched) : Z :=
  Z.of_nat (length (posted s)) - Z.of_nat (length (transitions s)).

(** A clock that gives 3 ms more at every reading, and callbacks that
    finish at once, the reconciliation of fiber 0 scheduling a side
    effect. *)
Definition sample_now (n : nat) : Z := 3 * Z.of_nat n.

Definition sample_run (cb : TaskCb) (deadline : Z) (reads : nat) (rt : unit)
  : option (option TaskCb * list Call * nat * unit) :=
  match cb with
  | CbReconcile O => Some (None, [CSchedule (CbSide 0)], 1%nat, tt)
  | _ => Some (None, [], 0%nat, tt)
  end.

(** Three pieces of work queued before the first flush runs. *)
Definition sample_flush_st : FlushSt unit :=
  mkFlushSt
    (schedule (CbReconcile 2)
       (schedule (CbReconcile 1)
          (schedule (CbReconcile 0) (sched_init true true))))
    0 0 tt.

(** ** The walk to the next fiber *)

(** The sibling of the first fiber of the path that has one: [path] is a
    fiber followed by its parent, the parent of its parent, and so on. *)
Fixpoint next_sibling (path : list Fiber) : option Fiber :=
  match path with
  | [] => None
  | g :: up =>
      match sibling g with
      | Some s => Some s
      | None => next_sibling up
      end
  end.

(** ** Children that can be reconciled *)

(** A value that [flat] lets through as it is: an object that is not an
    array, such as a vnode or a text node. *)
Definition renderable (v : Hts.FreNode) : bool :=
  match v with
  | Hts.NText _ | Hts.NObj _ => true
  | _ => false
  end.

(** * Properties *)

(** ** Induction on the tree of kids *)

Lemma kid_size_kids f ks k :
  kids f = Some ks -> k ∈ ks -> (kid_size k < kid_size f)%nat.
Proof.
  intros Ek Hin. destruct f; simpl in *. subst.
  induction Hin as [k l|k k' l Hin IH]; simpl; lia.
Qed.

Lemma Fiber_kids_ind (P : Fiber -> Prop) :
  (forall f, (forall ks k, kids f = Some ks -> k ∈ ks -> P k) -> P f) ->
  forall f, P f.
Proof.
  intros Hstep f.
  assert (Hn : forall n g, (kid_size g < n)%nat -> P g).
  { induction n as [|n IH]; intros g Hg; [lia|].
    apply Hstep. intros ks k Ek Hin. apply IH.
    pose proof (kid_size_kids g ks k Ek Hin). lia. }
  apply (Hn (S (kid_size f))). lia.
Qed.

Lemma removeElement_eq f flag :
  removeElement f flag
  = if isComp f then
      r <-- remove_kids flag (kids f) ;; Ok (run_cleanups (hooks f) ++ r)
    else if flag then
      match node f with
      | Some n =>
          r <-- remove_kids false (kids f) ;;
          Ok (ERemoveChild n :: kidsRefer (kids f) ++ refer (ref f) None ++ r)
      | None => Throw
      end
    else
      r <-- remove_kids false (kids f) ;;
      Ok (kidsRefer (kids f) ++ refer (ref f) None ++ r).
Proof. destruct f; reflexivity. Qed.

Lemma remove_all_no_fuel flag ks :
  (forall k, k ∈ ks -> forall fl, removeElement k fl ≠ OutOfFuel) ->
  remove_all flag ks ≠ OutOfFuel.
Proof.
  induction ks as [|k ks IH]; intros Hk; simpl; [discriminate|].
  pose proof (Hk k (list_elem_of_here _ _) flag) as H1.
  destruct (removeElement k flag); simpl; try done.
  assert (H2 : remove_all flag ks ≠ OutOfFuel).
  { apply IH. intros k' Hin. apply Hk. by apply list_elem_of_further. }
  destruct (remove_all flag ks); simpl; done.
Qed.

(** [removeElement] is a structural recursion: it needs no loop bound. *)
Lemma removeElement_no_fuel f : forall flag, removeElement f flag ≠ OutOfFuel.
Proof.
  induction f as [f IH] using Fiber_kids_ind. intros flag.
  rewrite removeElement_eq.
  assert (Hr : forall fl, remove_kids fl (kids f) ≠ OutOfFuel).
  { intros fl. destruct (kids f) as [ks|] eqn:Ek; [|discriminate].
    apply remove_all_no_fuel. intros k Hin. by apply (IH ks). }
  destruct (isComp f).
  - specialize (Hr flag). destruct (remove_kids flag (kids f)); simpl; done.
  - destruct flag.
    + destruct (node f); [|discriminate].
      specialize (Hr false). destruct (remove_kids false (kids f)); simpl; done.
    + specialize (Hr false). destruct (remove_kids false (kids f)); simpl; done.
Qed.

(** ** The update request *)

(** C7: [update] on a dirty fiber changes neither the fiber nor the
    scheduler; on a fiber that is not dirty it sets the flag and appends
    exactly one work item; a second call right after the first changes
    nothing, so the two calls enqueue one item. *)
Theorem update_idempotent (f : Fiber) (s : Sched) :
  (if dirty f
   then update f s = (f, s)
   else (update f s).1 = set_dirty true f
        /\ dirty (update f s).1 = true
        /\ queue (update f s).2
           = queue s ++ [{| callback := Some (CbReconcile (fid f)) |}])
  /\ update (update f s).1 (update f s).2 = update f s.
Proof.
  unfold update. destruct (dirty f) eqn:E; simpl.
  - rewrite E. simpl. split; reflexivity.
  - repeat split; try reflexivity.
    unfold schedule, startTransition. simpl.
    destruct (negb _); reflexivity.
Qed.

(** ** The deferred-callback queue *)

(** C8, as amended: every push onto [transitions] posts one dispatch on the
    current channel (the truth test is on the new length, which is never
    zero), and a dispatch calls exactly the oldest queued callback and
    removes only it; on an empty queue it calls nothing. *)
Theorem startTransition_dispatch (cb t : Trans) (s : Sched)
  (q : list Task) (ts : list Trans) (tr : Channel) (p : list Channel) :
  startTransition cb s
  = mkSched (queue s) (transitions s ++ [cb]) (translate s)
            (posted s ++ [translate s])
  /\ dispatch (mkSched q (t :: ts) tr p) = ([t], mkSched q ts tr p)
  /\ dispatch (mkSched q [] tr p) = ([], mkSched q [] tr p).
Proof.
  split; [|split; reflexivity].
  unfold startTransition.
  replace (Z.of_nat (length (transitions s ++ [cb])) =? 0) with false;
    [reflexivity|].
  symmetry. apply Z.eqb_neq. rewrite length_app. simpl. lia.
Qed.

(** C8, as stated, fails: the second push of a tick posts a second
    dispatch. *)
Lemma startTransition_second_push :
  let s1 := startTransition (TUser 1) (sched_init true true) in
  let s2 := startTransition (TUser 2) s1 in
  posted s1 = [Microtask]
  /\ posted s2 = [Microtask; Microtask]
  /\ ~ (posted s2 = posted s1).
Proof. repeat split; auto; discriminate. Qed.

(** ** The log only grows *)

Section CaptureFacts.
Variable tg : TagTable.
Variable comps : nat -> Comp.
Variable effect_result : nat -> option nat.
Context {H : Type} `{Host H}.

Lemma log_ext_refl (w : World (H:=H)) : log_ext w w.
Proof. exists []. by rewrite app_nil_r. Qed.

Lemma log_ext_trans (w1 w2 w3 : World (H:=H)) :
  log_ext w1 w2 -> log_ext w2 w3 -> log_ext w1 w3.
Proof.
  intros [e1 E1] [e2 E2]. exists (e1 ++ e2).
  by rewrite E2, E1, app_assoc.
Qed.

Lemma bubble_log f (w : World (H:=H)) f' w' :
  bubble effect_result f w = Ok (f', w') -> log_ext w w'.
Proof.
  unfold bubble. destruct (isComp f); [|intros [= <- <-]; apply log_ext_refl].
  destruct (hooks f) as [hk|]; [|intros [= <- <-]; apply log_ext_refl].
  destruct (side _ _ _) as [r| |]; simpl; try discriminate.
  intros [= <- <-]. by exists r.1.
Qed.

Lemma getSibling_log parents : forall f (w : World (H:=H)) p w',
  getSibling tg effect_result f parents w = Ok (p, w') -> log_ext w w'.
Proof.
  induction parents as [|q ps IH]; intros f w p w'; simpl;
    destruct (bubble effect_result f w) as [[f1 w1]| |] eqn:Eb;
    simpl; try discriminate;
    apply bubble_log in Eb.
  - destruct (dirty f1).
    + destruct (commit _ _ _ _) as [[[h' ev] f3]| |]; simpl; try discriminate.
      intros [= <- <-]. eapply log_ext_trans; [exact Eb|]. by exists ev.
    + destruct (sibling f1); intros [= <- <-]; exact Eb.
  - destruct (dirty f1).
    + destruct (commit _ _ _ _) as [[[h' ev] f3]| |]; simpl; try discriminate.
      intros [= <- <-]. eapply log_ext_trans; [exact Eb|]. by exists ev.
    + destruct (sibling f1).
      * intros [= <- <-]; exact Eb.
      * intros E. eapply log_ext_trans; [exact Eb|]. eapply IH, E.
Qed.

Lemma reconcileChidren_log f ch (w : World (H:=H)) f' w' :
  reconcileChidren tg f ch w = Ok (f', w') -> log_ext w w'.
Proof.
  unfold reconcileChidren.
  destruct (diff _ _ _) as [d| |]; simpl; try discriminate.
  destruct (apply_all _ _) as [h'| |]; simpl; try discriminate.
  intros [= <- <-]. by exists (out_log d).
Qed.
End CaptureFacts.

(** ** The default comparator *)

(** Props with the same entries are reported unchanged. *)
Lemma shouldUpdate_same_props (p : Props) : shouldUpdate (Some p) p = Ok false.
Proof.
  unfold shouldUpdate. f_equal. apply orb_false_iff. split.
  - apply not_true_is_false. intros E. apply existsb_exists in E as ([k v] & Hin & E).
    apply list_elem_of_In, elem_of_map_to_list in Hin.
    unfold has_prop in E. simpl in E. rewrite Hin in E.
    rewrite bool_decide_eq_true_2 in E by (by eexists). discriminate.
  - apply not_true_is_false. intros E. apply existsb_exists in E as ([k v] & Hin & E).
    apply list_elem_of_In, elem_of_map_to_list in Hin.
    unfold get_prop, strict_ne in E. simpl in E. rewrite Hin in E.
    rewrite bool_decide_eq_true_2 in E by done. discriminate.
Qed.

(** ** The memo check on a first render *)

Section FirstRender.
Variable tg : TagTable.
Variable comps : nat -> Comp.
Variable effect_result : nat -> option nat.
Context {H : Type} `{Host H}.

Lemma updateHook_log f c w f' w' :
  ftype f = TComp c ->
  updateHook tg comps f w = Ok (f', w') ->
  exists post, w_log w' = w_log w ++ ERender c (props f) :: post.
Proof.
  intros Et. unfold updateHook. rewrite Et.
  assert (Hp : forall f1 h1,
    (match node f with
     | Some _ => (f, w_host w)
     | None => let '(n, h') := h_fragment (w_host w) f in
               (set_node (Some n) f, h')
     end) = (f1, h1) -> props f1 = props f).
  { intros f1 h1. destruct (node f).
    - by intros [= <- <-].
    - destruct (h_fragment _ _). by intros [= <- <-]. }
  destruct (match node f with Some _ => _ | None => _ end) as [f1 h1] eqn:E1.
  specialize (Hp _ _ eq_refl). rewrite Hp.
  destruct (crender _ _ _) as [out hk].
  destruct out; intros E; apply reconcileChidren_log in E;
    destruct E as [post E]; simpl in E; rewrite E, <- app_assoc; simpl;
    by eexists.
Qed.

(** C10: when the alternate is absent or has no props, [isMemo] is false
    whatever the component's memo flag and comparator are, and [capture]
    then calls the component function: a capture that returns has logged
    the call first. *)
Theorem isMemo_first_render (f : Fiber) (c : nat) (parents : list Fiber)
  (w : World (H:=H)) :
  ftype f = TComp c ->
  alternate f ≫= props = None ->
  isMemo comps f = Ok false
  /\ isMemo comps (set_isComp true f) = Ok false
  /\ forall p' w',
       capture tg comps effect_result f parents w = Ok (p', w') ->
       exists post, w_log w' = w_log w ++ ERender c (props f) :: post.
Proof.
  intros Et Ea.
  assert (Hm : forall g, alternate g = alternate f -> isMemo comps g = Ok false).
  { intros g Eg. unfold isMemo. rewrite Eg.
    destruct (alternate f) as [alt|]; [|reflexivity].
    simpl in Ea. by rewrite Ea. }
  split; [by apply Hm|]. split; [by apply Hm|].
  intros p' w'. unfold capture. rewrite Et. simpl.
  rewrite Hm by reflexivity. simpl.
  set (f1 := if memo f then _ else _).
  assert (Et1 : ftype f1 = TComp c) by (subst f1; destruct (memo f); exact Et).
  assert (Ep1 : props f1 = props f) by (subst f1; by destruct (memo f)).
  destruct (updateHook tg comps f1 w) as [[f3 w3]| |] eqn:Eu;
    simpl; try discriminate.
  apply (updateHook_log _ _ _ _ _ Et1) in Eu. destruct Eu as [post Eu].
  rewrite Ep1 in Eu.
  destruct (child f3).
  - intros [= <- <-]. by exists post.
  - intros Eg. apply getSibling_log in Eg. destruct Eg as [e2 Eg].
    exists (post ++ e2). rewrite Eg, Eu, <- app_assoc. reflexivity.
Qed.
End FirstRender.

(** ** The keyed diff *)

Section DiffFacts.
Variable tg : TagTable.

Lemma idx_nat {A} (l : list A) (i : nat) : idx l (Z.of_nat i) = l !! i.
Proof.
  unfold idx. destruct (Z.ltb_spec (Z.of_nat i) 0); [lia|].
  by rewrite Nat2Z.id.
Qed.

Lemma idx_neg {A} (l : list A) (i : Z) : i < 0 -> idx l i = None.
Proof. unfold idx. intros. destruct (Z.ltb_spec i 0); [done|lia]. Qed.

Lemma set_idx_nat {A} (l : list A) (i : nat) x :
  set_idx l (Z.of_nat i) x = <[i := x]> l.
Proof. unfold set_idx. by rewrite Nat2Z.id. Qed.

(** Step 5 appends the buffered tail actions in reverse. *)
Lemma flush_temp_spec n : forall tmp acts,
  (n <= length tmp)%nat ->
  flush_temp n tmp acts = acts ++ reverse (take n tmp).
Proof.
  induction n as [|i IH]; intros tmp acts Hn; simpl.
  - by rewrite take_0, app_nil_r.
  - destruct (tmp !! i) as [t|] eqn:Et.
    + rewrite IH by lia. erewrite take_S_r by exact Et.
      rewrite reverse_snoc, <- app_assoc. reflexivity.
    + apply lookup_ge_None in Et. lia.
Qed.

Lemma flush_temp_all tmp acts :
  flush_temp (length tmp) tmp acts = acts ++ reverse tmp.
Proof. rewrite flush_temp_spec by lia. by rewrite firstn_all. Qed.

(** When the lists agree pairwise, step 1 consumes them entirely. *)
Lemma tail_loop_all (a : list Fiber) am bm acts lg :
  forall (k fuel : nat) (bcur : list Fiber) tmp,
  (k <= fuel)%nat -> (k <= length a)%nat -> length bcur = length a ->
  (forall i x y, (i < k)%nat -> a !! i = Some x -> bcur !! i = Some y ->
                 same x y = true) ->
  tail_loop tg fuel
    (mkDiffSt (Some <$> a) bcur 0 0 (Z.of_nat k - 1) (Z.of_nat k - 1)
              am bm tmp acts lg)
  = Ok (mkDiffSt (Some <$> a)
          (zip_with clone (take k a) (take k bcur) ++ drop k bcur)
          0 0 (-1) (-1) am bm
          (tmp ++ replicate k (update_action tg)) acts lg).
Proof.
  induction k as [|k IH]; intros fuel bcur tmp Hf Hk Hl Hs.
  - destruct fuel; simpl; rewrite ?take_0, ?drop_0, ?app_nil_r; reflexivity.
  - destruct fuel as [|fuel]; [lia|].
    cbn [tail_loop aHead aTail bHead bTail aCh bCh].
    replace (Z.of_nat (S k) - 1) with (Z.of_nat k) by lia.
    destruct (Z.leb_spec 0 (Z.of_nat k)); [|lia]. simpl andb. cbv iota.
    rewrite !idx_nat, list_lookup_fmap.
    destruct (a !! k) as [x|] eqn:Ex;
      [|apply lookup_ge_None in Ex; lia].
    destruct (bcur !! k) as [y|] eqn:Ey;
      [|apply lookup_ge_None in Ey; lia].
    simpl. rewrite (Hs k x y) by (auto; lia). simpl.
    rewrite set_idx_nat.
    replace (Z.of_nat k - 1) with (Z.of_nat k - 1) by lia.
    cbn [temp actions aMap bMap dlog].
    rewrite IH; try lia.
    + f_equal. f_equal.
      * rewrite take_insert_ge by lia. rewrite drop_insert_ge by lia.
        rewrite Nat.sub_diag.
        rewrite (drop_S _ _ _ Ey). simpl.
        rewrite (take_S_r _ _ _ Ex), (take_S_r _ _ _ Ey).
        rewrite zip_with_app by (rewrite !length_take; lia).
        simpl. by rewrite <- app_assoc.
      * rewrite <- app_assoc. reflexivity.
    + by rewrite length_insert.
    + intros i x' y' Hi Hx Hy. apply (Hs i); auto.
      by rewrite list_lookup_insert_ne in Hy by lia.
Qed.



Lemma same_true x y :
  same x y = true -> ftype x = ftype y /\ key x = key y.
Proof.
  unfold same. intros E. apply andb_true_iff in E as [E1 E2].
  split; [by apply bool_decide_eq_true in E1|by apply bool_decide_eq_true in E2].
Qed.

Lemma same_false_key x y : key x ≠ key y -> same x y = false.
Proof.
  intros E. unfold same. rewrite (bool_decide_eq_false_2 (key x = key y)) by done.
  apply andb_false_r.
Qed.

Lemma map_get_set_eq m k i :
  prop_name k ≠ "__proto__"%string -> map_get (map_set m k i) k = FIdx i.
Proof.
  intros E. unfold map_get, map_set.
  rewrite bool_decide_eq_false_2 by done. by rewrite lookup_insert_eq.
Qed.

Lemma map_set_keeps m k k' i :
  is_nullish (map_get m k) = false ->
  is_nullish (map_get (map_set m k' i) k) = false.
Proof.
  unfold map_get, map_set. destruct (bool_decide _); [done|].
  destruct (decide (prop_name k' = prop_name k)) as [->|Hne].
  - by rewrite lookup_insert_eq.
  - by rewrite lookup_insert_ne.
Qed.

Lemma map_set_found m k i :
  is_nullish (map_get (map_set m k i) k) = false.
Proof.
  unfold map_get, map_set.
  destruct (bool_decide (prop_name k = "__proto__"%string)) eqn:E.
  - apply bool_decide_eq_true in E. rewrite E.
    destruct (m !! "__proto__"%string); reflexivity.
  - by rewrite lookup_insert_eq.
Qed.

(** *** One turn of each loop, by case *)

Lemma tail_loop_stop fuel s a b :
  (aHead s <=? aTail s) && (bHead s <=? bTail s) = true ->
  idx (aCh s) (aTail s) = Some (Some a) ->
  idx (bCh s) (bTail s) = Some b ->
  same a b = false ->
  tail_loop tg (S fuel) s = Ok s.
Proof. intros Hc Ha Hb Hs. simpl. by rewrite Hc, Ha, Hb, Hs. Qed.

Lemma head_loop_stop fuel s a b :
  (aHead s <=? aTail s) && (bHead s <=? bTail s) = true ->
  idx (aCh s) (aHead s) = Some (Some a) ->
  idx (bCh s) (bHead s) = Some b ->
  same a b = false ->
  head_loop tg (S fuel) s = Ok s.
Proof. intros Hc Ha Hb Hs. simpl. by rewrite Hc, Ha, Hb, Hs. Qed.

Lemma head_loop_go fuel s a b :
  (aHead s <=? aTail s) && (bHead s <=? bTail s) = true ->
  idx (aCh s) (aHead s) = Some (Some a) ->
  idx (bCh s) (bHead s) = Some b ->
  same a b = true ->
  head_loop tg (S fuel) s
  = head_loop tg fuel
      (mkDiffSt (aCh s) (set_idx (bCh s) (bHead s) (clone a b))
                (aHead s + 1) (bHead s + 1) (aTail s) (bTail s)
                (aMap s) (bMap s) (temp s)
                (actions s ++ [update_action tg]) (dlog s)).
Proof. intros Hc Ha Hb Hs. simpl. by rewrite Hc, Ha, Hb, Hs. Qed.

Lemma head_loop_done fuel s :
  (aHead s <=? aTail s) && (bHead s <=? bTail s) = false ->
  head_loop tg fuel s = Ok s.
Proof. intros Hc. destruct fuel; simpl; by rewrite Hc. Qed.

Lemma tail_loop_done fuel s :
  (aHead s <=? aTail s) && (bHead s <=? bTail s) = false ->
  tail_loop tg fuel s = Ok s.
Proof. intros Hc. destruct fuel; simpl; by rewrite Hc. Qed.

Lemma mid_loop_go fuel s :
  (aHead s <=? aTail s) || (bHead s <=? bTail s) = true ->
  mid_loop tg (S fuel) s = (s' <-- mid_step tg s ;; mid_loop tg fuel s').
Proof. intros Hc. simpl. by rewrite Hc. Qed.

Lemma mid_loop_done fuel s :
  (aHead s <=? aTail s) || (bHead s <=? bTail s) = false ->
  mid_loop tg fuel s = Ok s.
Proof. intros Hc. destruct fuel; simpl; by rewrite Hc. Qed.

Lemma mid_step_null s :
  idx (aCh s) (aHead s) = Some None ->
  mid_step tg s
  = Ok (mkDiffSt (aCh s) (bCh s) (aHead s + 1) (bHead s) (aTail s)
                 (bTail s) (aMap s) (bMap s) (temp s) (actions s) (dlog s)).
Proof. intros Ha. unfold mid_step. by rewrite Ha. Qed.

Lemma mid_step_append s :
  idx (aCh s) (aHead s) ≠ Some None ->
  (bTail s + 1 <=? bHead s) = false ->
  (aTail s + 1 <=? aHead s) = true ->
  mid_step tg s
  = Ok (st_insert tg s (idx (bCh s) (bHead s))
                  (default None (idx (aCh s) (aHead s)))).
Proof.
  intros Ha Hb Hc. unfold mid_step. rewrite Hb, Hc.
  destruct (idx (aCh s) (aHead s)) as [[x|]|]; done.
Qed.

Lemma mid_step_same s a b :
  idx (aCh s) (aHead s) = Some (Some a) ->
  idx (bCh s) (bHead s) = Some b ->
  (bTail s + 1 <=? bHead s) = false ->
  (aTail s + 1 <=? aHead s) = false ->
  same a b = true ->
  mid_step tg s
  = Ok (mkDiffSt (aCh s) (set_idx (bCh s) (bHead s) (clone a b))
                 (aHead s + 1) (bHead s + 1) (aTail s) (bTail s)
                 (aMap s) (bMap s) (temp s)
                 (actions s ++ [update_action tg]) (dlog s)).
Proof.
  intros Ha Hb H1 H2 Hs. unfold mid_step. by rewrite Ha, Hb, H1, H2, Hs.
Qed.

Lemma mid_step_move s a b i m :
  idx (aCh s) (aHead s) = Some (Some a) ->
  idx (bCh s) (bHead s) = Some b ->
  (bTail s + 1 <=? bHead s) = false ->
  (aTail s + 1 <=? aHead s) = false ->
  same a b = false ->
  is_nullish (map_get (bMap s) (key a)) = false ->
  map_get (aMap s) (key b) = FIdx i ->
  idx (aCh s) i = Some (Some m) ->
  mid_step tg s
  = Ok (mkDiffSt (set_idx (aCh s) i None)
                 (set_idx (bCh s) (bHead s) (clone m b))
                 (aHead s) (bHead s + 1) (aTail s) (bTail s)
                 (aMap s) (bMap s) (temp s)
                 (actions s ++ [mkAction (MOVE tg) (Some m) (Some a)])
                 (dlog s)).
Proof.
  intros Ha Hb H1 H2 Hs Hfb Hfa Hm. unfold mid_step.
  by rewrite Ha, Hb, H1, H2, Hs, Hfb, Hfa, Hm.
Qed.

Lemma mid_step_remove_rest s a :
  idx (aCh s) (aHead s) = Some (Some a) ->
  (bTail s + 1 <=? bHead s) = true ->
  mid_step tg s = st_remove s a.
Proof. intros Ha H1. unfold mid_step. by rewrite Ha, H1. Qed.

Lemma mid_step_remove s a b :
  idx (aCh s) (aHead s) = Some (Some a) ->
  idx (bCh s) (bHead s) = Some b ->
  (bTail s + 1 <=? bHead s) = false ->
  (aTail s + 1 <=? aHead s) = false ->
  same a b = false ->
  is_nullish (map_get (bMap s) (key a)) = true ->
  mid_step tg s = st_remove s a.
Proof.
  intros Ha Hb H1 H2 Hs Hfb. unfold mid_step.
  by rewrite Ha, Hb, H1, H2, Hs, Hfb.
Qed.

Lemma mid_step_insert s a b :
  idx (aCh s) (aHead s) = Some (Some a) ->
  idx (bCh s) (bHead s) = Some b ->
  (bTail s + 1 <=? bHead s) = false ->
  (aTail s + 1 <=? aHead s) = false ->
  same a b = false ->
  is_nullish (map_get (bMap s) (key a)) = false ->
  is_nullish (map_get (aMap s) (key b)) = true ->
  mid_step tg s = Ok (st_insert tg s (Some b) (Some a)).
Proof.
  intros Ha Hb H1 H2 Hs Hfb Hfa. unfold mid_step.
  by rewrite Ha, Hb, H1, H2, Hs, Hfb, Hfa.
Qed.


(** The diff of C4: old list [A], new list [A, B]. *)
Lemma diff_append (A A' B : Fiber) :
  same A A' = true -> same A B = false ->
  diff tg [A] [A'; B]
  = Ok (mkDiffOut [update_action tg; mkAction (INSERT tg) (Some B) None]
                  [clone A A'; B] [Some A] []).
Proof.
  intros HA HB. unfold diff, diff_fuel.
  rewrite (tail_loop_stop _ _ A B) by (reflexivity || exact HB).
  cbn [rbind].
  rewrite (head_loop_go _ _ A A') by (reflexivity || exact HA).
  rewrite head_loop_done by reflexivity.
  cbn [rbind aCh bCh aHead bHead aTail bTail temp actions dlog fmap
       list_fmap length Nat.add].
  unfold index_old, index_new, range.
  change (seqZ (0 + 1) (Z.of_nat 1 - 1 - (0 + 1) + 1)) with (@nil Z).
  change (seqZ (0 + 1) (Z.of_nat 2 - 1 - (0 + 1) + 1)) with [1].
  cbn [foldl rbind].
  change (idx (set_idx [A'; B] 0 (clone A A')) 1) with (Some B).
  cbn [rbind].
  set (bm := if truthy (key B) then _ else _). clearbody bm.
  rewrite mid_loop_go by reflexivity.
  rewrite mid_step_append by (reflexivity || discriminate).
  cbn [rbind].
  rewrite mid_loop_done by reflexivity.
  reflexivity.
Qed.

(** *** Accumulators and fuel *)

Lemma mid_step_frame acc s :
  mid_step tg (add_actions acc s) = rmap (add_actions acc) (mid_step tg s).
Proof.
  unfold mid_step, st_remove, st_insert, add_actions.
  cbn [aCh bCh aHead bHead aTail bTail aMap bMap temp actions dlog].
  repeat (case_match; cbn [rmap rbind]; try reflexivity);
    try (destruct (removeElement _ _); cbn [rmap rbind]; try reflexivity);
    unfold add_actions;
    cbn [aCh bCh aHead bHead aTail bTail aMap bMap temp actions dlog];
    rewrite ?app_assoc; reflexivity.
Qed.

Lemma mid_loop_frame fuel : forall acc s,
  mid_loop tg fuel (add_actions acc s)
  = rmap (add_actions acc) (mid_loop tg fuel s).
Proof.
  induction fuel as [|fuel IH]; intros acc s; simpl;
    destruct ((aHead s <=? aTail s) || (bHead s <=? bTail s)); try reflexivity.
  rewrite mid_step_frame.
  destruct (mid_step tg s); simpl; auto.
Qed.

Lemma tail_loop_actions fuel : forall s s',
  tail_loop tg fuel s = Ok s' -> actions s' = actions s.
Proof.
  induction fuel as [|fuel IH]; intros s s'; simpl;
    destruct ((aHead s <=? aTail s) && (bHead s <=? bTail s));
    try discriminate; try (by intros [= <-]).
  repeat (case_match; try discriminate); try (by intros [= <-]).
  intros E. by apply IH in E.
Qed.

Lemma head_loop_temp fuel : forall s s',
  head_loop tg fuel s = Ok s' -> temp s' = temp s.
Proof.
  induction fuel as [|fuel IH]; intros s s'; simpl;
    destruct ((aHead s <=? aTail s) && (bHead s <=? bTail s));
    try discriminate; try (by intros [= <-]).
  repeat (case_match; try discriminate); try (by intros [= <-]).
  intros E. by apply IH in E.
Qed.

Lemma mid_step_temp s s' : mid_step tg s = Ok s' -> temp s' = temp s.
Proof.
  unfold mid_step, st_remove, st_insert.
  repeat (case_match; cbn [rbind]; try discriminate);
    try (destruct (removeElement _ _); cbn [rbind]; try discriminate);
    by intros [= <-].
Qed.

Lemma mid_loop_temp fuel : forall s s',
  mid_loop tg fuel s = Ok s' -> temp s' = temp s.
Proof.
  induction fuel as [|fuel IH]; intros s s'; simpl;
    destruct ((aHead s <=? aTail s) || (bHead s <=? bTail s));
    try discriminate; try (by intros [= <-]).
  destruct (mid_step tg s) as [s1| |] eqn:E1; simpl; try discriminate.
  intros E. apply IH in E. apply mid_step_temp in E1. congruence.
Qed.

Lemma tail_loop_fuel fuel : forall s n m,
  bounded n m s ->
  (Z.to_nat (bTail s - bHead s + 1) <= fuel)%nat ->
  exists r, tail_loop tg fuel s = r /\ r ≠ OutOfFuel
            /\ forall s', r = Ok s' -> bounded n m s'.
Proof.
  induction fuel as [|fuel IH]; intros s n m Hb Hm; simpl.
  - destruct (Z.leb_spec (aHead s) (aTail s)), (Z.leb_spec (bHead s) (bTail s));
      simpl; try lia; (eexists; split; [reflexivity|split; [discriminate|]];
                       by intros s' [= <-]).
  - destruct ((aHead s <=? aTail s) && (bHead s <=? bTail s)) eqn:Ec.
    + apply andb_true_iff in Ec as [_ Ec]. apply Z.leb_le in Ec.
      destruct (idx (aCh s) (aTail s)) as [[a|]|];
        try (eexists; split; [reflexivity|split; [discriminate|]];
             intros s'; discriminate).
      destruct (idx (bCh s) (bTail s)) as [b|];
        try (eexists; split; [reflexivity|split; [discriminate|]];
             intros s'; discriminate).
      destruct (negb (same a b)).
      * eexists; split; [reflexivity|split; [discriminate|]].
        by intros s' [= <-].
      * apply IH.
        -- destruct Hb as (H1 & H2 & H3 & H4). repeat split; simpl; auto; lia.
        -- simpl. lia.
    + eexists; split; [reflexivity|split; [discriminate|]].
      by intros s' [= <-].
Qed.

Lemma head_loop_fuel fuel : forall s n m,
  bounded n m s ->
  (Z.to_nat (bTail s - bHead s + 1) <= fuel)%nat ->
  exists r, head_loop tg fuel s = r /\ r ≠ OutOfFuel
            /\ forall s', r = Ok s' -> bounded n m s'.
Proof.
  induction fuel as [|fuel IH]; intros s n m Hb Hm; simpl.
  - destruct (Z.leb_spec (aHead s) (aTail s)), (Z.leb_spec (bHead s) (bTail s));
      simpl; try lia; (eexists; split; [reflexivity|split; [discriminate|]];
                       by intros s' [= <-]).
  - destruct ((aHead s <=? aTail s) && (bHead s <=? bTail s)) eqn:Ec.
    + apply andb_true_iff in Ec as [_ Ec]. apply Z.leb_le in Ec.
      destruct (idx (aCh s) (aHead s)) as [[a|]|];
        try (eexists; split; [reflexivity|split; [discriminate|]];
             intros s'; discriminate).
      destruct (idx (bCh s) (bHead s)) as [b|];
        try (eexists; split; [reflexivity|split; [discriminate|]];
             intros s'; discriminate).
      destruct (negb (same a b)).
      * eexists; split; [reflexivity|split; [discriminate|]].
        by intros s' [= <-].
      * apply IH.
        -- destruct Hb as (H1 & H2 & H3 & H4). repeat split; simpl; auto; lia.
        -- simpl. lia.
    + eexists; split; [reflexivity|split; [discriminate|]].
      by intros s' [= <-].
Qed.

Lemma idx_Some_range {A} (l : list A) i x :
  idx l i = Some x -> 0 <= i < Z.of_nat (length l).
Proof.
  unfold idx. destruct (Z.ltb_spec i 0); [done|].
  intros E. apply lookup_lt_Some in E. lia.
Qed.

Lemma mid_step_measure s s' :
  mid_step tg s = Ok s' -> (mid_measure s' < mid_measure s)%nat.
Proof.
  unfold mid_step, st_remove, st_insert, mid_measure.
  repeat (case_match; cbn [rbind]; try discriminate);
    try (destruct (removeElement _ _); cbn [rbind]; try discriminate);
    intros [= <-];
    cbn [aCh bCh aHead bHead aTail bTail];
    unfold set_idx; rewrite ?length_insert;
    repeat match goal with
           | E : idx _ _ = Some _ |- _ => apply idx_Some_range in E
           | E : (_ <=? _) = false |- _ => apply Z.leb_gt in E
           | E : (_ <=? _) = true |- _ => apply Z.leb_le in E
           end; lia.
Qed.

Lemma mid_step_no_fuel s : mid_step tg s ≠ OutOfFuel.
Proof.
  unfold mid_step, st_remove, st_insert.
  repeat (case_match; cbn [rbind]; try discriminate);
    match goal with
    | |- context [removeElement ?f ?b] =>
        pose proof (removeElement_no_fuel f b);
        destruct (removeElement f b); cbn [rbind]; done
    end.
Qed.

Lemma mid_loop_fuel fuel : forall s,
  (mid_measure s < fuel)%nat -> mid_loop tg fuel s ≠ OutOfFuel.
Proof.
  induction fuel as [|fuel IH]; intros s Hm; [lia|]. simpl.
  destruct ((aHead s <=? aTail s) || (bHead s <=? bTail s)); [|discriminate].
  pose proof (mid_step_no_fuel s) as Hn.
  destruct (mid_step tg s) as [s1| |] eqn:E1; simpl; try done.
  apply IH. apply mid_step_measure in E1. lia.
Qed.

Lemma foldl_no_fuel {A B} (f : Res A -> B -> Res A) (l : list B) :
  (forall acc x, acc ≠ OutOfFuel -> f acc x ≠ OutOfFuel) ->
  forall acc, acc ≠ OutOfFuel -> foldl f acc l ≠ OutOfFuel.
Proof.
  intros Hf. induction l as [|x l IH]; intros acc Hacc; simpl; auto.
Qed.

Lemma index_old_no_fuel ch lo hi : index_old ch lo hi ≠ OutOfFuel.
Proof.
  unfold index_old. apply foldl_no_fuel; [|discriminate].
  intros [m| |] x Hacc; simpl; try done.
  repeat case_match; discriminate.
Qed.

Lemma index_new_no_fuel ch lo hi : index_new ch lo hi ≠ OutOfFuel.
Proof.
  unfold index_new. apply foldl_no_fuel; [|discriminate].
  intros [m| |] x Hacc; simpl; try done.
  repeat case_match; discriminate.
Qed.

Lemma clear_actions_id s : actions s = [] -> clear_actions s = s.
Proof. destruct s; simpl. by intros ->. Qed.

(** C3: [diff] always comes to an end (with a list or an exception),
    and the list it returns is the list of the head-match actions, then
    the actions of the middle resolution, then the tail-match actions in
    the reverse of the order in which they were collected. *)
Theorem diff_concatenation (a b : list Fiber) :
  diff tg a b ≠ OutOfFuel
  /\ rmap out_actions (diff tg a b) = diff_phases tg a b.
Proof.
  unfold diff, diff_phases, tail_phase, head_phase, middle_phase.
  fold (diff_init a b).
  assert (Hb0 : bounded (length a) (length b) (diff_init a b)).
  { unfold bounded, diff_init; simpl. rewrite length_fmap. lia. }
  destruct (tail_loop_fuel (diff_fuel a b) (diff_init a b) _ _ Hb0)
    as (r1 & E1 & Hn1 & Hb1).
  { unfold diff_fuel, diff_init; simpl. lia. }
  rewrite E1. destruct r1 as [s1| |]; [|split; [discriminate|reflexivity]|done].
  specialize (Hb1 _ eq_refl). cbn [rbind].
  apply tail_loop_actions in E1 as Ha1. simpl in Ha1.
  rewrite (clear_actions_id s1 Ha1).
  destruct (head_loop_fuel (diff_fuel a b) s1 _ _ Hb1) as (r2 & E2 & Hn2 & Hb2).
  { destruct Hb1 as (_ & _ & ? & ?). unfold diff_fuel. lia. }
  rewrite E2. destruct r2 as [s2| |]; [|split; [discriminate|reflexivity]|done].
  specialize (Hb2 _ eq_refl). cbn [rbind].
  apply head_loop_temp in E2 as Ht2.
  pose proof (index_old_no_fuel (aCh s2) (aHead s2) (aTail s2)) as Hio.
  destruct (index_old _ _ _) as [am| |];
    [|split; [discriminate|reflexivity]|done].
  cbn [rbind].
  pose proof (index_new_no_fuel (bCh s2) (bHead s2) (bTail s2)) as Hin.
  destruct (index_new _ _ _) as [bm| |];
    [|split; [discriminate|reflexivity]|done].
  cbn [rbind].
  replace (mkDiffSt (aCh s2) (bCh s2) (aHead s2) (bHead s2) (aTail s2)
                    (bTail s2) am bm (temp s2) (actions s2) (dlog s2))
    with (add_actions (actions s2) (with_maps am bm (clear_actions s2)))
    by (unfold add_actions, with_maps, clear_actions; simpl;
        by rewrite app_nil_r).
  rewrite mid_loop_frame.
  pose proof (mid_loop_fuel (diff_fuel a b)
                (with_maps am bm (clear_actions s2))) as Hml.
  destruct (mid_loop tg _ (with_maps am bm (clear_actions s2)))
    as [s3| |] eqn:E3; cbn [rmap rbind].
  - split; [discriminate|]. f_equal.
    cbn [out_actions add_actions temp actions].
    rewrite flush_temp_all. apply mid_loop_temp in E3. simpl in E3.
    rewrite E3, Ht2, <- app_assoc. reflexivity.
  - split; [discriminate|reflexivity].
  - exfalso. apply Hml; [|reflexivity].
    destruct Hb2 as (Hl & ? & ? & ?).
    unfold mid_measure, with_maps, clear_actions, diff_fuel; simpl.
    rewrite Hl. lia.
Qed.

End DiffFacts.

(** ** Removal of a subtree *)

Lemma subtree_eq f :
  subtree f = f :: (default [] (kids f) ≫= subtree).
Proof. destruct f as [? ? ? ? ? ? ? ? [ks|] ? ? ? ? ? ? ? ?]; reflexivity. Qed.

Lemma top_hosts_eq f :
  top_hosts f = if isComp f then default [] (kids f) ≫= top_hosts else [f].
Proof.
  destruct f as [? ? ? ? ? ? ? ? [ks|] ? ? ? [|] ? ? ? ?]; reflexivity.
Qed.

Lemma below_host_eq f :
  below_host f
  = if isComp f then default [] (kids f) ≫= below_host else subtree f.
Proof.
  destruct f as [? ? ? ? ? ? ? ? [ks|] ? ? ? [|] ? ? ? ?]; reflexivity.
Qed.

Lemma kidRefer_eq kid :
  kidRefer kid = kidsRefer (kids kid) ++ refer (ref kid) None.
Proof.
  destruct kid as [? ? ? ? ? ? ? ? [ks|] ? ? ? ? ? ? ? ?]; reflexivity.
Qed.

Lemma detached_app e1 e2 : detached (e1 ++ e2) = detached e1 ++ detached e2.
Proof. apply omap_app. Qed.

Lemma detached_refer r d : detached (refer r d) = [].
Proof. by destruct r. Qed.

Lemma detached_cleanups h : detached (run_cleanups h) = [].
Proof.
  destruct h as [h|]; [|done]. simpl.
  induction (hlist h) as [|e l IH]; simpl; [done|].
  rewrite detached_app, IH. by destruct (cleanup e).
Qed.

Lemma detached_kidRefer g : detached (kidRefer g) = [].
Proof.
  induction g as [g IH] using Fiber_kids_ind.
  rewrite kidRefer_eq, detached_app, detached_refer, app_nil_r.
  destruct (kids g) as [ks|] eqn:Ek; [|done]. simpl.
  specialize (IH ks). 
  assert (Hk : forall k, k ∈ ks -> detached (kidRefer k) = []) by auto.
  clear IH Ek. induction ks as [|k ks IHk]; simpl; [done|].
  rewrite detached_app, (Hk k) by constructor. simpl.
  apply IHk. intros k' Hin. apply Hk. by constructor.
Qed.

Lemma detached_kidsRefer ks : detached (kidsRefer ks) = [].
Proof.
  destruct ks as [l|]; [|done]. simpl.
  induction l as [|k l IH]; simpl; [done|].
  by rewrite detached_app, detached_kidRefer, IH.
Qed.

(** [kidsRefer] clears the ref of every fiber below the kids. *)
Lemma kidRefer_clears g : forall g' r,
  g' ∈ subtree g -> ref g' = Some r -> ERefer r None ∈ kidRefer g.
Proof.
  induction g as [g IH] using Fiber_kids_ind. intros g' r Hin Hr.
  rewrite kidRefer_eq. rewrite subtree_eq in Hin.
  apply elem_of_cons in Hin as [->|Hin].
  - apply elem_of_app. right. rewrite Hr. simpl. constructor.
  - apply elem_of_app. left.
    destruct (kids g) as [ks|] eqn:Ek; simpl in Hin;
      [|by apply elem_of_nil in Hin].
    apply list_elem_of_bind in Hin as (k & Hg' & Hk).
    simpl. apply list_elem_of_In, in_flat_map. exists k.
    split; [by apply list_elem_of_In|].
    apply list_elem_of_In. by eapply (IH ks).
Qed.

Lemma remove_all_ok flag ks :
  (forall k, k ∈ ks -> removal_ok k) ->
  (flag = true -> Forall (fun g => is_Some (node g)) (ks ≫= top_hosts)) ->
  exists evs, remove_all flag ks = Ok evs
              /\ removal_post flag (ks ≫= top_hosts) (ks ≫= subtree)
                              (ks ≫= below_host) evs.
Proof.
  induction ks as [|k ks IH]; intros Hk Hn.
  - exists []. split; [done|]. repeat split.
    + by destruct flag.
    + intros g e Hg. by apply elem_of_nil in Hg.
    + intros g r Hg. by apply elem_of_nil in Hg.
  - assert (Hn1 : flag = true -> Forall (fun g => is_Some (node g)) (top_hosts k)).
    { intros E. specialize (Hn E). change ((k :: ks) ≫= top_hosts)
        with (top_hosts k ++ (ks ≫= top_hosts)) in Hn.
      by apply Forall_app in Hn as [? ?]. }
    assert (Hn2 : flag = true ->
                  Forall (fun g => is_Some (node g)) (ks ≫= top_hosts)).
    { intros E. specialize (Hn E). change ((k :: ks) ≫= top_hosts)
        with (top_hosts k ++ (ks ≫= top_hosts)) in Hn.
      by apply Forall_app in Hn as [? ?]. }
    destruct (Hk k (list_elem_of_here _ _) flag Hn1) as (e1 & E1 & D1 & C1 & R1).
    destruct IH as (e2 & E2 & D2 & C2 & R2); [|exact Hn2|].
    { intros k' Hin. apply Hk. by apply list_elem_of_further. }
    exists (e1 ++ e2). simpl. rewrite E1, E2. simpl. split; [done|].
    change ((k :: ks) ≫= top_hosts) with (top_hosts k ++ (ks ≫= top_hosts)).
    change ((k :: ks) ≫= subtree) with (subtree k ++ (ks ≫= subtree)).
    change ((k :: ks) ≫= below_host) with (below_host k ++ (ks ≫= below_host)).
    repeat split.
    + rewrite detached_app, D1, D2. destruct flag; [|done]. by rewrite omap_app.
    + intros g e Hg Hc He. apply elem_of_app.
      apply elem_of_app in Hg as [Hg|Hg]; [left; eauto|right; eauto].
    + intros g r Hg Hr. apply elem_of_app.
      apply elem_of_app in Hg as [Hg|Hg]; [left; eauto|right; eauto].
Qed.

Lemma remove_kids_ok flag f :
  (forall ks k, kids f = Some ks -> k ∈ ks -> removal_ok k) ->
  (flag = true ->
   Forall (fun g => is_Some (node g)) (default [] (kids f) ≫= top_hosts)) ->
  exists evs, remove_kids flag (kids f) = Ok evs
              /\ removal_post flag (default [] (kids f) ≫= top_hosts)
                   (default [] (kids f) ≫= subtree)
                   (default [] (kids f) ≫= below_host) evs.
Proof.
  intros IH Hn. destruct (kids f) as [ks|] eqn:Ek; simpl in *.
  - apply remove_all_ok; [|exact Hn]. intros k Hin. by apply (IH ks).
  - exists []. split; [done|]. repeat split.
    + by destruct flag.
    + intros g e Hg. by apply elem_of_nil in Hg.
    + intros g r Hg. by apply elem_of_nil in Hg.
Qed.

Lemma removeElement_ok f : removal_ok f.
Proof.
  induction f as [f IH] using Fiber_kids_ind. intros flag Hn.
  rewrite removeElement_eq.
  rewrite top_hosts_eq in Hn. rewrite top_hosts_eq, subtree_eq, below_host_eq.
  destruct (isComp f) eqn:Ec.
  - destruct (remove_kids_ok flag f IH Hn) as (r & Er & D & C & R).
    rewrite Er. simpl. eexists. split; [reflexivity|]. repeat split.
    + by rewrite detached_app, detached_cleanups.
    + intros g e Hg Hc He. apply elem_of_app.
      apply elem_of_cons in Hg as [->|Hg]; [by left|right; eauto].
    + intros g r' Hg Hr. apply elem_of_app. right. eauto.
  - assert (Hf : forall g r, g ∈ f :: (default [] (kids f) ≫= subtree) ->
                             ref g = Some r ->
                             ERefer r None
                               ∈ kidsRefer (kids f) ++ refer (ref f) None).
    { intros g r Hg Hr. apply elem_of_app.
      apply elem_of_cons in Hg as [->|Hg].
      - right. rewrite Hr. simpl. constructor.
      - left. destruct (kids f) as [ks|]; simpl in *;
          [|by apply elem_of_nil in Hg].
        apply list_elem_of_bind in Hg as (k & Hg & Hk).
        apply list_elem_of_In, in_flat_map. exists k.
        split; [by apply list_elem_of_In|].
        apply list_elem_of_In. by eapply kidRefer_clears. }
    destruct (remove_kids_ok false f IH) as (r & Er & D & C & R); [done|].
    rewrite Er. simpl in D.
    assert (Hc : forall g e, g ∈ f :: (default [] (kids f) ≫= subtree) ->
                             isComp g = true ->
                             e ∈ run_cleanups (hooks g) -> e ∈ r).
    { intros g e Hg Hcg He.
      apply elem_of_cons in Hg as [->|Hg]; [congruence|eauto]. }
    destruct flag.
    + specialize (Hn eq_refl). apply Forall_cons in Hn as [[n En] _].
      rewrite En. simpl. eexists. split; [reflexivity|]. repeat split.
      * simpl. rewrite !detached_app, detached_kidsRefer, detached_refer, D.
        simpl. by rewrite En.
      * intros g e Hg Hcg He. apply elem_of_cons. right.
        rewrite !elem_of_app. right. right. eauto.
      * intros g r' Hg Hr. rewrite subtree_eq in Hg. apply elem_of_cons. right.
        rewrite app_assoc. apply elem_of_app. left. eauto.
    + simpl. eexists. split; [reflexivity|]. repeat split.
      * by rewrite !detached_app, detached_kidsRefer, detached_refer, D.
      * intros g e Hg Hcg He. rewrite !elem_of_app. right. right. eauto.
      * intros g r' Hg Hr. rewrite subtree_eq in Hg.
        rewrite app_assoc. apply elem_of_app. left. eauto.
Qed.



(** ** Commit and the memo flag *)

Lemma Fiber_cs_ind (P : Fiber -> Prop) :
  (forall f, (forall c, child f = Some c -> P c) ->
             (forall s, sibling f = Some s -> P s) -> P f) ->
  forall f, P f.
Proof.
  intros Hstep f.
  assert (Hn : forall n g, (cs_size g < n)%nat -> P g).
  { induction n as [|n IH]; intros g Hg; [lia|].
    apply Hstep.
    - intros c Ec. apply IH. destruct g; simpl in *. subst. simpl in Hg. lia.
    - intros s Es. apply IH. destruct g; simpl in *. subst. simpl in Hg. lia. }
  apply (Hn (S (cs_size f))). lia.
Qed.

Section MemoFacts.
Variable tg : TagTable.
Variable comps : nat -> Comp.
Variable effect_result : nat -> option nat.
Context {H : Type} `{Host H}.

Lemma commit_go_eq via pn fiber (h : H) :
  commit_go tg via pn fiber h
  = if via && memo fiber then
      match sibling fiber with
      | Some s =>
          r <-- commit_go tg true pn s h ;;
          let '(h', ev, s') := r in
          Ok (h', ev, set_sibling (Some s') fiber)
      | None => Ok (h, [], fiber)
      end
    else
      let ev0 := refer (ref fiber) (node fiber) in
      r1 <--
        match child fiber with
        | Some c =>
            r <-- commit_go tg true (node fiber) c h ;;
            let '(h', ev, c') := r in Ok (h', ev, Some c')
        | None => Ok (h, [], None)
        end ;;
      let '(h1, ev1, c') := r1 in
      r2 <-- commit_self tg pn fiber h1 ;;
      let '(h2, ev2, f2) := r2 in
      r3 <--
        match sibling fiber with
        | Some s =>
            r <-- commit_go tg true pn s h2 ;;
            let '(h', ev, s') := r in Ok (h', ev, Some s')
        | None => Ok (h2, [], None)
        end ;;
      let '(h3, ev3, s') := r3 in
      Ok (h3, ev0 ++ ev1 ++ ev2 ++ ev3,
          set_sibling s' (set_children (kids f2) c' f2)).
Proof. destruct fiber; reflexivity. Qed.

Lemma no_render_app e1 e2 :
  no_render e1 -> no_render e2 -> no_render (e1 ++ e2).
Proof. intros. by apply Forall_app. Qed.

Lemma no_render_refer r d : no_render (refer r d).
Proof. destruct r; repeat constructor. Qed.

Lemma commit_self_no_render pn f (h h' : H) ev f' :
  commit_self tg pn f h = Ok (h', ev, f') -> no_render ev.
Proof.
  unfold commit_self.
  repeat (case_match; cbn [rbind]; try discriminate);
    repeat match goal with
           | |- context [h_apply ?a ?b] =>
               destruct (h_apply a b); cbn [rbind]; try discriminate
           end;
    repeat (case_match; cbn [rbind]; try discriminate);
    repeat match goal with
           | |- context [h_apply ?a ?b] =>
               destruct (h_apply a b); cbn [rbind]; try discriminate
           end;
    intros [= <- <- <-]; repeat constructor.
Qed.

Lemma commit_go_no_render fiber : forall via pn (h h' : H) ev f',
  commit_go tg via pn fiber h = Ok (h', ev, f') -> no_render ev.
Proof.
  induction fiber as [fiber IHc IHs] using Fiber_cs_ind.
  intros via pn h h' ev f'. rewrite commit_go_eq.
  destruct (via && memo fiber).
  - destruct (sibling fiber) as [s|] eqn:Es.
    + destruct (commit_go tg true pn s h) as [[[h1 e1] s1]| |] eqn:E1;
        cbn [rbind]; try discriminate.
      intros [= <- <- <-]. eapply IHs; eauto.
    + intros [= <- <- <-]. constructor.
  - cbv zeta.
    assert (Hch : forall h1 e1 c1,
      (match child fiber with
       | Some c =>
           r <-- commit_go tg true (node fiber) c h ;;
           let '(h', ev, c') := r in Ok (h', ev, Some c')
       | None => Ok (h, [], None)
       end) = Ok (h1, e1, c1) -> no_render e1).
    { intros h1 e1 c1. destruct (child fiber) as [c|] eqn:Ec.
      - destruct (commit_go tg true (node fiber) c h) as [[[h2 e2] c2]| |] eqn:E2;
          cbn [rbind]; try discriminate.
        intros [= <- <- <-]. eapply IHc; eauto.
      - intros [= <- <- <-]. constructor. }
    destruct (match child fiber with Some c => _ | None => _ end)
      as [[[h1 e1] c1]| |]; cbn [rbind]; try discriminate.
    specialize (Hch _ _ _ eq_refl).
    destruct (commit_self tg pn fiber h1) as [[[h2 e2] f2]| |] eqn:E2;
      cbn [rbind]; try discriminate.
    apply commit_self_no_render in E2.
    assert (Hsb : forall h3 e3 s3,
      (match sibling fiber with
       | Some s =>
           r <-- commit_go tg true pn s h2 ;;
           let '(h', ev, s') := r in Ok (h', ev, Some s')
       | None => Ok (h2, [], None)
       end) = Ok (h3, e3, s3) -> no_render e3).
    { intros h3 e3 s3. destruct (sibling fiber) as [s|] eqn:Es.
      - destruct (commit_go tg true pn s h2) as [[[h4 e4] s4]| |] eqn:E4;
          cbn [rbind]; try discriminate.
        intros [= <- <- <-]. eapply IHs; eauto.
      - intros [= <- <- <-]. constructor. }
    destruct (match sibling fiber with Some s => _ | None => _ end)
      as [[[h3 e3] s3]| |]; cbn [rbind]; try discriminate.
    specialize (Hsb _ _ _ eq_refl).
    intros [= <- <- <-].
    repeat apply no_render_app; auto using no_render_refer.
Qed.

Lemma side_no_render effects slots ev slots' :
  side effect_result effects slots = Ok (ev, slots') -> no_render ev.
Proof.
  unfold side.
  set (ev1 := flat_map _ effects).
  assert (H1 : no_render ev1).
  { subst ev1. induction effects as [|i l IH]; simpl; [constructor|].
    apply no_render_app; [|exact IH].
    repeat case_match; repeat constructor. }
  clearbody ev1. revert ev1 slots H1.
  induction effects as [|i l IH]; intros ev1 slots H1; simpl.
  - by intros [= <- <-].
  - destruct (slots !! i) as [sl|]; simpl.
    + destruct (hcb sl) as [cb|]; simpl.
      * apply IH. apply no_render_app; [done|repeat constructor].
      * intros E. exfalso. revert E. clear.
        induction l as [|j l IH]; simpl; [discriminate|exact IH].
    + intros E. exfalso. revert E. clear.
      induction l as [|j l IH]; simpl; [discriminate|exact IH].
Qed.

Lemma bubble_no_render f (w : World (H:=H)) f' w' :
  bubble effect_result f w = Ok (f', w') ->
  exists evs, w_log w' = w_log w ++ evs /\ no_render evs
              /\ dirty f' = dirty f /\ sibling f' = sibling f.
Proof.
  unfold bubble.
  destruct (isComp f);
    [|intros [= <- <-]; exists []; rewrite app_nil_r; repeat split; constructor].
  destruct (hooks f) as [hk|];
    [|intros [= <- <-]; exists []; rewrite app_nil_r; repeat split; constructor].
  destruct (side _ _ _) as [[ev sl]| |] eqn:Es; simpl; try discriminate.
  intros [= <- <-]. exists ev. simpl. repeat split.
  by eapply side_no_render.
Qed.

Lemma getSibling_no_render parents : forall f (w : World (H:=H)) p w',
  getSibling tg effect_result f parents w = Ok (p, w') ->
  exists evs, w_log w' = w_log w ++ evs /\ no_render evs.
Proof.
  induction parents as [|q ps IH]; intros f w p w'; simpl;
    destruct (bubble effect_result f w) as [[f1 w1]| |] eqn:Eb;
    simpl; try discriminate;
    apply bubble_no_render in Eb as (e1 & El1 & Hn1 & _ & _);
    (destruct (dirty f1);
     [destruct (commit _ _ _ _) as [[[h' ev] f3]| |] eqn:Ec;
        simpl; try discriminate;
      intros [= <- <-]; exists (e1 ++ ev); simpl;
      rewrite El1, <- app_assoc; split; [done|];
      apply no_render_app; [done|];
      by eapply commit_go_no_render|]).
  - destruct (sibling f1); intros [= <- <-]; by exists e1.
  - destruct (sibling f1).
    + intros [= <- <-]; by exists e1.
    + intros E. apply IH in E as (e2 & El2 & Hn2).
      exists (e1 ++ e2). rewrite El2, El1, <- app_assoc. split; [done|].
      by apply no_render_app.
Qed.

(** C6, as amended: for a fiber of a memoised component whose type is
    that of its alternate, whose alternate has props and whose
    comparator reports no change, [capture] marks the fiber memo and goes
    on with [getSibling] without calling the component function; a commit
    that reaches the fiber through [commitSibling] does to the host, and
    logs, exactly what it does for the fiber's sibling; and [capture]
    hands the fiber itself to [commit] only when the fiber is dirty. *)
Theorem capture_memo_skip (f alt : Fiber) (c : nat) (altp : Props)
  (parents : list Fiber) (w : World (H:=H)) :
  ftype f = TComp c -> cmemo (comps c) = true ->
  alternate f = Some alt -> ftype alt = TComp c -> props alt = Some altp ->
  scu comps (TComp c) (props f) altp = Ok false ->
  let f' := set_memo true (set_isComp true f) in
  capture tg comps effect_result f parents w
  = getSibling tg effect_result f' parents w
  /\ memo f' = true
  /\ (forall p' w',
        capture tg comps effect_result f parents w = Ok (p', w') ->
        exists evs, w_log w' = w_log w ++ evs /\ no_render evs)
  /\ (forall pn (h : H),
        rmap (fun r => (r.1.1, r.1.2)) (commitSibling tg pn (Some f') h)
        = rmap (fun r => (r.1.1, r.1.2)) (commitSibling tg pn (sibling f') h))
  /\ (dirty f = false ->
      getSibling tg effect_result f' parents w
      = (r <-- bubble effect_result f' w ;;
         let '(f1, w1) := r in
         match sibling f1 with
         | Some s =>
             Ok (mkPos (Some s)
                       (match parents with
                        | p :: ps => plug f1 p :: ps
                        | [] => []
                        end), w1)
         | None =>
             match parents with
             | p :: ps => getSibling tg effect_result (plug f1 p) ps w1
             | [] => Ok (mkPos None [f1], w1)
             end
         end)).
Proof.
  intros Et Hm Ea Eat Eap Hs f'.
  assert (Hcap : capture tg comps effect_result f parents w
                 = getSibling tg effect_result f' parents w).
  { unfold capture. rewrite Et. simpl.
    unfold isMemo. cbn [alternate set_isComp ftype props].
    rewrite Ea, Eap, Et, Eat. simpl. rewrite Hm.
    rewrite bool_decide_eq_true_2 by done. cbn [andb].
    change (match cshouldUpdate (comps c) with
            | Some f0 => Ok (f0 (props f) altp)
            | None => shouldUpdate (props f) altp
            end) with (scu comps (TComp c) (props f) altp).
    rewrite Hs. reflexivity. }
  split; [exact Hcap|]. split; [reflexivity|]. split; [|split].
  - intros p' w' E. rewrite Hcap in E. by eapply getSibling_no_render.
  - intros pn h. unfold commitSibling. rewrite commit_go_eq.
    change (memo f') with true. change (sibling f') with (sibling f).
    simpl andb. cbv iota.
    destruct (sibling f) as [s|]; [|reflexivity].
    destruct (commit_go tg true pn s h) as [[[h1 e1] s1]| |]; reflexivity.
  - intros Hd.
    destruct parents as [|p ps]; simpl;
      destruct (bubble effect_result f' w) as [[f1 w1]| |] eqn:Eb;
      simpl; try reflexivity;
      apply bubble_no_render in Eb as (_ & _ & _ & Hd1 & _);
      change (dirty f') with (dirty f) in Hd1; rewrite Hd1, Hd;
      reflexivity.
Qed.
End MemoFacts.

(** C6, as stated, fails: a dirty fiber that meets the memo conditions is
    marked memo and then handed to [commit] by [getSibling]; the commit
    starts at the fiber and applies its pending UPDATE. *)
Lemma capture_dirty_memo_commits :
  isMemo sample_comps dirty_memo = Ok true
  /\ exists p' w',
       capture sample_tags sample_comps (fun _ => None) dirty_memo []
               sample_world = Ok (p', w')
       /\ w_log w' = [EUpdateElement (Some 5%nat) ∅ ∅]
       /\ ~ w_log w' = [].
Proof.
  split; [reflexivity|]. eexists _, _. split; [vm_compute; reflexivity|].
  split; [reflexivity|discriminate].
Qed.

(** ** Appending through commit *)

Lemma insert_before_None xs l : insert_before xs None l = l ++ xs.
Proof. induction l as [|y l IH]; simpl; [done|]. by rewrite IH. Qed.

Lemma dom_detach_dom h c p :
  is_Some (d_nodes h !! p) -> is_Some (d_nodes (dom_detach h c) !! p).
Proof.
  intros Hp. unfold dom_detach.
  destruct (d_nodes h !! c) as [d|] eqn:Ec; [|done].
  assert (H1 : is_Some (<[c := mkDNode (d_type d) None (d_children d)]>
                          (d_nodes h) !! p)).
  { destruct (decide (c = p)) as [->|Hne].
    - rewrite lookup_insert_eq. by eexists.
    - by rewrite lookup_insert_ne. }
  destruct (d_parent d) as [q|]; simpl; [|done].
  destruct (decide (q = p)) as [->|Hne].
  - rewrite lookup_alter_eq. destruct H1 as [x ->]. by eexists.
  - by rewrite lookup_alter_ne.
Qed.

(** With no anchor, [insertBefore] puts the node after all other children. *)
Lemma dom_insertBefore_append h p c :
  is_Some (d_nodes h !! p) -> p ≠ c -> dom_nodeType h c ≠ 11 ->
  exists h', dom_insertBefore h p c None = Ok h'
             /\ dom_children h' p = dom_children (dom_detach h c) p ++ [c].
Proof.
  intros Hp Hne Hty. unfold dom_insertBefore.
  rewrite bool_decide_eq_false_2 by discriminate.
  destruct (Z.eqb_spec (dom_nodeType h c) 11); [done|].
  eexists. split; [reflexivity|].
  unfold dom_children at 1. cbn [d_nodes foldl].
  rewrite lookup_alter_eq, lookup_alter_ne by done.
  apply (dom_detach_dom h c p) in Hp. destruct Hp as [pd Hpd].
  unfold dom_children. rewrite Hpd. simpl.
  by rewrite insert_before_None.
Qed.

Section CommitFacts.
Variable tg : TagTable.

End CommitFacts.

(** ** Keys that are falsy *)

Section DiffKeys.
Variable tg : TagTable.
Hypothesis move_not_update : MOVE tg ≠ UPDATE tg.
Hypothesis move_not_insert : MOVE tg ≠ INSERT tg.

Lemma map_set_lookup m k i name j :
  map_set m k i !! name = Some j ->
  (name = prop_name k /\ j = i) \/ m !! name = Some j.
Proof.
  unfold map_set. destruct (bool_decide _); [by right|].
  destruct (decide (prop_name k = name)) as [<-|Hne].
  - rewrite lookup_insert_eq. intros [= <-]. by left.
  - rewrite lookup_insert_ne by done. by right.
Qed.

Lemma index_old_indexed ch lo hi m :
  index_old ch lo hi = Ok m -> indexed_old ch m.
Proof.
  unfold index_old.
  assert (Hg : forall l acc m0, acc = Ok m0 -> indexed_old ch m0 ->
    foldl (fun (acc : Res (gmap string Z)) i =>
             m <-- acc ;;
             match idx ch i with
             | Some (Some f) =>
                 Ok (if truthy (key f) then map_set m (key f) i else m)
             | _ => Throw
             end) acc l = Ok m -> indexed_old ch m).
  { induction l as [|i l IH]; intros acc m0 -> Hm0; simpl.
    - by intros [= <-].
    - destruct (idx ch i) as [[f|]|] eqn:Ei.
      + eapply IH; [reflexivity|].
        destruct (truthy (key f)) eqn:Et; [|exact Hm0].
        intros name j Hl. apply map_set_lookup in Hl as [[-> ->]|Hl]; eauto.
      + intros E. exfalso. revert E. clear.
        induction l as [|j l IH]; simpl; [discriminate|exact IH].
      + intros E. exfalso. revert E. clear.
        induction l as [|j l IH]; simpl; [discriminate|exact IH]. }
  apply (Hg _ _ ∅ eq_refl). intros name i Hl. by rewrite lookup_empty in Hl.
Qed.

Lemma index_new_indexed ch lo hi m :
  index_new ch lo hi = Ok m -> indexed_new ch m.
Proof.
  unfold index_new.
  assert (Hg : forall l acc m0, acc = Ok m0 -> indexed_new ch m0 ->
    foldl (fun (acc : Res (gmap string Z)) i =>
             m <-- acc ;;
             match idx ch i with
             | Some f =>
                 Ok (if truthy (key f) then map_set m (key f) i else m)
             | None => Throw
             end) acc l = Ok m -> indexed_new ch m).
  { induction l as [|i l IH]; intros acc m0 -> Hm0; simpl.
    - by intros [= <-].
    - destruct (idx ch i) as [f|] eqn:Ei.
      + eapply IH; [reflexivity|].
        destruct (truthy (key f)) eqn:Et; [|exact Hm0].
        intros name j Hl. apply map_set_lookup in Hl as [[-> ->]|Hl]; eauto.
      + intros E. exfalso. revert E. clear.
        induction l as [|j l IH]; simpl; [discriminate|exact IH]. }
  apply (Hg _ _ ∅ eq_refl). intros name i Hl. by rewrite lookup_empty in Hl.
Qed.

Lemma moves_ok_push s bch' act :
  moves_ok tg s ->
  (forall j, (j < Z.to_nat (bHead s))%nat -> bch' !! j = bCh s !! j) ->
  move_ok tg bch' (Z.to_nat (bHead s)) act ->
  moves_ok tg (mkDiffSt (aCh s) bch' (aHead s) (bHead s + 1) (aTail s)
                     (bTail s) (aMap s) (bMap s) (temp s)
                     (actions s ++ [act]) (dlog s)).
Proof.
  intros (H0 & Hl & Ha) Hb Hact. unfold moves_ok. simpl.
  split; [lia|]. split; [rewrite length_app; simpl; lia|].
  intros j a Hj. apply lookup_app_Some in Hj as [Hj|[Hge Hj]].
  - pose proof (lookup_lt_Some _ _ _ Hj) as Hlt.
    intros Hop. destruct (Ha j a Hj Hop) as (m & b' & ? & ? & ?).
    exists m, b'. rewrite Hb by lia. auto.
  - destruct (j - length (actions s))%nat as [|k] eqn:Ek; simpl in Hj;
      [|by rewrite lookup_nil in Hj].
    injection Hj as <-. replace j with (Z.to_nat (bHead s)) by lia.
    exact Hact.
Qed.

Lemma map_get_FIdx m k i : map_get m k = FIdx i -> m !! prop_name k = Some i.
Proof.
  unfold map_get. destruct (m !! prop_name k); [by intros [= ->]|].
  by destruct (is_proto_name _).
Qed.

Lemma idx_set_idx_other {A} (l : list A) i j x y :
  idx (set_idx l i x) j = Some y -> 0 <= i -> j ≠ i -> idx l j = Some y.
Proof.
  unfold idx, set_idx. destruct (Z.ltb_spec j 0); [done|].
  intros E Hi Hne. rewrite list_lookup_insert_ne in E by lia. done.
Qed.

Lemma idx_set_idx_same {A} (l : list A) i x y :
  idx (set_idx l i x) i = Some y -> y = x.
Proof.
  unfold idx, set_idx. destruct (Z.ltb_spec i 0); [done|].
  intros E. apply list_lookup_insert_Some in E as [(_ & ? & _)|(? & _)]; [done|lia].
Qed.

Lemma mid_step_moves s s' :
  amap_ok s -> moves_ok tg s -> mid_step tg s = Ok s' ->
  amap_ok s' /\ moves_ok tg s'.
Proof.
  intros Ham Hmv. unfold mid_step, st_remove, st_insert.
  repeat (case_match; cbn [rbind]; try discriminate);
    try (destruct (removeElement _ _); cbn [rbind]; try discriminate);
    intros [= <-]; (split; [try exact Ham|try exact Hmv]).
  all: try (apply moves_ok_push; [exact Hmv|done|];
            intros Hop; simpl in Hop; congruence).
  all: try (apply moves_ok_push; [exact Hmv| |];
            [intros j Hj; unfold set_idx;
             apply list_lookup_insert_ne; lia
            |intros Hop; simpl in Hop; unfold update_action in Hop;
             simpl in Hop; congruence]).
  - (* the move empties one slot of the old array *)
    intros name i' m' Hl Hi'. simpl in Hl, Hi'.
    match goal with
    | E : idx (aCh s) ?i = Some (Some _) |- _ =>
        pose proof (idx_Some_range _ _ _ E) as Hr;
        destruct (decide (i' = i)) as [->|Hne];
          [apply idx_set_idx_same in Hi'; discriminate
          |apply idx_set_idx_other in Hi'; [|lia|done]]
    end.
    by apply (Ham name i' m').
  - (* the new action is a MOVE *)
    apply moves_ok_push; [exact Hmv| |].
    + intros j Hj. unfold set_idx. apply list_lookup_insert_ne. lia.
    + intros _.
      match goal with
      | Ea : map_get (aMap s) (key ?b) = FIdx ?i,
        Em : idx (aCh s) ?i = Some (Some ?m),
        Eb : idx (bCh s) (bHead s) = Some ?b |- _ =>
          exists m, (clone m b);
          apply map_get_FIdx in Ea;
          destruct (Ham _ _ _ Ea Em) as [Ht Hn];
          apply idx_Some_range in Eb as Hr;
          split; [reflexivity|]; split;
            [apply list_lookup_insert_eq; lia|];
          repeat split; auto
      end.
Qed.

Lemma mid_loop_moves fuel : forall s s',
  amap_ok s -> moves_ok tg s -> mid_loop tg fuel s = Ok s' -> moves_ok tg s'.
Proof.
  induction fuel as [|fuel IH]; intros s s' Ham Hmv; simpl;
    destruct ((aHead s <=? aTail s) || (bHead s <=? bTail s));
    try discriminate; try (by intros [= <-]).
  destruct (mid_step tg s) as [s1| |] eqn:E1; simpl; try discriminate.
  destruct (mid_step_moves _ _ Ham Hmv E1) as [Ham1 Hmv1].
  by apply IH.
Qed.

Lemma head_loop_moves fuel : forall s s',
  moves_ok tg s -> head_loop tg fuel s = Ok s' -> moves_ok tg s'.
Proof.
  induction fuel as [|fuel IH]; intros s s' Hmv; simpl;
    destruct ((aHead s <=? aTail s) && (bHead s <=? bTail s));
    try discriminate; try (by intros [= <-]).
  destruct (idx (aCh s) (aHead s)) as [[x|]|]; try discriminate.
  destruct (idx (bCh s) (bHead s)) as [y|] eqn:Ey; try discriminate.
  destruct (negb (same x y)); [by intros [= <-]|].
  apply IH. apply moves_ok_push; [exact Hmv| |].
  - intros j Hj. unfold set_idx. apply list_lookup_insert_ne. lia.
  - intros Hop. simpl in Hop. congruence.
Qed.

Lemma tail_loop_moves fuel : forall s s',
  actions s = [] -> bHead s = 0 ->
  Forall (fun act => act = update_action tg) (temp s) ->
  tail_loop tg fuel s = Ok s' ->
  moves_ok tg s' /\ Forall (fun act => act = update_action tg) (temp s').
Proof.
  induction fuel as [|fuel IH]; intros s s' Ha Hb Ht; simpl;
    destruct ((aHead s <=? aTail s) && (bHead s <=? bTail s));
    try discriminate;
    try (intros [= <-]; split; [|done]; unfold moves_ok;
         rewrite Ha, Hb; repeat split; try done;
         try (intros j act Hj; by rewrite lookup_nil in Hj)).
  destruct (idx (aCh s) (aTail s)) as [[x|]|]; try discriminate.
  destruct (idx (bCh s) (bTail s)) as [y|]; try discriminate.
  destruct (negb (same x y)).
  - intros [= <-]; split; [|done]; unfold moves_ok.
    rewrite Ha, Hb; repeat split; try done;
      try (intros j act Hj; by rewrite lookup_nil in Hj).
  - apply IH; simpl; auto.
    apply Forall_app. split; [done|]. by repeat constructor.
Qed.

(** C9, as amended: a fiber of the middle range whose key is falsy is in
    neither index map; in every MOVE that [diff] returns, [cur] is an old
    fiber with a truthy key, so an old fiber with a falsy key is never
    moved; and the new fiber that receives the MOVE is matched with old
    fiber [cur], whose key has the same property name as its own: a new
    fiber with a falsy key is matched at another position only with an
    old fiber whose truthy key reads the same as a property name. *)
Theorem diff_falsy_keys (a b : list Fiber) (o : DiffOut) :
  diff tg a b = Ok o ->
  (forall ch lo hi m i f name,
     index_old ch lo hi = Ok m -> idx ch i = Some (Some f) ->
     truthy (key f) = false -> m !! name ≠ Some i)
  /\ (forall ch lo hi m i f name,
        index_new ch lo hi = Ok m -> idx ch i = Some f ->
        truthy (key f) = false -> m !! name ≠ Some i)
  /\ (forall j act,
        out_actions o !! j = Some act -> op act = MOVE tg ->
        exists m b', cur act = Some m /\ out_bCh o !! j = Some b'
                     /\ truthy (key m) = true
                     /\ prop_name (key m) = prop_name (key b')
                     /\ alternate b' = Some m).
Proof.
  intros Hd. split; [|split].
  - intros ch lo hi m i f name Hi Hf Ht Hl.
    destruct (index_old_indexed _ _ _ _ Hi name i Hl) as (f' & Hf' & Ht' & _).
    congruence.
  - intros ch lo hi m i f name Hi Hf Ht Hl.
    destruct (index_new_indexed _ _ _ _ Hi name i Hl) as (f' & Hf' & Ht' & _).
    congruence.
  - unfold diff in Hd.
    destruct (tail_loop tg _ _) as [s1| |] eqn:E1; cbn [rbind] in Hd;
      try discriminate.
    apply tail_loop_moves in E1 as [Hm1 Ht1]; [|done|done|constructor].
    destruct (head_loop tg _ s1) as [s2| |] eqn:E2; cbn [rbind] in Hd;
      try discriminate.
    apply head_loop_temp in E2 as Ht2.
    apply head_loop_moves in E2; [|exact Hm1].
    destruct (index_old _ _ _) as [am| |] eqn:Eo; cbn [rbind] in Hd;
      try discriminate.
    destruct (index_new _ _ _) as [bm| |] eqn:En; cbn [rbind] in Hd;
      try discriminate.
    destruct (mid_loop tg _ _) as [s3| |] eqn:E3; cbn [rbind] in Hd;
      try discriminate.
    apply mid_loop_temp in E3 as Ht3. simpl in Ht3.
    apply mid_loop_moves in E3; [| |exact E2].
    + injection Hd as <-. cbn [out_actions out_bCh].
      rewrite flush_temp_all.
      intros j act Hj Hop.
      destruct E3 as (_ & _ & Hall).
      apply lookup_app_Some in Hj as [Hj|[_ Hj]]; [by apply (Hall j act)|].
      exfalso. rewrite Ht3, Ht2 in Hj.
      apply list_elem_of_lookup_2 in Hj. rewrite elem_of_reverse in Hj.
      rewrite Forall_forall in Ht1. rewrite (Ht1 _ Hj) in Hop.
      simpl in Hop. congruence.
    + intros name i m Hl Hi. simpl in Hl, Hi.
      destruct (index_old_indexed _ _ _ _ Eo name i Hl) as (f' & Hf' & ? & ?).
      rewrite Hf' in Hi. injection Hi as <-. done.
Qed.
End DiffKeys.

(** C9, as stated, fails: the new fiber with the falsy key [0] is matched,
    through a MOVE, against the old fiber with the key ["0"], which stands
    at another position. *)
Lemma diff_falsy_key_moved :
  truthy (KNum 0) = false
  /\ diff sample_tags old_p0 new_0p
     = Ok (mkDiffOut
             [mkAction (MOVE sample_tags) (Some (li 41 (KStr "0")))
                       (Some (li 40 (KStr "p")));
              update_action sample_tags]
             [clone (li 41 (KStr "0")) (li 42 (KNum 0));
              clone (li 40 (KStr "p")) (li 43 (KStr "p"))]
             [Some (li 40 (KStr "p")); None] [])
  /\ new_0p !! 0%nat = Some (li 42 (KNum 0))
  /\ old_p0 !! 1%nat = Some (li 41 (KStr "0")).
Proof. repeat split; vm_compute; reflexivity. Qed.

(** ** Instances *)

(** C10 at a component fiber that has never been rendered. *)
Lemma isMemo_first_render_witness :
  ftype first_render = TComp 0
  /\ alternate first_render ≫= props = None
  /\ isMemo sample_comps first_render = Ok false.
Proof.
  split; [reflexivity|]. split; [reflexivity|].
  apply (isMemo_first_render sample_tags sample_comps (fun _ => None)
           first_render 0%nat [] sample_world); reflexivity.
Defined.

(** C6 at a memoised component fiber with unchanged props that is not
    dirty. *)
Lemma capture_memo_skip_witness :
  let f := set_dirty false dirty_memo in
  ftype f = TComp 0
  /\ cmemo (sample_comps 0) = true
  /\ alternate f = Some sample_alt
  /\ ftype sample_alt = TComp 0
  /\ props sample_alt = Some ∅
  /\ scu sample_comps (TComp 0) (props f) ∅ = Ok false
  /\ capture sample_tags sample_comps (fun _ => None) f [] sample_world
     = getSibling sample_tags (fun _ => None)
         (set_memo true (set_isComp true f)) [] sample_world.
Proof.
  intros f. repeat (split; [reflexivity|]).
  apply (capture_memo_skip sample_tags sample_comps (fun _ => None) f
           sample_alt 0%nat ∅ [] sample_world); reflexivity.
Defined.





(** C9 at the lists in which the key [0] meets the key ["0"]. *)
Lemma diff_falsy_keys_witness :
  let o := mkDiffOut
             [mkAction (MOVE sample_tags) (Some (li 41 (KStr "0")))
                       (Some (li 40 (KStr "p")));
              update_action sample_tags]
             [clone (li 41 (KStr "0")) (li 42 (KNum 0));
              clone (li 40 (KStr "p")) (li 43 (KStr "p"))]
             [Some (li 40 (KStr "p")); None] [] in
  MOVE sample_tags ≠ UPDATE sample_tags
  /\ MOVE sample_tags ≠ INSERT sample_tags
  /\ diff sample_tags old_p0 new_0p = Ok o
  /\ forall j act,
       out_actions o !! j = Some act -> op act = MOVE sample_tags ->
       exists m b', cur act = Some m /\ out_bCh o !! j = Some b'
                    /\ truthy (key m) = true
                    /\ prop_name (key m) = prop_name (key b')
                    /\ alternate b' = Some m.
Proof.
  intros o.
  assert (Hd : diff sample_tags old_p0 new_0p = Ok o)
    by (vm_compute; reflexivity).
  assert (H1 : MOVE sample_tags ≠ UPDATE sample_tags) by discriminate.
  assert (H2 : MOVE sample_tags ≠ INSERT sample_tags) by discriminate.
  split; [exact H1|]. split; [exact H2|]. split; [exact Hd|].
  exact (proj2 (proj2 (diff_falsy_keys sample_tags H1 H2 old_p0 new_0p o Hd))).
Defined.

(** * Further properties of the code *)

(** ** The positions of the new list *)

Section DiffPositions.
Variable tg : TagTable.
Variables a b : list Fiber.

Lemma positions_ok_init : positions_ok tg a b (diff_init a b).
Proof.
  unfold positions_ok, diff_init. simpl.
  repeat split; try lia.
  - intros i m Hi. unfold idx in Hi. destruct (i <? 0); [done|].
    rewrite list_lookup_fmap in Hi.
    destruct (a !! Z.to_nat i) as [y|] eqn:Ey; simpl in Hi; [|done].
    injection Hi as <-. by eapply list_elem_of_lookup_2.
  - intros t act Ht. by rewrite lookup_nil in Ht.
Qed.

Lemma positions_push_head s ach' ah' at' am' bm' lg' x x' act :
  positions_ok tg a b s ->
  bHead s <= bTail s ->
  b !! Z.to_nat (bHead s) = Some x ->
  justified tg a x x' act ->
  (forall i m, idx ach' i = Some (Some m) -> m ∈ a) ->
  positions_ok tg a b
    (mkDiffSt ach' (set_idx (bCh s) (bHead s) x') ah' (bHead s + 1) at'
              (bTail s) am' bm' (temp s) (actions s ++ [act]) lg').
Proof.
  intros (H0 & H1 & H2 & H3 & H4 & H5 & H6 & H7 & H8 & H9) Hle Hx Hj Ha'.
  unfold positions_ok, set_idx. simpl.
  split; [lia|]. split; [lia|]. split; [lia|].
  split; [by rewrite length_insert|].
  split; [rewrite length_app; simpl; lia|].
  split; [lia|]. split; [exact Ha'|]. split; [|split].
  - intros j y Hlt Hy.
    destruct (decide (j = Z.to_nat (bHead s))) as [->|Hne].
    + rewrite Hx in Hy. injection Hy as <-. exists x', act.
      split; [apply list_lookup_insert_eq; lia|].
      split; [|exact Hj].
      rewrite lookup_app_r by lia. by rewrite H4, Nat.sub_diag.
    + destruct (H7 j y) as (y' & act' & Hb & Hact & Hjy); [lia|done|].
      exists y', act'. rewrite list_lookup_insert_ne by done.
      split; [done|]. split; [|done]. by apply lookup_app_l_Some.
  - intros j Hge Hle'. rewrite list_lookup_insert_ne by lia.
    apply H8; lia.
  - intros t act' Ht. destruct (H9 t act' Ht) as (y & y' & Hy & Hy' & Hjy).
    exists y, y'. split; [done|]. split; [|done].
    apply lookup_lt_Some in Ht.
    rewrite list_lookup_insert_ne by lia. done.
Qed.

Lemma positions_push_tail s ach' ah' am' bm' lg' x x' act :
  positions_ok tg a b s ->
  bHead s <= bTail s ->
  b !! Z.to_nat (bTail s) = Some x ->
  justified tg a x x' act ->
  (forall i m, idx ach' i = Some (Some m) -> m ∈ a) ->
  positions_ok tg a b
    (mkDiffSt ach' (set_idx (bCh s) (bTail s) x') ah' (bHead s)
              (aTail s - 1) (bTail s - 1) am' bm' (temp s ++ [act])
              (actions s) lg').
Proof.
  intros (H0 & H1 & H2 & H3 & H4 & H5 & H6 & H7 & H8 & H9) Hle Hx Hj Ha'.
  unfold positions_ok, set_idx. simpl.
  split; [lia|]. split; [lia|]. split; [lia|].
  split; [by rewrite length_insert|].
  split; [lia|].
  split; [rewrite length_app; simpl; lia|].
  split; [exact Ha'|]. split; [|split].
  - intros j y Hlt Hy.
    destruct (H7 j y) as (y' & act' & Hb & Hact & Hjy); [lia|done|].
    exists y', act'. rewrite list_lookup_insert_ne by lia. done.
  - intros j Hge Hle'. rewrite list_lookup_insert_ne by lia.
    apply H8; lia.
  - intros t act' Ht.
    apply lookup_app_Some in Ht as [Ht|[Hge Ht]].
    + destruct (H9 t act' Ht) as (y & y' & Hy & Hy' & Hjy).
      exists y, y'. split; [done|]. split; [|done].
      apply lookup_lt_Some in Ht.
      rewrite list_lookup_insert_ne by lia. done.
    + destruct (t - length (temp s))%nat as [|k] eqn:Ek; simpl in Ht;
        [|by rewrite lookup_nil in Ht].
      injection Ht as <-.
      replace (length b - 1 - t)%nat with (Z.to_nat (bTail s)) by lia.
      exists x, x'. split; [done|]. split; [|done].
      apply list_lookup_insert_eq. lia.
Qed.

Lemma positions_untouched s y :
  positions_ok tg a b s -> bHead s <= bTail s ->
  idx (bCh s) (bHead s) = Some y -> b !! Z.to_nat (bHead s) = Some y.
Proof.
  intros (H0 & H1 & H2 & H3 & H4 & H5 & H6 & H7 & H8 & H9) Hle Hy.
  unfold idx in Hy. destruct (Z.ltb_spec (bHead s) 0); [lia|].
  rewrite <- H8 by lia. done.
Qed.

Lemma positions_untouched_tail s y :
  positions_ok tg a b s -> bHead s <= bTail s ->
  idx (bCh s) (bTail s) = Some y -> b !! Z.to_nat (bTail s) = Some y.
Proof.
  intros (H0 & H1 & H2 & H3 & H4 & H5 & H6 & H7 & H8 & H9) Hle Hy.
  unfold idx in Hy. destruct (Z.ltb_spec (bTail s) 0); [lia|].
  rewrite <- H8 by lia. done.
Qed.

Lemma positions_old s i m :
  positions_ok tg a b s -> idx (aCh s) i = Some (Some m) -> m ∈ a.
Proof. intros (_ & _ & _ & _ & _ & _ & H6 & _). apply H6. Qed.

Lemma tail_loop_positions fuel : forall s s',
  positions_ok tg a b s -> tail_loop tg fuel s = Ok s' ->
  positions_ok tg a b s'.
Proof.
  induction fuel as [|fuel IH]; intros s s' Hp; simpl;
    destruct ((aHead s <=? aTail s) && (bHead s <=? bTail s)) eqn:Ec;
    try discriminate; try (by intros [= <-]).
  apply andb_true_iff in Ec as [_ Ec]. apply Z.leb_le in Ec.
  destruct (idx (aCh s) (aTail s)) as [[x|]|] eqn:Ex; try discriminate.
  destruct (idx (bCh s) (bTail s)) as [y|] eqn:Ey; try discriminate.
  destruct (same x y) eqn:Es; simpl; [|by intros [= <-]].
  apply IH.
  apply (positions_push_tail s _ _ _ _ _ y (clone x y) (update_action tg));
    auto.
  - by apply positions_untouched_tail.
  - right. exists x. split; [by eapply positions_old|]. split; [done|].
    by left.
  - intros i m. by apply positions_old.
Qed.

Lemma head_loop_positions fuel : forall s s',
  positions_ok tg a b s -> head_loop tg fuel s = Ok s' ->
  positions_ok tg a b s'.
Proof.
  induction fuel as [|fuel IH]; intros s s' Hp; simpl;
    destruct ((aHead s <=? aTail s) && (bHead s <=? bTail s)) eqn:Ec;
    try discriminate; try (by intros [= <-]).
  apply andb_true_iff in Ec as [_ Ec]. apply Z.leb_le in Ec.
  destruct (idx (aCh s) (aHead s)) as [[x|]|] eqn:Ex; try discriminate.
  destruct (idx (bCh s) (bHead s)) as [y|] eqn:Ey; try discriminate.
  destruct (same x y) eqn:Es; simpl; [|by intros [= <-]].
  apply IH.
  apply (positions_push_head s _ _ _ _ _ _ y (clone x y) (update_action tg));
    auto.
  - by apply positions_untouched.
  - right. exists x. split; [by eapply positions_old|]. split; [done|].
    by left.
  - intros i m. by apply positions_old.
Qed.

Lemma positions_maps s am bm :
  positions_ok tg a b s ->
  positions_ok tg a b
    (mkDiffSt (aCh s) (bCh s) (aHead s) (bHead s) (aTail s) (bTail s)
              am bm (temp s) (actions s) (dlog s)).
Proof. intros Hp. exact Hp. Qed.

Lemma positions_in_range s :
  positions_ok tg a b s -> bHead s <= bTail s ->
  exists y, idx (bCh s) (bHead s) = Some y
            /\ b !! Z.to_nat (bHead s) = Some y.
Proof.
  intros Hp Hle.
  pose proof Hp as (H0 & H1 & H2 & H3 & H4 & H5 & H6 & H7 & H8 & H9).
  destruct (bCh s !! Z.to_nat (bHead s)) as [y|] eqn:Ey.
  - exists y. assert (Hi : idx (bCh s) (bHead s) = Some y).
    { unfold idx. destruct (Z.ltb_spec (bHead s) 0); [lia|done]. }
    split; [done|]. by apply positions_untouched.
  - apply lookup_ge_None in Ey. lia.
Qed.

Lemma positions_insert_head s y r :
  positions_ok tg a b s -> bHead s <= bTail s ->
  idx (bCh s) (bHead s) = Some y ->
  match r with Some x => x ∈ a | None => True end ->
  positions_ok tg a b
    (mkDiffSt (aCh s) (bCh s) (aHead s) (bHead s + 1) (aTail s) (bTail s)
              (aMap s) (bMap s) (temp s)
              (actions s ++ [mkAction (INSERT tg) (Some y) r]) (dlog s)).
Proof.
  intros Hp Hle Ey Hr.
  pose proof (positions_untouched s y Hp Hle Ey) as Hby.
  pose proof (idx_Some_range _ _ _ Ey) as Hry.
  replace (bCh s) with (set_idx (bCh s) (bHead s) y) at 1.
  - apply (positions_push_head s _ _ _ _ _ _ y y); auto.
    + left. by repeat split.
    + intros i m. by apply positions_old.
  - unfold set_idx. apply list_insert_id.
    unfold idx in Ey. destruct (Z.ltb_spec (bHead s) 0); [lia|done].
Qed.

Lemma mid_step_positions s s' :
  positions_ok tg a b s -> mid_step tg s = Ok s' -> positions_ok tg a b s'.
Proof.
  intros Hp. unfold mid_step, st_remove, st_insert.
  repeat (case_match; cbn [rbind]; try discriminate);
    try (destruct (removeElement _ _); cbn [rbind]; try discriminate);
    intros [= <-]; try exact Hp;
    repeat match goal with
           | E : (_ <=? _) = false |- _ => apply Z.leb_gt in E
           | E : (_ <=? _) = true |- _ => apply Z.leb_le in E
           end.
  all: try match goal with
       | |- context [idx (bCh ?s0) (bHead ?s0)] =>
           let Hr := fresh in
           assert (Hr : bHead s0 <= bTail s0) by lia;
           destruct (positions_in_range s0 Hp Hr) as (y & Ey & _);
           rewrite Ey
       end.
  all: try match goal with
       | Ey : idx (bCh ?s0) (bHead ?s0) = Some ?y |- _ =>
           assert (Hby : b !! Z.to_nat (bHead s0) = Some y)
             by (apply positions_untouched; [done|lia|done]);
           pose proof (idx_Some_range _ _ _ Ey) as Hry
       end.
  all: try (apply positions_insert_head; [done|lia|done|];
            first [done | by eapply positions_old]).
  - match goal with
    | Ey : idx (bCh s) (bHead s) = Some ?y,
      Ex : idx (aCh s) (aHead s) = Some (Some ?x) |- _ =>
        apply (positions_push_head s _ _ _ _ _ _ y (clone x y)
                 (update_action tg)); auto; [lia| |]
    end.
    + right. eexists. split; [by eapply positions_old|]. split; [done|].
      by left.
    + intros i m. by apply positions_old.
  - match goal with
    | Ey : idx (bCh s) (bHead s) = Some ?y,
      Ex : idx (aCh s) (aHead s) = Some (Some ?x),
      Em : idx (aCh s) ?i = Some (Some ?m) |- context [MOVE tg] =>
        apply (positions_push_head s _ _ _ _ _ _ y (clone m y)
                 (mkAction (MOVE tg) (Some m) (Some x))); auto; [lia| |];
        [right; exists m; split; [by eapply positions_old|];
         split; [done|]; right; exists x; split; [done|];
         by eapply positions_old
        |intros i' m' Hi';
         pose proof (idx_Some_range _ _ _ Em) as Hr;
         destruct (decide (i' = i)) as [->|Hne];
         [apply idx_set_idx_same in Hi'; discriminate
         |apply idx_set_idx_other in Hi'; [|lia|done];
          by eapply positions_old]]
    end.
Qed.

Lemma mid_loop_positions fuel : forall s s',
  positions_ok tg a b s -> mid_loop tg fuel s = Ok s' ->
  positions_ok tg a b s' /\ bTail s' < bHead s'.
Proof.
  induction fuel as [|fuel IH]; intros s s' Hp; simpl;
    destruct ((aHead s <=? aTail s) || (bHead s <=? bTail s)) eqn:Ec;
    try discriminate.
  - intros [= <-]. split; [done|].
    apply orb_false_iff in Ec as [_ Ec]. by apply Z.leb_gt in Ec.
  - destruct (mid_step tg s) as [s1| |] eqn:E1; simpl; try discriminate.
    apply IH. by eapply mid_step_positions.
  - intros [= <-]. split; [done|].
    apply orb_false_iff in Ec as [_ Ec]. by apply Z.leb_gt in Ec.
Qed.

(** The state in which [diff] leaves step 4, and what it returns. *)
Lemma diff_final_state (o : DiffOut) :
  diff tg a b = Ok o ->
  exists s, positions_ok tg a b s /\ bTail s < bHead s
            /\ out_actions o = actions s ++ reverse (temp s)
            /\ out_bCh o = bCh s.
Proof.
  unfold diff. fold (diff_init a b). intros Hd.
  destruct (tail_loop tg _ _) as [s1| |] eqn:E1; cbn [rbind] in Hd;
    try discriminate.
  apply tail_loop_positions in E1; [|apply positions_ok_init].
  destruct (head_loop tg _ s1) as [s2| |] eqn:E2; cbn [rbind] in Hd;
    try discriminate.
  apply head_loop_positions in E2; [|exact E1].
  destruct (index_old _ _ _) as [am| |]; cbn [rbind] in Hd; try discriminate.
  destruct (index_new _ _ _) as [bm| |]; cbn [rbind] in Hd; try discriminate.
  destruct (mid_loop tg _ _) as [s3| |] eqn:E3; cbn [rbind] in Hd;
    try discriminate.
  apply mid_loop_positions in E3 as [Hp Hx]; [|by apply positions_maps].
  injection Hd as <-. exists s3. simpl. rewrite flush_temp_all. done.
Qed.

End DiffPositions.

(** X1: when [diff] returns, it returns one action for every fiber of the
    new list, and the new list keeps its length: [reconcileChidren] can
    hand [actions[i]] to the i-th child. *)
Theorem diff_one_action_per_child (tg : TagTable) (a b : list Fiber)
  (o : DiffOut) :
  diff tg a b = Ok o ->
  length (out_actions o) = length b /\ length (out_bCh o) = length b.
Proof.
  intros Hd. destruct (diff_final_state tg a b o Hd) as (s & Hp & Hx & -> & ->).
  destruct Hp as (H0 & H1 & H2 & H3 & H4 & H5 & _).
  split; [|done]. rewrite length_app, length_reverse. lia.
Qed.

Lemma diff_out_fid (tg : TagTable) (a b : list Fiber)
  (o : DiffOut) (j : nat) (x : Fiber) :
  diff tg a b = Ok o -> b !! j = Some x ->
  exists x', out_bCh o !! j = Some x' /\ fid x' = fid x.
Proof.
  intros Hd Hx. destruct (diff_final_state tg a b o Hd) as (s & Hp & Hlt & _ & ->).
  destruct Hp as (H0 & H1 & H2 & H3 & H4 & H5 & H6 & H7 & H8 & H9).
  pose proof (lookup_lt_Some _ _ _ Hx) as Hj.
  assert (Hfid : forall x0 x' act, justified tg a x0 x' act -> fid x' = fid x0).
  { intros x0 x' act [(_ & _ & -> & _)|(m & _ & -> & _)]; [done|].
    by destruct x0, m. }
  destruct (decide (j < Z.to_nat (bHead s))%nat) as [Hlo|Hhi].
  - destruct (H7 j x Hlo Hx) as (x' & act & Hb & _ & Hjs).
    exists x'. split; [done|]. by eapply Hfid.
  - assert (Ht : (length b - 1 - j < length (temp s))%nat) by lia.
    destruct (lookup_lt_is_Some_2 _ _ Ht) as [act Hact].
    destruct (H9 _ _ Hact) as (y & y' & Hy & Hy' & Hjs).
    replace (length b - 1 - (length b - 1 - j))%nat with j in * by lia.
    rewrite Hx in Hy. injection Hy as <-.
    exists y'. split; [done|]. by eapply Hfid.
Qed.

(** X2: every fiber of the new list is accounted for at its own position:
    either it is returned unchanged with an INSERT of itself, anchored
    before an old fiber or at the end, or it is returned cloned from an old
    fiber, with an UPDATE when the two are the same in type and key and
    with a MOVE of that old fiber otherwise. *)
Theorem diff_every_child_justified (tg : TagTable) (a b : list Fiber)
  (o : DiffOut) (j : nat) (x : Fiber) :
  diff tg a b = Ok o -> b !! j = Some x ->
  exists x' act, out_bCh o !! j = Some x' /\ out_actions o !! j = Some act
                 /\ justified tg a x x' act.
Proof.
  intros Hd Hx. destruct (diff_final_state tg a b o Hd) as (s & Hp & Hlt & -> & ->).
  destruct Hp as (H0 & H1 & H2 & H3 & H4 & H5 & H6 & H7 & H8 & H9).
  pose proof (lookup_lt_Some _ _ _ Hx) as Hj.
  destruct (decide (j < Z.to_nat (bHead s))%nat) as [Hlo|Hhi].
  - destruct (H7 j x Hlo Hx) as (x' & act & Hb & Ha & Hjs).
    exists x', act. split; [done|]. split; [|done].
    by apply lookup_app_l_Some.
  - assert (Ht : (length b - 1 - j < length (temp s))%nat) by lia.
    destruct (lookup_lt_is_Some_2 _ _ Ht) as [act Hact].
    destruct (H9 _ _ Hact) as (y & y' & Hy & Hy' & Hjs).
    replace (length b - 1 - (length b - 1 - j))%nat with j in * by lia.
    rewrite Hx in Hy. injection Hy as <-.
    exists y', act. split; [done|]. split; [|done].
    rewrite lookup_app_r by lia. rewrite reverse_lookup by lia.
    rewrite <- Hact. f_equal. lia.
Qed.

Lemma idx_nat_Z {A} (l : list A) (i : Z) :
  0 <= i -> idx l i = l !! Z.to_nat i.
Proof. intros Hi. unfold idx. destruct (Z.ltb_spec i 0); [lia|done]. Qed.

(** ** An empty old or new list *)

Section DiffEmpty.
Variable tg : TagTable.

Lemma index_old_total (a : list Fiber) lo hi :
  0 <= lo -> hi < Z.of_nat (length a) ->
  exists m, index_old (Some <$> a) lo hi = Ok m.
Proof.
  intros Hlo Hhi. unfold index_old, range.
  assert (Hall : Forall (fun i => 0 <= i < Z.of_nat (length a))
                        (seqZ lo (hi - lo + 1))).
  { apply Forall_forall. intros i Hi. apply elem_of_seqZ in Hi. lia. }
  generalize (∅ : gmap string Z) as m0.
  induction Hall as [|i l Hi Hl IH]; intros m0; simpl; [by eexists|].
  rewrite idx_nat_Z by lia. rewrite list_lookup_fmap.
  destruct (a !! Z.to_nat i) as [f|] eqn:Ef;
    [|apply lookup_ge_None in Ef; lia].
  simpl. apply IH.
Qed.

Lemma index_new_total (b : list Fiber) lo hi :
  0 <= lo -> hi < Z.of_nat (length b) ->
  exists m, index_new b lo hi = Ok m.
Proof.
  intros Hlo Hhi. unfold index_new, range.
  assert (Hall : Forall (fun i => 0 <= i < Z.of_nat (length b))
                        (seqZ lo (hi - lo + 1))).
  { apply Forall_forall. intros i Hi. apply elem_of_seqZ in Hi. lia. }
  generalize (∅ : gmap string Z) as m0.
  induction Hall as [|i l Hi Hl IH]; intros m0; simpl; [by eexists|].
  rewrite idx_nat_Z by lia.
  destruct (b !! Z.to_nat i) as [f|] eqn:Ef;
    [|apply lookup_ge_None in Ef; lia].
  simpl. apply IH.
Qed.
Lemma mid_loop_remove_rest (a : list Fiber) bc am bm tmp acts bh bt :
  bt + 1 <= bh ->
  forall rest pre lg fuel,
  a = pre ++ rest -> (length rest < fuel)%nat ->
  mid_loop tg fuel
    (mkDiffSt (Some <$> a) bc (Z.of_nat (length pre)) bh
              (Z.of_nat (length a) - 1) bt am bm tmp acts lg)
  = rmap (fun evs =>
            mkDiffSt (Some <$> a) bc (Z.of_nat (length a)) bh
                     (Z.of_nat (length a) - 1) bt am bm tmp acts (lg ++ evs))
         (remove_all true rest).
Proof.
  intros Hb rest. induction rest as [|v rest IH]; intros pre lg fuel Ha Hf.
  - rewrite mid_loop_done.
    + subst a. rewrite !app_nil_r. cbn [remove_all rmap].
      by rewrite app_nil_r.
    + cbn [aHead aTail bHead bTail]. subst a. rewrite app_nil_r.
      apply orb_false_iff. split; apply Z.leb_gt; lia.
  - destruct fuel as [|fuel]; [simpl in Hf; lia|].
    rewrite mid_loop_go.
    2:{ cbn [aHead aTail bHead bTail]. apply orb_true_iff. left.
        apply Z.leb_le. subst a. rewrite length_app. simpl. lia. }
    rewrite (mid_step_remove_rest tg _ v).
    2:{ cbn [aCh aHead]. rewrite idx_nat_Z by lia. rewrite Nat2Z.id.
        rewrite list_lookup_fmap. subst a.
        by rewrite lookup_app_r, Nat.sub_diag by lia. }
    2:{ cbn [bHead bTail]. apply Z.leb_le. lia. }
    unfold st_remove. cbn [aCh bCh aHead bHead aTail bTail aMap bMap temp
                           actions dlog].
    change (remove_all true (v :: rest))
      with (e1 <-- removeElement v true ;;
            e2 <-- remove_all true rest ;; Ok (e1 ++ e2)).
    destruct (removeElement v true) as [e1| |]; try reflexivity.
    cbn [rbind].
    replace (Z.of_nat (length pre) + 1)
      with (Z.of_nat (length (pre ++ [v]))) by (rewrite length_app; simpl; lia).
    rewrite (IH (pre ++ [v]) (lg ++ e1) fuel).
    + destruct (remove_all true rest) as [e2| |]; try reflexivity.
      cbn [rbind rmap]. by rewrite app_assoc.
    + by rewrite <- app_assoc.
    + simpl in Hf. lia.
Qed.

Lemma mid_loop_insert_rest (b : list Fiber) am bm tmp lg :
  forall rest pre acts fuel,
  b = pre ++ rest -> (length rest < fuel)%nat ->
  mid_loop tg fuel
    (mkDiffSt [] b 0 (Z.of_nat (length pre)) (-1)
              (Z.of_nat (length b) - 1) am bm tmp acts lg)
  = Ok (mkDiffSt [] b 0 (Z.of_nat (length b)) (-1)
                 (Z.of_nat (length b) - 1) am bm tmp
                 (acts ++ ((fun x => mkAction (INSERT tg) (Some x) None)
                             <$> rest)) lg).
Proof.
  intros rest. induction rest as [|v rest IH]; intros pre acts fuel Hb Hf.
  - rewrite mid_loop_done.
    + subst b. rewrite !app_nil_r. reflexivity.
    + cbn [aHead aTail bHead bTail]. subst b. rewrite app_nil_r.
      apply orb_false_iff. split; apply Z.leb_gt; lia.
  - destruct fuel as [|fuel]; [simpl in Hf; lia|].
    rewrite mid_loop_go.
    2:{ cbn [aHead aTail bHead bTail]. apply orb_true_iff. right.
        apply Z.leb_le. subst b. rewrite length_app. simpl. lia. }
    rewrite mid_step_append.
    2:{ done. }
    2:{ cbn [bHead bTail]. apply Z.leb_gt. subst b. rewrite length_app.
        simpl. lia. }
    2:{ reflexivity. }
    unfold st_insert. cbn [aCh bCh aHead bHead aTail bTail aMap bMap temp
                           actions dlog rbind].
    rewrite (idx_nat_Z b) by lia. rewrite Nat2Z.id.
    replace (b !! length pre) with (Some v)
      by (subst b; by rewrite lookup_app_r, Nat.sub_diag by lia).
    replace (Z.of_nat (length pre) + 1)
      with (Z.of_nat (length (pre ++ [v]))) by (rewrite length_app; simpl; lia).
    rewrite (IH (pre ++ [v])).
    + rewrite fmap_cons. cbn [idx default]. by rewrite <- app_assoc.
    + by rewrite <- app_assoc.
    + simpl in Hf. lia.
Qed.
End DiffEmpty.

(** X3: with an empty new list, [diff] removes every old child, in the
    order of the old list, each with [removeElement(child, true)]; it
    returns no action and leaves the old array as it was.  It fails
    exactly when one of the removals does. *)
Theorem diff_all_removed (tg : TagTable) (a : list Fiber) :
  diff tg a []
  = rmap (fun evs => mkDiffOut [] [] (Some <$> a) evs) (remove_all true a).
Proof.
  unfold diff.
  rewrite tail_loop_done
    by (cbn [aHead aTail bHead bTail]; apply andb_false_r).
  cbn [rbind]. rewrite head_loop_done
    by (cbn [aHead aTail bHead bTail]; apply andb_false_r).
  cbn [rbind aCh bCh aHead bHead aTail bTail temp actions dlog].
  destruct (index_old_total a 0 (Z.of_nat (length a) - 1)) as [am ->];
    [lia..|].
  cbn [rbind length]. change (Z.of_nat 0) with 0.
  change (index_new [] 0 (0 - 1)) with (Ok (∅ : gmap string Z)).
  cbn [rbind].
  pose proof (mid_loop_remove_rest tg a [] am ∅ [] [] 0 (0 - 1) ltac:(lia)
                a [] [] (diff_fuel a []) eq_refl
                ltac:(unfold diff_fuel; lia)) as Hloop.
  change (Z.of_nat (length (@nil Fiber))) with 0 in Hloop. rewrite Hloop.
  destruct (remove_all true a); reflexivity.
Qed.

(** X4: with an empty old list, [diff] returns one INSERT action for
    every new child, in order and with no anchor ([before] undefined);
    the new children are left as they are and nothing is removed. *)
Theorem diff_all_inserted (tg : TagTable) (b : list Fiber) :
  diff tg [] b
  = Ok (mkDiffOut ((fun x => mkAction (INSERT tg) (Some x) None) <$> b)
                  b [] []).
Proof.
  unfold diff.
  rewrite tail_loop_done by reflexivity.
  cbn [rbind]. rewrite head_loop_done by reflexivity.
  cbn [rbind aCh bCh aHead bHead aTail bTail temp actions dlog fmap
       list_fmap length]. change (Z.of_nat 0) with 0.
  change (index_old [] 0 (0 - 1)) with (Ok (∅ : gmap string Z)).
  cbn [rbind].
  destruct (index_new_total b 0 (Z.of_nat (length b) - 1)) as [bm ->];
    [lia..|].
  cbn [rbind].
  pose proof (mid_loop_insert_rest tg b ∅ bm [] [] b [] [] (diff_fuel [] b)
                eq_refl ltac:(unfold diff_fuel; simpl; lia)) as Hloop.
  change (Z.of_nat (length (@nil Fiber))) with 0 in Hloop.
  change (0 - 1) with (-1). rewrite Hloop.
  reflexivity.
Qed.

(** ** Committing a tree once and again *)

Section CommitSettled.
Variable tg : TagTable.
Context {H : Type} `{Host H}.

Lemma settled_eq via f :
  settled via f
  = if via && memo f then
      match sibling f with Some s => settled true s | None => true end
    else
      match action f with None => true | Some _ => false end
      && match child f with Some c => settled true c | None => true end
      && match sibling f with Some s => settled true s | None => true end.
Proof. destruct f; reflexivity. Qed.

Lemma set_sibling_id f s : sibling f = s -> set_sibling s f = f.
Proof. destruct f; simpl; by intros ->. Qed.

Lemma set_idle_id f :
  action f = None ->
  set_sibling (sibling f) (set_children (kids f) (child f) (set_action None f))
  = f.
Proof. destruct f; simpl; by intros ->. Qed.

Lemma commit_self_idle pn f (h : H) :
  action f = None -> commit_self tg pn f h = Ok (h, [], set_action None f).
Proof. intros Ha. unfold commit_self. rewrite Ha. reflexivity. Qed.

Lemma commit_self_shape pn f (h h' : H) ev f' :
  commit_self tg pn f h = Ok (h', ev, f') ->
  action f' = None /\ memo f' = memo f.
Proof.
  unfold commit_self.
  repeat (case_match; cbn [rbind]; try discriminate);
    repeat match goal with
           | |- context [h_apply ?a ?b] =>
               destruct (h_apply a b); cbn [rbind]; try discriminate
           end;
    repeat (case_match; cbn [rbind]; try discriminate);
    repeat match goal with
           | |- context [h_apply ?a ?b] =>
               destruct (h_apply a b); cbn [rbind]; try discriminate
           end;
    intros [= <- <- <-]; split; reflexivity.
Qed.

(** X5: when [commit] (or [commitSibling]) returns, no fiber on its walk
    is left with an action: every visited fiber has [action = null]. *)
Theorem commit_clears_actions (fiber : Fiber) :
  forall via pn (h h' : H) ev f',
  commit_go tg via pn fiber h = Ok (h', ev, f') -> settled via f' = true.
Proof.
  induction fiber as [fiber IHc IHs] using Fiber_cs_ind.
  intros via pn h h' ev f'. rewrite commit_go_eq.
  destruct (via && memo fiber) eqn:Evm.
  - destruct (sibling fiber) as [s|] eqn:Es.
    + destruct (commit_go tg true pn s h) as [[[h1 e1] s1]| |] eqn:E1;
        cbn [rbind]; try discriminate.
      intros [= <- <- <-]. rewrite settled_eq.
      change (memo (set_sibling _ fiber)) with (memo fiber).
      change (sibling (set_sibling (Some s1) fiber)) with (Some s1).
      rewrite Evm. eapply IHs; eauto.
    + intros [= <- <- <-]. rewrite settled_eq, Evm, Es. reflexivity.
  - cbv zeta.
    assert (Hch : forall h1 e1 c1,
      (match child fiber with
       | Some c =>
           r <-- commit_go tg true (node fiber) c h ;;
           let '(h', ev, c') := r in Ok (h', ev, Some c')
       | None => Ok (h, [], None)
       end) = Ok (h1, e1, c1) ->
      match c1 with Some c => settled true c | None => true end = true).
    { intros h1 e1 c1. destruct (child fiber) as [c|] eqn:Ec.
      - destruct (commit_go tg true (node fiber) c h) as [[[h2 e2] c2]| |] eqn:E2;
          cbn [rbind]; try discriminate.
        intros [= <- <- <-]. eapply IHc; eauto.
      - by intros [= <- <- <-]. }
    destruct (match child fiber with Some c => _ | None => _ end)
      as [[[h1 e1] c1]| |]; cbn [rbind]; try discriminate.
    specialize (Hch _ _ _ eq_refl).
    destruct (commit_self tg pn fiber h1) as [[[h2 e2] f2]| |] eqn:E2;
      cbn [rbind]; try discriminate.
    apply commit_self_shape in E2 as [Ha Hm].
    assert (Hsb : forall h3 e3 s3,
      (match sibling fiber with
       | Some s =>
           r <-- commit_go tg true pn s h2 ;;
           let '(h', ev, s') := r in Ok (h', ev, Some s')
       | None => Ok (h2, [], None)
       end) = Ok (h3, e3, s3) ->
      match s3 with Some s => settled true s | None => true end = true).
    { intros h3 e3 s3. destruct (sibling fiber) as [s|] eqn:Es.
      - destruct (commit_go tg true pn s h2) as [[[h4 e4] s4]| |] eqn:E4;
          cbn [rbind]; try discriminate.
        intros [= <- <- <-]. eapply IHs; eauto.
      - by intros [= <- <- <-]. }
    destruct (match sibling fiber with Some s => _ | None => _ end)
      as [[[h3 e3] s3]| |]; cbn [rbind]; try discriminate.
    specialize (Hsb _ _ _ eq_refl).
    intros [= <- <- <-]. rewrite settled_eq.
    change (memo (set_sibling _ (set_children _ _ f2))) with (memo f2).
    change (action (set_sibling _ (set_children _ _ f2))) with (action f2).
    change (child (set_sibling _ (set_children _ c1 f2))) with c1.
    change (sibling (set_sibling s3 (set_children _ _ f2))) with s3.
    rewrite Hm, Evm, Ha, Hch, Hsb. reflexivity.
Qed.

(** X6: on a tree with nothing left to commit, [commit] (and
    [commitSibling]) succeeds, makes no call on the host other than
    binding refs, and leaves the host and the tree as they were. *)
Theorem commit_settled_noop (fiber : Fiber) :
  forall via pn (h : H),
  settled via fiber = true ->
  exists ev,
    commit_go tg via pn fiber h = Ok (h, ev, fiber)
    /\ Forall (fun e => is_refer e = true) ev.
Proof.
  induction fiber as [fiber IHc IHs] using Fiber_cs_ind.
  intros via pn h. rewrite settled_eq, commit_go_eq.
  destruct (via && memo fiber) eqn:Evm.
  - destruct (sibling fiber) as [s|] eqn:Es.
    + intros Hs. destruct (IHs s eq_refl true pn h Hs) as (ev & -> & Hev).
      exists ev. cbn [rbind]. cbv beta iota.
      by rewrite set_sibling_id.
    + intros _. exists []. split; [reflexivity|constructor].
  - destruct (action fiber) as [act|] eqn:Ea; [discriminate|].
    intros Hs. apply andb_true_iff in Hs as [Hs Hsb].
    cbn [andb] in Hs. rename Hs into Hch. cbv zeta.
    assert (Ec : exists e1,
      (match child fiber with
       | Some c =>
           r <-- commit_go tg true (node fiber) c h ;;
           let '(h', ev, c') := r in Ok (h', ev, Some c')
       | None => Ok (h, [], None)
       end) = Ok (h, e1, child fiber)
      /\ Forall (fun e => is_refer e = true) e1).
    { destruct (child fiber) as [c|] eqn:Ec.
      - destruct (IHc c eq_refl true (node fiber) h Hch) as (ev & -> & Hev).
        by exists ev.
      - exists []. split; [reflexivity|constructor]. }
    destruct Ec as (e1 & -> & He1). cbn [rbind]. cbv beta iota.
    rewrite commit_self_idle by done. cbn [rbind]. cbv beta iota.
    assert (Esb : exists e3,
      (match sibling fiber with
       | Some s =>
           r <-- commit_go tg true pn s h ;;
           let '(h', ev, s') := r in Ok (h', ev, Some s')
       | None => Ok (h, [], None)
       end) = Ok (h, e3, sibling fiber)
      /\ Forall (fun e => is_refer e = true) e3).
    { destruct (sibling fiber) as [s|] eqn:Es.
      - destruct (IHs s eq_refl true pn h Hsb) as (ev & -> & Hev).
        by exists ev.
      - exists []. split; [reflexivity|constructor]. }
    destruct Esb as (e3 & -> & He3). cbn [rbind]. cbv beta iota.
    eexists. split.
    + change (kids (set_action None fiber)) with (kids fiber).
      by rewrite set_idle_id.
    + repeat apply Forall_app_2; auto.
      destruct (ref fiber); repeat constructor.
Qed.
End CommitSettled.

(** ** Instances of the further properties *)

Lemma diff_one_action_per_child_witness :
  exists o, diff sample_tags old_p0 new_0p = Ok o
            /\ length (out_actions o) = length new_0p
            /\ length (out_bCh o) = length new_0p.
Proof.
  destruct (diff sample_tags old_p0 new_0p) as [o| |] eqn:E;
    [|exfalso; vm_compute in E; discriminate..].
  exists o. split; [reflexivity|].
  exact (diff_one_action_per_child sample_tags old_p0 new_0p o E).
Defined.

Lemma diff_every_child_justified_witness :
  exists o, diff sample_tags old_p0 new_0p = Ok o
            /\ new_0p !! 0%nat = Some (li 42 (KNum 0))
            /\ exists x' act,
                 out_bCh o !! 0%nat = Some x'
                 /\ out_actions o !! 0%nat = Some act
                 /\ justified sample_tags old_p0 (li 42 (KNum 0)) x' act.
Proof.
  destruct (diff sample_tags old_p0 new_0p) as [o| |] eqn:E;
    [|exfalso; vm_compute in E; discriminate..].
  exists o. split; [reflexivity|]. split; [reflexivity|].
  exact (diff_every_child_justified sample_tags old_p0 new_0p o 0%nat
           (li 42 (KNum 0)) E eq_refl).
Defined.

Lemma commit_clears_actions_witness :
  let B := bound 7 (li 3 (KStr "b")) in
  let f := set_action (Some (mkAction (INSERT sample_tags) (Some B) None)) B in
  exists h' ev f',
    commit_go (H:=Dom) sample_tags false (Some 4%nat) f sample_dom2
    = Ok (h', ev, f')
    /\ settled false f' = true.
Proof.
  intros B f.
  destruct (commit_go (H:=Dom) sample_tags false (Some 4%nat) f sample_dom2)
    as [[[h' ev] f']| |] eqn:E;
    [|exfalso; vm_compute in E; discriminate..].
  exists h', ev, f'. split; [reflexivity|].
  exact (commit_clears_actions (H:=Dom) sample_tags f false (Some 4%nat)
           sample_dom2 h' ev f' E).
Defined.

Lemma commit_settled_noop_witness :
  settled false comp_with_ref = true
  /\ exists ev,
       commit_go (H:=Dom) sample_tags false (Some 4%nat) comp_with_ref
                 sample_dom2
       = Ok (sample_dom2, ev, comp_with_ref)
       /\ Forall (fun e => is_refer e = true) ev.
Proof.
  split; [reflexivity|].
  apply (commit_settled_noop (H:=Dom) sample_tags comp_with_ref false
           (Some 4%nat) sample_dom2). reflexivity.
Defined.

(** ** The work loop of the scheduler *)

Section FlushFacts.
Variable has_queueMicrotask has_MessageChannel : bool.
Variable now : nat -> Z.
Variable Rt : Type.
Variable run : TaskCb -> Z -> nat -> Rt
               -> option (option TaskCb * list Call * nat * Rt).

Lemma startTransition_push cb s :
  startTransition cb s
  = mkSched (queue s) (transitions s ++ [cb]) (translate s)
            (posted s ++ [translate s]).
Proof.
  unfold startTransition.
  replace (Z.of_nat (length (transitions s ++ [cb])) =? 0) with false;
    [reflexivity|].
  symmetry. apply Z.eqb_neq. rewrite length_app. simpl. lia.
Qed.

(** An invariant of the scheduler state that one turn of the loop keeps
    is kept by the loop. *)
Lemma flush_loop_inv (P : FlushSt Rt -> Prop) :
  (forall st, P st -> P (shouldYield now st).2) ->
  (forall st job cb next calls k rest',
     P st -> peek (queue (f_sched st)) = Some job ->
     callback job = Some cb ->
     run cb (f_deadline st) (f_reads st) (f_rest st)
     = Some (next, calls, k, rest') ->
     P (after_run st next calls k rest')) ->
  forall fuel st st',
    P st -> flush_loop now run fuel st = Ok st' -> P st'.
Proof.
  intros Hy Hrun. induction fuel as [|fuel IH]; intros st st' HP; simpl.
  - destruct (peek (queue (f_sched st))) as [job|]; [|by intros [= <-]].
    destruct (f_deadline st <=? now (f_reads st)) eqn:Ey; [|discriminate].
    intros [= <-]. specialize (Hy st HP). unfold shouldYield in Hy.
    simpl in Hy. exact Hy.
  - destruct (peek (queue (f_sched st))) as [job|] eqn:Ej;
      [|by intros [= <-]].
    pose proof (Hy st HP) as HP1. unfold shouldYield in HP1. simpl in HP1.
    destruct (f_deadline st <=? now (f_reads st)) eqn:Ey;
      [by intros [= <-]|].
    destruct (callback job) as [cb|] eqn:Ecb; [|discriminate].
    destruct (run cb _ _ _) as [[[[next calls] k] rest']|] eqn:Er;
      [|discriminate].
    apply IH. eapply Hrun; eauto.
Qed.

Lemma flush_loop_deadline fuel (st st' : FlushSt Rt) :
  flush_loop now run fuel st = Ok st' -> f_deadline st' = f_deadline st.
Proof.
  apply (flush_loop_inv (fun x => f_deadline x = f_deadline st)).
  - by intros x Hx.
  - by intros x job cb next calls k rest' Hx _ _ _.
  - reflexivity.
Qed.

(** The loop stops on an empty queue or right after a reading of the
    clock that has reached the deadline. *)
Lemma flush_loop_exit fuel : forall (st st' : FlushSt Rt),
  flush_loop now run fuel st = Ok st' ->
  queue (f_sched st') = []
  \/ exists r, f_reads st' = S r /\ f_deadline st' <= now r.
Proof.
  induction fuel as [|fuel IH]; intros st st'; simpl.
  - destruct (queue (f_sched st)) as [|job q] eqn:Eq; simpl.
    + intros [= <-]. by left.
    + destruct (Z.leb_spec (f_deadline st) (now (f_reads st)));
        [|discriminate].
      intros [= <-]. right. exists (f_reads st). by split.
  - destruct (queue (f_sched st)) as [|job q] eqn:Eq; simpl.
    + intros [= <-]. by left.
    + destruct (Z.leb_spec (f_deadline st) (now (f_reads st))).
      * intros [= <-]. right. exists (f_reads st). by split.
      * destruct (callback job) as [cb|]; [|discriminate].
        destruct (run cb _ _ _) as [[[[next calls] k] rest']|];
          [|discriminate].
        apply IH.
Qed.

Lemma flush_loop_fuel (N : nat) fuel : forall (st : FlushSt Rt),
  (forall n, (N <= n)%nat -> f_deadline st <= now n) ->
  (N <= f_reads st + fuel)%nat ->
  flush_loop now run fuel st ≠ OutOfFuel.
Proof.
  induction fuel as [|fuel IH]; intros st Hd Hf; simpl.
  - destruct (peek (queue (f_sched st))); [|discriminate].
    destruct (Z.leb_spec (f_deadline st) (now (f_reads st)));
      [discriminate|].
    specialize (Hd (f_reads st)). lia.
  - destruct (peek (queue (f_sched st))); [|discriminate].
    destruct (f_deadline st <=? now (f_reads st)); [discriminate|].
    destruct (callback t) as [cb|]; [|discriminate].
    destruct (run cb _ _ _) as [[[[next calls] k] rest']|];
      [|discriminate].
    apply IH; simpl; [exact Hd|lia].
Qed.

(** The work items that a list of calls appends to the queue. *)
Lemma apply_calls_queue calls : forall s,
  queue (foldl apply_call s calls)
  = queue s ++ omap (fun c => match c with
                              | CSchedule cb => Some {| callback := Some cb |}
                              | CStart _ => None
                              end) calls.
Proof.
  induction calls as [|c calls IH]; intros s; simpl.
  - by rewrite app_nil_r.
  - rewrite IH. destruct c as [cb|t]; simpl.
    + unfold schedule. rewrite startTransition_push. simpl.
      by rewrite <- app_assoc.
    + by rewrite startTransition_push.
Qed.

Lemma apply_calls_surplus calls : forall s,
  dispatch_surplus (foldl apply_call s calls) = dispatch_surplus s.
Proof.
  induction calls as [|c calls IH]; intros s; simpl; [reflexivity|].
  rewrite IH. destruct c as [cb|t]; simpl; unfold schedule;
    rewrite startTransition_push; unfold dispatch_surplus; simpl;
    rewrite !length_app; simpl; lia.
Qed.

Lemma after_run_callable (st : FlushSt Rt) job next calls k rest' :
  callable (f_sched st) -> peek (queue (f_sched st)) = Some job ->
  callable (f_sched (after_run st next calls k rest')).
Proof.
  unfold callable, after_run, peek. intros Hc Hj.
  destruct (queue (f_sched st)) as [|j q] eqn:Eq; [discriminate|].
  apply Forall_cons in Hc as [_ Hq].
  assert (Hnew : Forall (fun t => is_Some (callback t))
                   (q ++ omap (fun c => match c with
                                        | CSchedule cb =>
                                            Some {| callback := Some cb |}
                                        | CStart _ => None
                                        end) calls)).
  { apply Forall_app. split; [exact Hq|].
    apply Forall_forall. intros t Ht.
    apply list_elem_of_omap in Ht as (c & _ & Hc).
    destruct c; [|discriminate]. injection Hc as <-. by eexists. }
  destruct next as [n|]; simpl; rewrite apply_calls_queue; simpl;
    rewrite Eq; simpl.
  - apply Forall_cons. split; [by eexists|exact Hnew].
  - exact Hnew.
Qed.

Lemma after_run_surplus (st : FlushSt Rt) next calls k rest' :
  dispatch_surplus (f_sched (after_run st next calls k rest'))
  = dispatch_surplus (f_sched st).
Proof.
  unfold after_run. simpl.
  transitivity (dispatch_surplus
                  (foldl apply_call (set_head_callback None (f_sched st))
                         calls)).
  - by destruct next.
  - by rewrite apply_calls_surplus.
Qed.

Lemma flush_loop_no_throw fuel : forall (st : FlushSt Rt),
  (forall cb d r rt, is_Some (run cb d r rt)) ->
  callable (f_sched st) ->
  flush_loop now run fuel st ≠ Throw.
Proof.
  intros st Hrun. revert st.
  induction fuel as [|fuel IH]; intros st Hc; simpl.
  - destruct (peek (queue (f_sched st))); [|discriminate].
    destruct (f_deadline st <=? now (f_reads st)); discriminate.
  - destruct (peek (queue (f_sched st))) as [job|] eqn:Ej; [|discriminate].
    destruct (f_deadline st <=? now (f_reads st)); [discriminate|].
    assert (Hjob : is_Some (callback job)).
    { unfold callable, peek in *.
      destruct (queue (f_sched st)) as [|j q]; [discriminate|].
      injection Ej as ->. by apply Forall_cons in Hc as [? _]. }
    destruct Hjob as [cb Ecb]. rewrite Ecb.
    destruct (Hrun cb (f_deadline st) (S (f_reads st)) (f_rest st))
      as [[[[next calls] k] rest'] Er].
    rewrite Er. apply IH.
    eapply (after_run_callable
              (mkFlushSt (f_sched st) (S (f_reads st)) (f_deadline st)
                         (f_rest st))); eauto.
Qed.

(** X7: when [flush] returns with work left in the queue, it has queued
    itself again: [flush] is the last callback of [transitions], and the
    last dispatch requested from the host is one on the channel that
    [translate] was just set to.  With a clock that never runs backwards
    that channel is the one of [task(true)], never a microtask: the loop
    was left because the deadline had passed. *)
Theorem flush_reschedules fuel (st st' : FlushSt Rt) :
  flush has_queueMicrotask has_MessageChannel now run fuel st = Ok st' ->
  queue (f_sched st') ≠ [] ->
  (exists y ts ps,
     f_sched st'
     = mkSched (queue (f_sched st')) (ts ++ [TFlush])
               (task has_queueMicrotask has_MessageChannel y)
               (ps ++ [task has_queueMicrotask has_MessageChannel y]))
  /\ ((forall n m, (n <= m)%nat -> now n <= now m) ->
      translate (f_sched st')
      = task has_queueMicrotask has_MessageChannel true
      /\ translate (f_sched st') ≠ Microtask).
Proof.
  unfold flush. simpl.
  destruct (flush_loop now run fuel _) as [st2| |] eqn:El;
    cbn [rbind]; try discriminate.
  destruct (peek (queue (f_sched st2))) as [job|] eqn:Ej.
  - simpl. rewrite startTransition_push. simpl. intros [= <-] _. simpl.
    split; [by eauto|].
    intros Hmono. apply flush_loop_exit in El as [Eq|(r & Er & Hr)].
    + rewrite Eq in Ej. discriminate.
    + replace (f_deadline st2 <=? now (f_reads st2)) with true.
      * split; [reflexivity|].
        unfold task. simpl. by destruct has_MessageChannel.
      * symmetry. apply Z.leb_le. rewrite Er.
        specialize (Hmono r (S r)). lia.
  - intros [= <-] Hq. unfold peek in Ej.
    destruct (queue (f_sched st2)); [done|discriminate].
Qed.

(** X8: [flush] returns when every queued work item has a callback, no
    callback throws, and the clock reaches the deadline for good by its
    [N]-th reading: the loop makes no more than [N] turns. *)
Theorem flush_returns fuel (N : nat) (st : FlushSt Rt) :
  callable (f_sched st) ->
  (forall cb d r rt, is_Some (run cb d r rt)) ->
  (forall n, (N <= n)%nat -> now (f_reads st) + threshold <= now n) ->
  (N <= S (f_reads st) + fuel)%nat ->
  exists st',
    flush has_queueMicrotask has_MessageChannel now run fuel st = Ok st'.
Proof.
  intros Hc Hrun Hd Hf. unfold flush. simpl.
  set (st1 := mkFlushSt (f_sched st) (S (f_reads st))
                        (now (f_reads st) + threshold) (f_rest st)).
  pose proof (flush_loop_fuel N fuel st1 Hd Hf) as Hfuel.
  pose proof (flush_loop_no_throw fuel st1 Hrun Hc) as Hthrow.
  destruct (flush_loop now run fuel st1) as [st2| |]; [|done..].
  cbn [rbind]. destruct (peek (queue (f_sched st2))); simpl; eauto.
Qed.

(** X9: [flush] keeps the queues in order: if every queued work item had
    a callback before, every one has a callback afterwards, and the
    number of dispatches requested from the host has grown by exactly the
    number of callbacks added to [transitions], whatever the callbacks
    scheduled. *)
Theorem flush_keeps_queues fuel (st st' : FlushSt Rt) :
  callable (f_sched st) ->
  flush has_queueMicrotask has_MessageChannel now run fuel st = Ok st' ->
  callable (f_sched st')
  /\ dispatch_surplus (f_sched st') = dispatch_surplus (f_sched st).
Proof.
  intros Hc. unfold flush. simpl.
  set (st1 := mkFlushSt (f_sched st) (S (f_reads st))
                        (now (f_reads st) + threshold) (f_rest st)).
  destruct (flush_loop now run fuel st1) as [st2| |] eqn:El;
    cbn [rbind]; try discriminate.
  assert (H2 : callable (f_sched st2)
               /\ dispatch_surplus (f_sched st2)
                  = dispatch_surplus (f_sched st)).
  { revert El.
    apply (flush_loop_inv
             (fun x => callable (f_sched x)
                       /\ dispatch_surplus (f_sched x)
                          = dispatch_surplus (f_sched st))).
    - by intros x Hx.
    - intros x job cb next calls k rest' [Hx1 Hx2] Hj _ _. split.
      + by eapply after_run_callable.
      + by rewrite after_run_surplus.
    - by split. }
  destruct H2 as [Hc2 Hs2].
  destruct (peek (queue (f_sched st2))); simpl.
  - rewrite startTransition_push. intros [= <-]. simpl. split; [exact Hc2|].
    rewrite <- Hs2. unfold dispatch_surplus. simpl.
    rewrite !length_app. simpl. lia.
  - by intros [= <-].
Qed.
End FlushFacts.

Lemma sample_flush_callable : callable (f_sched sample_flush_st).
Proof. repeat constructor; by eexists. Qed.

Lemma flush_reschedules_witness :
  exists st',
    flush true true sample_now sample_run 10 sample_flush_st = Ok st'
    /\ queue (f_sched st') ≠ []
    /\ translate (f_sched st') = MessagePort.
Proof.
  assert (E : exists st',
             flush true true sample_now sample_run 10 sample_flush_st = Ok st'
             /\ queue (f_sched st') ≠ []).
  { vm_compute. eexists. split; [reflexivity|discriminate]. }
  destruct E as (st' & E & Hq). exists st'.
  split; [exact E|]. split; [exact Hq|].
  destruct (flush_reschedules true true sample_now unit sample_run 10%nat
              sample_flush_st st' E Hq) as [_ Hm].
  apply Hm. intros n m Hnm. unfold sample_now. lia.
Defined.

Lemma flush_returns_witness :
  callable (f_sched sample_flush_st)
  /\ (forall cb d r rt, is_Some (sample_run cb d r rt))
  /\ (forall n, (2 <= n)%nat ->
                sample_now (f_reads sample_flush_st) + threshold
                <= sample_now n)
  /\ exists st',
       flush true true sample_now sample_run 10 sample_flush_st = Ok st'.
Proof.
  assert (Hrun : forall cb d r rt, is_Some (sample_run cb d r rt))
    by (intros [[|n]|n] d r rt; eexists; reflexivity).
  assert (Hd : forall n, (2 <= n)%nat ->
                 sample_now (f_reads sample_flush_st) + threshold
                 <= sample_now n)
    by (intros n Hn; unfold sample_now, threshold; simpl; lia).
  split; [exact sample_flush_callable|]. split; [exact Hrun|].
  split; [exact Hd|].
  apply (flush_returns true true sample_now unit sample_run 10%nat 2%nat
           sample_flush_st sample_flush_callable Hrun Hd).
  simpl. lia.
Defined.

Lemma flush_keeps_queues_witness :
  callable (f_sched sample_flush_st)
  /\ exists st',
       flush true true sample_now sample_run 10 sample_flush_st = Ok st'
       /\ callable (f_sched st')
       /\ dispatch_surplus (f_sched st')
          = dispatch_surplus (f_sched sample_flush_st).
Proof.
  split; [exact sample_flush_callable|].
  destruct (flush true true sample_now sample_run 10 sample_flush_st)
    as [st'| |] eqn:E; [|exfalso; vm_compute in E; discriminate..].
  exists st'. split; [reflexivity|].
  exact (flush_keeps_queues true true sample_now unit sample_run 10%nat
           sample_flush_st st' sample_flush_callable E).
Defined.

(** ** The children of a reconciled fiber *)

Lemma link_length l : length (link l) = length l.
Proof.
  induction l as [|c r IH]; simpl; [done|].
  destruct (link r) as [|n r'] eqn:E; simpl in *; [|by rewrite IH].
  by rewrite <- IH.
Qed.

(** [link] changes the [sibling] field only, and sets it to the next
    fiber of the list wherever there is one. *)
Lemma link_lookup l : forall i c,
  link l !! i = Some c ->
  exists c0, l !! i = Some c0
             /\ c = match link l !! S i with
                    | Some n => set_sibling (Some n) c0
                    | None => c0
                    end.
Proof.
  induction l as [|x r IH]; intros i c; simpl; [done|].
  pose proof (link_length r) as Hlen.
  destruct (link r) as [|n r'] eqn:E.
  - destruct r; [|discriminate]. destruct i; simpl; [|done].
    intros [= <-]. by exists x.
  - destruct i as [|i]; simpl.
    + intros [= <-]. by exists x.
    + intros Hc. apply (IH i c Hc).
Qed.

Section ReconcileChildren.
Variable tg : TagTable.
Context {H : Type} `{Host H}.

(** X10: when [reconcileChidren] returns, the new children are the kids
    of the fiber, one for one and in order; every kid carries an action;
    each kid but the last has the next kid as its sibling, and the first
    kid is [fiber.child].  With no new children, [fiber.child] is left as
    it was. *)
Theorem reconcileChidren_links (fiber : Fiber) (children : list Fiber)
  (w w' : World (H:=H)) (f' : Fiber) :
  reconcileChidren tg fiber children w = Ok (f', w') ->
  exists l,
    kids f' = Some l /\ length l = length children
    /\ child f' = match l with c :: _ => Some c | [] => child fiber end
    /\ (forall i c, l !! i = Some c ->
          is_Some (action c)
          /\ exists x, children !! i = Some x /\ fid c = fid x)
    /\ (forall i c n, l !! i = Some c -> l !! S i = Some n ->
          sibling c = Some n).
Proof.
  unfold reconcileChidren.
  destruct (diff tg _ children) as [d| |] eqn:Ed; cbn [rbind];
    try discriminate.
  destruct (apply_all _ _) as [h'| |]; cbn [rbind]; try discriminate.
  intros [= <- <-].
  set (stamped := imap _ (out_bCh d)).
  destruct (diff_final_state tg _ children d Ed)
    as (s & Hp & Hlt & Hacts & Hb).
  assert (Hlb : length (out_bCh d) = length children).
  { rewrite Hb. by destruct Hp as (_ & _ & _ & ? & _). }
  assert (Hla : length (out_actions d) = length children).
  { rewrite Hacts, length_app, length_reverse.
    destruct Hp as (? & ? & ? & ? & ? & ? & _). lia. }
  assert (Hls : length stamped = length children).
  { subst stamped. by rewrite length_imap. }
  exists (link stamped). split; [reflexivity|].
  split; [by rewrite link_length|].
  split; [reflexivity|]. split.
  - intros i c Hc. apply link_lookup in Hc as (c0 & Hc0 & ->).
    subst stamped. rewrite list_lookup_imap in Hc0.
    destruct (out_bCh d !! i) as [y|] eqn:Ey; [|discriminate].
    simpl in Hc0.
    assert (Hi : (i < length children)%nat).
    { rewrite <- Hlb. by eapply lookup_lt_Some. }
    destruct (lookup_lt_is_Some_2 (out_actions d) i) as [act Hact]; [lia|].
    destruct (lookup_lt_is_Some_2 children i Hi) as [x Hx].
    destruct (diff_out_fid tg _ children d i x Ed Hx) as (y' & Hy' & Hj).
    rewrite Ey in Hy'. injection Hy' as <-.
    unfold Action in *. rewrite Hact in Hc0.
    split.
    + destruct (link _ !! S i); injection Hc0 as <-;
        destruct (negb _); simpl; by eexists.
    + exists x. split; [done|].
      destruct (link _ !! S i); injection Hc0 as <-;
        destruct (negb _); simpl; done.
  - intros i c n Hc Hn. apply link_lookup in Hc as (c0 & _ & ->).
    by rewrite Hn.
Qed.
End ReconcileChildren.

(** ** The way up from a finished fiber *)

Section SiblingWalk.
Variable tg : TagTable.
Variable effect_result : nat -> option nat.
Context {H : Type} `{Host H}.

Lemma bubble_keeps f (w : World (H:=H)) f' w' :
  bubble effect_result f w = Ok (f', w') ->
  dirty f' = dirty f /\ sibling f' = sibling f /\ w_host w' = w_host w.
Proof.
  unfold bubble.
  destruct (isComp f); [|by intros [= <- <-]].
  destruct (hooks f) as [hk|]; [|by intros [= <- <-]].
  destruct (side _ _ _) as [[ev sl]| |]; simpl; try discriminate.
  by intros [= <- <-].
Qed.

(** X11: on a way up with no dirty fiber, [getSibling] edits nothing on
    the host and returns the sibling of the nearest fiber that has one,
    starting with the fiber itself and going through its parents; it
    returns [null] when no fiber on the way has a sibling. *)
Theorem getSibling_clean_path (parents : list Fiber) :
  forall (f : Fiber) (w w' : World (H:=H)) (pos : Pos),
  Forall (fun g => dirty g = false) (f :: parents) ->
  getSibling tg effect_result f parents w = Ok (pos, w') ->
  w_host w' = w_host w /\ focus pos = next_sibling (f :: parents).
Proof.
  induction parents as [|q ps IH]; intros f w w' pos Hd; simpl;
    destruct (bubble effect_result f w) as [[f1 w1]| |] eqn:Eb;
    simpl; try discriminate;
    apply bubble_keeps in Eb as (Ed & Es & Eh);
    apply Forall_cons in Hd as [Hf Hps];
    rewrite Ed, Hf, Es.
  - destruct (sibling f); by intros [= <- <-].
  - destruct (sibling f) as [s|]; [by intros [= <- <-]|].
    intros E. apply IH in E as [E1 E2].
    + split; [congruence|]. rewrite E2. by destruct q.
    + apply Forall_cons in Hps as [Hq Hps].
      apply Forall_cons. split; [|done]. by destruct q.
Qed.

End SiblingWalk.

Lemma reconcileChidren_links_witness :
  exists f' w',
    reconcileChidren (H:=Dom) sample_tags (bound 4 (li 1 KNull)) new_0p
                     sample_world
    = Ok (f', w')
    /\ exists l, kids f' = Some l /\ length l = 2%nat
                 /\ child f' = head l.
Proof.
  destruct (reconcileChidren (H:=Dom) sample_tags (bound 4 (li 1 KNull))
              new_0p sample_world) as [[f' w']| |] eqn:E;
    [|exfalso; vm_compute in E; discriminate..].
  exists f', w'. split; [reflexivity|].
  destruct (reconcileChidren_links (H:=Dom) sample_tags
              (bound 4 (li 1 KNull)) new_0p sample_world w' f' E)
    as (l & Hk & Hl & Hc & _).
  exists l. split; [exact Hk|]. split; [exact Hl|].
  rewrite Hc. destruct l; [discriminate|reflexivity].
Defined.

Lemma getSibling_clean_path_witness :
  let f := set_sibling (Some (li 2 KNull)) (li 1 KNull) in
  let p := bound 4 (li 0 KNull) in
  Forall (fun g => dirty g = false) [f; p]
  /\ exists pos w',
       getSibling (H:=Dom) sample_tags (fun _ => None) f [p] sample_world
       = Ok (pos, w')
       /\ w_host w' = sample_dom
       /\ focus pos = Some (li 2 KNull).
Proof.
  intros f p.
  assert (Hd : Forall (fun g => dirty g = false) [f; p])
    by (repeat constructor).
  split; [exact Hd|].
  destruct (getSibling (H:=Dom) sample_tags (fun _ => None) f [p]
              sample_world) as [[pos w']| |] eqn:E;
    [|exfalso; vm_compute in E; discriminate..].
  exists pos, w'. split; [reflexivity|].
  exact (getSibling_clean_path (H:=Dom) sample_tags (fun _ => None) [p] f
           sample_world w' pos Hd E).
Defined.

(** ** The children that [h] stores *)

Lemma FreNode_nested_ind (P : Hts.FreNode -> Prop) :
  (forall v, Hts.isArr v = false -> P v) ->
  (forall l, Forall P l -> P (Hts.NArr l)) ->
  forall v, P v.
Proof.
  intros Hleaf Harr. fix IH 1. intros v.
  destruct v as [| | | | | | |l]; try (apply Hleaf; reflexivity).
  apply Harr. induction l as [|x l IHl]; constructor; [apply IH|exact IHl].
Qed.

Lemma flat_one_arr l t : Hts.flat_one (Hts.NArr l) t = Hts.flat l t.
Proof.
  unfold Hts.flat. simpl. revert t.
  induction l as [|x l IH]; intros t; simpl; [reflexivity|apply IH].
Qed.

Lemma flat_cons v l t : Hts.flat (v :: l) t = Hts.flat l (Hts.flat_one v t).
Proof. reflexivity. Qed.

Lemma flat_one_acc v : forall t, Hts.flat_one v t = t ++ Hts.flat_one v [].
Proof.
  induction v as [v Hv|l IH] using FreNode_nested_ind; intros t.
  - destruct v; try discriminate; simpl; by rewrite ?app_nil_r.
  - rewrite !flat_one_arr. revert t.
    induction IH as [|x l Hx Hl IHl]; intros t.
    + by rewrite app_nil_r.
    + rewrite !flat_cons. rewrite IHl, (IHl (Hts.flat_one x [])), Hx.
      by rewrite app_assoc.
Qed.

Lemma flat_acc l t : Hts.flat l t = t ++ Hts.flat l [].
Proof.
  rewrite <- !flat_one_arr. apply flat_one_acc.
Qed.

Lemma flat_app l1 l2 :
  Hts.flat (l1 ++ l2) [] = Hts.flat l1 [] ++ Hts.flat l2 [].
Proof.
  unfold Hts.flat at 1. rewrite foldl_app. fold (Hts.flat l1 []).
  fold (Hts.flat l2 (Hts.flat l1 [])). apply flat_acc.
Qed.

Lemma flat_one_renderable v : Forall (fun x => renderable x = true)
                                     (Hts.flat_one v []).
Proof.
  induction v as [v Hv|l IH] using FreNode_nested_ind.
  - destruct v; try discriminate; simpl; repeat constructor.
  - rewrite flat_one_arr.
    induction IH as [|x l Hx Hl IHl]; [constructor|].
    rewrite flat_cons, flat_acc. by apply Forall_app.
Qed.

Lemma flat_all_renderable l :
  Forall (fun x => renderable x = true) (Hts.flat l []).
Proof. rewrite <- flat_one_arr. apply flat_one_renderable. Qed.

Lemma flat_renderable_id l :
  Forall (fun x => renderable x = true) l -> Hts.flat l [] = l.
Proof.
  induction 1 as [|x l Hx Hl IH]; [reflexivity|].
  rewrite flat_cons, flat_acc, IH.
  destruct x; try discriminate; reflexivity.
Qed.

(** X12: whatever the nesting of the arrays given to [flat], the result
    holds only objects that are not arrays (vnodes and text nodes): no
    array, no [null], [undefined] or boolean, and no string or number,
    which have become text nodes. *)
Theorem flat_renderable (arr : list Hts.FreNode) :
  Forall (fun x => renderable x = true) (Hts.flat arr [])
  /\ forall l r, Hts.flat (Hts.NArr l :: r) [] = Hts.flat (l ++ r) [].
Proof.
  split; [apply flat_all_renderable|].
  intros l r. rewrite flat_cons, flat_one_arr, flat_acc, flat_app.
  reflexivity.
Qed.

(** X13: flattening a flattened array changes nothing. *)
Theorem flat_idempotent (arr : list Hts.FreNode) :
  Hts.flat (Hts.flat arr []) [] = Hts.flat arr [].
Proof. apply flat_renderable_id, flat_all_renderable. Qed.

(** X14: the children that [h] leaves in [props.children] are read back
    by [arrayfy] as the flattened children, whenever there is a
    renderable child or [props.children] was falsy.  Otherwise, that is
    when [props.children] was a truthy value with nothing renderable in
    it, [h] leaves [props.children] as it was, and [arrayfy] reads back
    the raw value. *)
Theorem h_children_round_trip (type : FType) (props : option Hts.Props)
  (kids : list Hts.FreNode) :
  let p := default (Hts.mkProps Hts.NUndef Hts.NUndef Hts.NUndef) props in
  let flattened :=
    Hts.flat (Hts.arrayfy (Hts.or_else (Hts.children p) (Hts.NArr kids))) []
  in
  let stored := Hts.children (Hts.vprops (Hts.h type props kids)) in
  (flattened ≠ [] \/ Hts.truthy (Hts.children p) = false ->
   Hts.arrayfy stored = flattened)
  /\ (flattened = [] -> stored = Hts.children p).
Proof.
  intros p flattened stored.
  assert (Hr : Forall (fun x => renderable x = true) flattened)
    by apply flat_all_renderable.
  assert (Hs : stored = match flattened with
                        | [] => Hts.children p
                        | [k] => k
                        | _ => Hts.NArr flattened
                        end) by reflexivity.
  split.
  - intros Hc. rewrite Hs. destruct flattened as [|k [|k' fl]].
    + destruct Hc as [Hc|Hc]; [done|]. unfold Hts.arrayfy. by rewrite Hc.
    + apply Forall_cons in Hr as [Hk _].
      destruct k; try discriminate; reflexivity.
    + reflexivity.
  - intros Hf. rewrite Hs, Hf. reflexivity.
Qed.

(** ** The shallow comparison of props *)

(** When [shouldUpdate] answers that nothing changed: every own property
    of [a] is in [b] (own or inherited), and every own property of [b]
    reads the same on [a]. *)
Lemma shouldUpdate_false_iff (a b : Props) :
  shouldUpdate (Some a) b = Ok false
  <-> (forall i, is_Some (a !! i) -> has_prop b i = true)
      /\ (forall i v, b !! i = Some v -> get_prop a i = v).
Proof.
  unfold shouldUpdate. split.
  - intros [= E]. apply orb_false_iff in E as [E1 E2]. split.
    + intros i [v Hv]. destruct (has_prop b i) eqn:Eh; [done|].
      exfalso. apply not_true_iff_false in E1. apply E1.
      apply existsb_exists. exists (i, v). split.
      * by apply list_elem_of_In, elem_of_map_to_list.
      * simpl. by rewrite Eh.
    + intros i v Hv. destruct (decide (get_prop a i = v)) as [|Hne]; [done|].
      exfalso. apply not_true_iff_false in E2. apply E2.
      apply existsb_exists. exists (i, v). split.
      * by apply list_elem_of_In, elem_of_map_to_list.
      * unfold strict_ne. simpl. by rewrite bool_decide_eq_false_2.
  - intros [H1 H2]. f_equal. apply orb_false_iff. split.
    + apply not_true_is_false. intros E.
      apply existsb_exists in E as ([k v] & Hin & E).
      apply list_elem_of_In, elem_of_map_to_list in Hin. simpl in E.
      rewrite H1 in E by (by eexists). discriminate.
    + apply not_true_is_false. intros E.
      apply existsb_exists in E as ([k v] & Hin & E).
      apply list_elem_of_In, elem_of_map_to_list in Hin.
      unfold strict_ne in E. simpl in E.
      rewrite (H2 k v Hin), bool_decide_eq_true_2 in E by done.
      discriminate.
Qed.

(** X15: on props objects none of whose property names is a member
    inherited from [Object.prototype], and with no property of the second
    one set to [undefined], [shouldUpdate] reports no change exactly when
    the two objects have the same properties with identical values. *)
Theorem shouldUpdate_detects_change (a b : Props) :
  (forall i, is_Some (a !! i) \/ is_Some (b !! i) -> is_proto_name i = false) ->
  (forall i, b !! i ≠ Some VUndef) ->
  shouldUpdate (Some a) b = Ok false <-> a = b.
Proof.
  intros Hp Hu. rewrite shouldUpdate_false_iff. split.
  - intros [H1 H2]. apply map_eq. intros i.
    destruct (b !! i) as [v|] eqn:Eb.
    + specialize (H2 i v Eb). unfold get_prop in H2.
      destruct (a !! i) as [v'|]; [by subst|].
      rewrite Hp in H2 by (right; by eexists). subst v.
      by destruct (Hu i).
    + destruct (a !! i) as [v'|] eqn:Ea; [|done].
      specialize (H1 i ltac:(by eexists)). unfold has_prop in H1.
      rewrite Eb, Hp in H1 by (left; by eexists).
      rewrite bool_decide_eq_false_2 in H1 by (by intros [? ?]).
      discriminate.
  - intros ->. split.
    + intros i Hi. unfold has_prop. by rewrite bool_decide_eq_true_2.
    + intros i v Hv. unfold get_prop. by rewrite Hv.
Qed.

(** X16: two changes that [shouldUpdate] does not see.  A property named
    like a member of [Object.prototype] that is dropped goes unnoticed
    ([name in b] is true through the prototype), and so does a property
    that is added with the value [undefined]. *)
Theorem shouldUpdate_blind_spots (b : Props) (name : string) (v : JVal) :
  b !! name = None ->
  (is_proto_name name = true ->
   shouldUpdate (Some (<[name := v]> b)) b = Ok false)
  /\ (is_proto_name name = false ->
      shouldUpdate (Some b) (<[name := VUndef]> b) = Ok false).
Proof.
  intros Hb. split; intros Hp; apply shouldUpdate_false_iff; split.
  - intros i Hi. unfold has_prop.
    destruct (decide (i = name)) as [->|Hne]; [by rewrite Hp, orb_true_r|].
    rewrite lookup_insert_ne in Hi by done.
    by rewrite bool_decide_eq_true_2.
  - intros i w Hw. unfold get_prop.
    destruct (decide (i = name)) as [->|Hne]; [congruence|].
    by rewrite lookup_insert_ne, Hw by done.
  - intros i Hi. unfold has_prop.
    destruct (decide (i = name)) as [->|Hne].
    + rewrite Hb in Hi. by destruct Hi.
    + rewrite lookup_insert_ne by done. by rewrite bool_decide_eq_true_2.
  - intros i w Hw. unfold get_prop.
    destruct (decide (i = name)) as [->|Hne].
    + rewrite lookup_insert_eq in Hw. injection Hw as <-. by rewrite Hb, Hp.
    + rewrite lookup_insert_ne in Hw by done. by rewrite Hw.
Qed.

Lemma shouldUpdate_detects_change_witness :
  let a : Props := {[ "id"%string := VStr "x" ]} in
  let b : Props := {[ "id"%string := VStr "y" ]} in
  (forall i, is_Some (a !! i) \/ is_Some (b !! i) -> is_proto_name i = false)
  /\ (forall i, b !! i ≠ Some VUndef)
  /\ shouldUpdate (Some a) b ≠ Ok false.
Proof.
  intros a b.
  assert (Hp : forall i, is_Some (a !! i) \/ is_Some (b !! i)
                         -> is_proto_name i = false).
  { intros i [[v Hv]|[v Hv]];
      apply lookup_singleton_Some in Hv as [<- _]; reflexivity. }
  assert (Hu : forall i, b !! i ≠ Some VUndef).
  { intros i Hi. apply lookup_singleton_Some in Hi as [_ Hi]. discriminate. }
  split; [exact Hp|]. split; [exact Hu|].
  intros E. apply (shouldUpdate_detects_change a b Hp Hu) in E.
  assert (Hx : a !! "id"%string = b !! "id"%string) by (by rewrite E).
  unfold a, b in Hx. rewrite !lookup_singleton_eq in Hx. discriminate.
Defined.

Lemma shouldUpdate_blind_spots_witness :
  let b : Props := {[ "id"%string := VStr "x" ]} in
  b !! "toString"%string = None
  /\ shouldUpdate (Some (<[ "toString"%string := VNum 1 ]> b)) b = Ok false.
Proof.
  intros b.
  assert (Hb : b !! "toString"%string = None) by reflexivity.
  split; [exact Hb|].
  apply (shouldUpdate_blind_spots b "toString" (VNum 1) Hb). reflexivity.
Defined.

(** ** The memo hooks and the dispatch function *)

Lemma list_differ (a : list JVal) : forall b,
  length a = length b -> a ≠ b ->
  exists i x y, a !! i = Some x /\ b !! i = Some y /\ x ≠ y.
Proof.
  induction a as [|x a IH]; intros [|y b] Hl Hne; try done.
  destruct (decide (x = y)) as [->|Hxy].
  - destruct (IH b) as (i & x' & y' & ? & ? & ?); [by injection Hl|congruence|].
    by exists (S i), x', y'.
  - by exists 0%nat, x, y.
Qed.

Lemma isChanged_spec (a b : list JVal) :
  isChanged (Some a) (Some b) = Ok (negb (bool_decide (a = b))).
Proof.
  unfold isChanged. f_equal.
  destruct (decide (a = b)) as [->|Hne].
  - rewrite bool_decide_eq_true_2 by done. simpl.
    rewrite Nat.eqb_refl. simpl.
    apply not_true_is_false. intros E.
    apply existsb_exists in E as ([i arg] & Hin & E).
    apply list_elem_of_In, elem_of_lookup_imap in Hin
      as (j & y & [= -> ->] & Hy).
    rewrite Hy in E. simpl in E.
    rewrite bool_decide_eq_true_2 in E by done. discriminate.
  - rewrite bool_decide_eq_false_2 by done. simpl.
    destruct (Nat.eqb_spec (length a) (length b)) as [Hl|Hl]; [|done].
    simpl. apply existsb_exists.
    destruct (list_differ a b Hl Hne) as (i & x & y & Ea & Eb & Hxy).
    exists (i, y). split.
    + apply list_elem_of_In, elem_of_lookup_imap. by exists i, y.
    + rewrite Ea. simpl. by rewrite bool_decide_eq_false_2.
Qed.

(** X17: for two dependency lists, [isChanged] answers false exactly
    when they have the same length and the same value at every index. *)
Theorem isChanged_iff (a b : list JVal) :
  isChanged (Some a) (Some b) = Ok false <-> a = b.
Proof.
  rewrite isChanged_spec. split.
  - intros [= E]. apply negb_false_iff in E. by apply bool_decide_eq_true in E.
  - intros ->. by rewrite bool_decide_eq_true_2.
Qed.

(** X18: a value computed by [useMemo] is kept.  When the hook is called
    again at the same position with the same dependencies (the next
    render), it returns the same value without calling its callback and
    leaves the slots as they are; with other dependencies it calls the
    callback and stores the new value and dependencies in that slot. *)
Theorem useMemo_caches (cb cb' v : JVal) (d : list JVal) (c : nat)
  (l : list MemoSlot) (called : bool) (st1 : HookStore) :
  useMemo cb (Some d) (mkHookStore c l) = Ok (v, called, st1) ->
  useMemo cb' (Some d) (mkHookStore c (slots st1)) = Ok (v, false, st1)
  /\ forall d', d' ≠ d ->
       useMemo cb' (Some d') (mkHookStore c (slots st1))
       = Ok (cb', true,
             mkHookStore (S c) (<[c := mkMemoSlot cb' (Some d')]> (slots st1))).
Proof.
  unfold useMemo at 1. cbn [cursor slots getSlot].
  set (l' := if (length l <=? c)%nat then _ else l).
  destruct (l' !! c) as [hk|] eqn:Ehk; [|discriminate].
  pose proof (lookup_lt_Some _ _ _ Ehk) as Hc.
  assert (Hslot : forall st, Ok (v, called, st1) = Ok (v, called, st) ->
                  slots st !! c = Some (mkMemoSlot v (Some d)) ->
                  cursor st = S c ->
    useMemo cb' (Some d) (mkHookStore c (slots st)) = Ok (v, false, st)
    /\ forall d', d' ≠ d ->
         useMemo cb' (Some d') (mkHookStore c (slots st))
         = Ok (cb', true,
               mkHookStore (S c)
                 (<[c := mkMemoSlot cb' (Some d')]> (slots st)))).
  { intros st _ Hs Hcur. pose proof (lookup_lt_Some _ _ _ Hs) as Hlt.
    unfold useMemo. cbn [cursor slots getSlot].
    replace (length (slots st) <=? c)%nat with false
      by (symmetry; apply Nat.leb_gt; lia).
    rewrite Hs. cbn [mdeps mval]. split.
    - rewrite isChanged_spec, bool_decide_eq_true_2 by done.
      cbn [rbind negb]. destruct st; simpl in *. by subst.
    - intros d' Hd. rewrite isChanged_spec.
      rewrite bool_decide_eq_false_2 by congruence. reflexivity. }
  destruct (mdeps hk) as [a|] eqn:Ea.
  - rewrite isChanged_spec. cbn [rbind].
    destruct (decide (a = d)) as [->|Hne].
    + rewrite bool_decide_eq_true_2 by done. cbn [negb].
      intros [= <- <- <-]. apply Hslot; [done| |done].
      cbn [slots]. rewrite Ehk. destruct hk; simpl in *. by subst.
    + rewrite bool_decide_eq_false_2 by done. cbn [negb].
      intros [= <- <- <-]. apply Hslot; [done| |done].
      cbn [slots]. by apply list_lookup_insert_eq.
  - cbn [isChanged rbind]. intros [= <- <- <-]. apply Hslot; [done| |done].
    cbn [slots]. by apply list_lookup_insert_eq.
Qed.

(** X19: the dispatch function of [useReducer] schedules one
    reconciliation for any number of state changes made before it runs:
    on a fiber that is not dirty, a call that changes the state marks the
    fiber and schedules it; a following call stores its state but leaves
    the scheduler as it is.  A call that yields the very state changes
    nothing at all. *)
Theorem dispatch_state_batches
  (reducer : option (JVal -> DispatchArg -> JVal)) (a1 a2 : DispatchArg)
  (state v1 v2 : JVal) (current f1 f2 : Fiber) (s s1 s2 : Sched) :
  dirty current = false ->
  dispatch_state reducer a1 state current s = (v1, f1, s1) ->
  dispatch_state reducer a2 v1 f1 s1 = (v2, f2, s2) ->
  (v1 = state -> f1 = current /\ s1 = s)
  /\ (v1 ≠ state ->
      s1 = schedule (CbReconcile (fid current)) s
      /\ f1 = set_dirty true current
      /\ s2 = s1 /\ dirty f2 = true).
Proof.
  intros Hd. unfold dispatch_state at 1.
  set (w1 := match reducer with Some r => r state a1 | None => _ end).
  unfold strict_ne. destruct (decide (state = w1)) as [E|E].
  - rewrite bool_decide_eq_true_2 by done. cbn [negb].
    intros [= <- <- <-] _. split; [done|]. intros Hne. by destruct Hne.
  - rewrite bool_decide_eq_false_2 by done. cbn [negb].
    unfold update. rewrite Hd. cbn [negb].
    intros [= <- <- <-]. intros H2. split; [congruence|]. intros _.
    split; [reflexivity|]. split; [reflexivity|].
    revert H2. unfold dispatch_state.
    destruct (strict_ne w1 _); [|by intros [= <- <- <-]].
    unfold update. cbn [dirty set_dirty negb].
    by intros [= <- <- <-].
Qed.

Lemma useMemo_caches_witness :
  let st1 := mkHookStore 1 [mkMemoSlot (VNum 1) (Some [VNum 7])] in
  useMemo (VNum 1) (Some [VNum 7]) (mkHookStore 0 [])
  = Ok (VNum 1, true, st1)
  /\ useMemo (VNum 2) (Some [VNum 7]) (resetCursor st1)
     = Ok (VNum 1, false, st1).
Proof.
  intros st1.
  assert (E : useMemo (VNum 1) (Some [VNum 7]) (mkHookStore 0 [])
              = Ok (VNum 1, true, st1)) by reflexivity.
  split; [exact E|].
  exact (proj1 (useMemo_caches (VNum 1) (VNum 2) (VNum 1) [VNum 7] 0%nat []
                  true st1 E)).
Defined.

Lemma dispatch_state_batches_witness :
  let s := sched_init true true in
  let s1 := schedule (CbReconcile (fid first_render)) s in
  let f1 := set_dirty true first_render in
  dirty first_render = false
  /\ dispatch_state None (AVal (VNum 1)) (VNum 0) first_render s
     = (VNum 1, f1, s1)
  /\ dispatch_state None (AFn (fun _ => VNum 2)) (VNum 1) f1 s1
     = (VNum 2, f1, s1)
  /\ length (queue s1) = 1%nat.
Proof.
  intros s s1 f1.
  assert (H1 : dispatch_state None (AVal (VNum 1)) (VNum 0) first_render s
               = (VNum 1, f1, s1)) by reflexivity.
  assert (H2 : dispatch_state None (AFn (fun _ => VNum 2)) (VNum 1) f1 s1
               = (VNum 2, f1, s1)) by reflexivity.
  split; [reflexivity|]. split; [exact H1|]. split; [exact H2|].
  destruct (dispatch_state_batches None (AVal (VNum 1))
              (AFn (fun _ => VNum 2)) (VNum 0) (VNum 1) (VNum 2)
              first_render f1 f1 s s1 s1 eq_refl H1 H2) as [_ Hb].
  destruct Hb as (Hs & _); [discriminate|]. reflexivity.
Defined.

(** ** The old fibers that [diff] removes *)

Section DiffRemovals.
Variable tg : TagTable.
Variable a : list Fiber.

Lemma remove_all_snoc flag l x lg ev :
  remove_all flag l = Ok lg -> removeElement x flag = Ok ev ->
  remove_all flag (l ++ [x]) = Ok (lg ++ ev).
Proof.
  revert lg. induction l as [|y l IH]; intros lg; simpl.
  - intros [= <-] ->. simpl. by rewrite app_nil_r.
  - destruct (removeElement y flag) as [e1| |]; simpl; try discriminate.
    destruct (remove_all flag l) as [e2| |] eqn:E2; simpl; try discriminate.
    intros [= <-] Hx. rewrite (IH e2 eq_refl Hx). simpl.
    by rewrite app_assoc.
Qed.

Lemma sublist_take_le (rem : list Fiber) n m :
  (n <= m)%nat -> rem `sublist_of` take n a -> rem `sublist_of` take m a.
Proof.
  intros Hnm Hs. etransitivity; [exact Hs|].
  replace (take n a) with (take n (take m a))
    by (rewrite take_take; f_equal; lia).
  apply sublist_take.
Qed.

(** A step that removes nothing keeps the invariant. *)
Lemma removed_advance s s' :
  removed_ok a s -> aHead s <= aHead s' -> dlog s' = dlog s ->
  (forall i m, idx (aCh s') i = Some (Some m) -> idx (aCh s) i = Some (Some m)) ->
  removed_ok a s'.
Proof.
  intros (H0 & Ha & rem & Hs & Hr) Hh Hl Hc.
  split; [lia|]. split; [intros i m Hi; by apply Ha, Hc|].
  exists rem. split; [|by rewrite Hl].
  eapply sublist_take_le; [|exact Hs]. lia.
Qed.

(** The removal of the old fiber at [aHead]. *)
Lemma removed_remove s x ev bc bh at_ bt am bm tmp acts :
  removed_ok a s -> idx (aCh s) (aHead s) = Some (Some x) ->
  removeElement x true = Ok ev ->
  removed_ok a (mkDiffSt (aCh s) bc (aHead s + 1) bh at_ bt am bm tmp acts
                         (dlog s ++ ev)).
Proof.
  intros (H0 & Ha & rem & Hs & Hr) Hx Hev.
  split; [simpl; lia|]. split; [exact Ha|].
  exists (rem ++ [x]). cbn [aHead dlog]. split.
  - replace (Z.to_nat (aHead s + 1)) with (S (Z.to_nat (aHead s))) by lia.
    rewrite (take_S_r _ _ x) by (by apply Ha).
    by apply sublist_app.
  - by apply remove_all_snoc.
Qed.

Lemma tail_loop_removed fuel : forall s s',
  removed_ok a s -> tail_loop tg fuel s = Ok s' -> removed_ok a s'.
Proof.
  induction fuel as [|fuel IH]; intros s s' Hp; simpl;
    destruct ((aHead s <=? aTail s) && (bHead s <=? bTail s)) eqn:Ec;
    try discriminate; try (by intros [= <-]).
  destruct (idx (aCh s) (aTail s)) as [[x|]|] eqn:Ex; try discriminate.
  destruct (idx (bCh s) (bTail s)) as [y|] eqn:Ey; try discriminate.
  destruct (same x y) eqn:Es; simpl; [|by intros [= <-]].
  apply IH. by apply (removed_advance s).
Qed.

Lemma head_loop_removed fuel : forall s s',
  removed_ok a s -> head_loop tg fuel s = Ok s' -> removed_ok a s'.
Proof.
  induction fuel as [|fuel IH]; intros s s' Hp; simpl;
    destruct ((aHead s <=? aTail s) && (bHead s <=? bTail s)) eqn:Ec;
    try discriminate; try (by intros [= <-]).
  destruct (idx (aCh s) (aHead s)) as [[x|]|] eqn:Ex; try discriminate.
  destruct (idx (bCh s) (bHead s)) as [y|] eqn:Ey; try discriminate.
  destruct (same x y) eqn:Es; simpl; [|by intros [= <-]].
  apply IH. apply (removed_advance s); simpl; [done|lia|done|done].
Qed.

Lemma mid_step_removed s s' :
  removed_ok a s -> mid_step tg s = Ok s' -> removed_ok a s'.
Proof.
  intros Hp. unfold mid_step, st_remove, st_insert.
  repeat (case_match; cbn [rbind]; try discriminate);
    try match goal with
        | |- context [removeElement ?x ?f] =>
            destruct (removeElement x f) eqn:Erm; cbn [rbind];
            try discriminate
        end;
    intros [= <-];
    first [ by eapply removed_remove
          | apply (removed_advance s); simpl; [done|lia|done|] ].
  all: try done.
  intros i' m' Hi'.
  match goal with
  | Em : idx (aCh s) ?i = Some (Some _) |- _ =>
      pose proof (idx_Some_range _ _ _ Em) as Hr;
      destruct (decide (i' = i)) as [->|Hne];
      [apply idx_set_idx_same in Hi'; discriminate
      |by apply idx_set_idx_other in Hi'; [|lia|done]]
  end.
Qed.

Lemma mid_loop_removed fuel : forall s s',
  removed_ok a s -> mid_loop tg fuel s = Ok s' -> removed_ok a s'.
Proof.
  induction fuel as [|fuel IH]; intros s s' Hp; simpl;
    destruct ((aHead s <=? aTail s) || (bHead s <=? bTail s)) eqn:Ec;
    try discriminate; try (by intros [= <-]).
  destruct (mid_step tg s) as [s1| |] eqn:E1; simpl; try discriminate.
  apply IH. by eapply mid_step_removed.
Qed.

(** X20: the host calls that [diff] makes are the removals, with
    [removeElement(child, true)], of some of the old children, each at
    most once and in the order of the old list; [diff] makes no other
    call. *)
Theorem diff_removes_old_children (b : list Fiber) (o : DiffOut) :
  diff tg a b = Ok o ->
  exists rem, rem `sublist_of` a /\ remove_all true rem = Ok (out_log o).
Proof.
  unfold diff. intros Hd.
  destruct (tail_loop tg _ _) as [s1| |] eqn:E1; cbn [rbind] in Hd;
    try discriminate.
  apply tail_loop_removed in E1.
  2:{ split; [simpl; lia|]. split.
      - intros i m Hi. pose proof (idx_Some_range _ _ _ Hi) as Hr.
        rewrite idx_nat_Z in Hi by lia. simpl in Hi.
        rewrite list_lookup_fmap in Hi.
        destruct (a !! Z.to_nat i); [by injection Hi as ->|done].
      - exists []. split; [apply sublist_nil_l|reflexivity]. }
  destruct (head_loop tg _ s1) as [s2| |] eqn:E2; cbn [rbind] in Hd;
    try discriminate.
  apply head_loop_removed in E2; [|exact E1].
  destruct (index_old _ _ _) as [am| |]; cbn [rbind] in Hd; try discriminate.
  destruct (index_new _ _ _) as [bm| |]; cbn [rbind] in Hd; try discriminate.
  destruct (mid_loop tg _ _) as [s3| |] eqn:E3; cbn [rbind] in Hd;
    try discriminate.
  apply mid_loop_removed in E3; [|exact E2].
  injection Hd as <-. simpl.
  destruct E3 as (_ & _ & rem & Hs & Hr).
  exists rem. split; [|exact Hr].
  etransitivity; [exact Hs|apply sublist_take].
Qed.
End DiffRemovals.

(** ** The refs that [kidsRefer] clears *)

Lemma null_refs_app l1 l2 :
  null_refs (l1 ++ l2) = null_refs l1 ++ null_refs l2.
Proof. unfold null_refs. by rewrite omap_app, fmap_app. Qed.

Lemma kidRefer_perm g : kidRefer g ≡ₚ null_refs (subtree g).
Proof.
  induction g as [g IH] using Fiber_kids_ind.
  rewrite kidRefer_eq, subtree_eq.
  change (g :: ?l) with ([g] ++ l). rewrite null_refs_app.
  rewrite Permutation_app_comm. apply Permutation_app.
  - unfold null_refs. simpl. by destruct (ref g).
  - destruct (kids g) as [ks|] eqn:Ek; [|reflexivity].
    simpl. specialize (IH ks).
    assert (Hks : forall k, k ∈ ks -> kidRefer k ≡ₚ null_refs (subtree k))
      by (intros k Hk; by apply IH).
    clear IH Ek. induction ks as [|k ks IHks]; [reflexivity|].
    simpl. rewrite null_refs_app. apply Permutation_app.
    + apply Hks. constructor.
    + apply IHks. intros k' Hk'. apply Hks. by constructor.
Qed.

(** X21: [kidsRefer] calls every ref found in the subtrees of the kids
    with [null], each fiber's ref once, and makes no other call. *)
Theorem kidsRefer_each_once (ks : option (list Fiber)) :
  kidsRefer ks ≡ₚ null_refs (default [] ks ≫= subtree).
Proof.
  destruct ks as [ks|]; [|reflexivity]. simpl.
  induction ks as [|k ks IH]; [reflexivity|].
  simpl. rewrite null_refs_app. apply Permutation_app; [|exact IH].
  apply kidRefer_perm.
Qed.

Lemma diff_removes_old_children_witness :
  let a := [bound 6 (li 1 (KStr "a"))] in
  let b := [li 2 (KStr "b")] in
  exists o, diff sample_tags a b = Ok o
            /\ out_log o = [ERemoveChild 6]
            /\ exists rem, rem `sublist_of` a
                           /\ remove_all true rem = Ok (out_log o).
Proof.
  intros a b.
  destruct (diff sample_tags a b) as [o| |] eqn:E;
    [|exfalso; vm_compute in E; discriminate..].
  exists o. split; [reflexivity|]. split.
  - vm_compute in E. by injection E as <-.
  - exact (diff_removes_old_children sample_tags a b o E).
Defined.

(** ** Reconciling in slices *)

Section ReconcileSlices.
Variable tg : TagTable.
Variable comps : nat -> Comp.
Variable effect_result : nat -> option nat.
Context {H : Type} `{Host H}.

(** With a clock that never reaches the deadline, a finished walk is not
    changed by more fuel or another count of readings. *)
Lemma reconcile_patient_more (nowp : nat -> Z) (dp : Z) :
  (forall n, nowp n < dp) ->
  forall fuel rp pos (w : World (H:=H)) posF wF rF,
  reconcile tg comps effect_result nowp fuel dp rp pos w = Ok (posF, wF, rF) ->
  forall k rp', exists rF',
    reconcile tg comps effect_result nowp (k + fuel) dp rp' pos w
    = Ok (posF, wF, rF').
Proof.
  intros Hpat. induction fuel as [|fuel IH];
    intros rp pos w posF wF rF E k rp'.
  - simpl in E. destruct (focus pos) as [f|] eqn:Ef.
    + destruct (Z.leb_spec dp (nowp rp)) as [Hle|_]; [|discriminate].
      specialize (Hpat rp). lia.
    + injection E as <- <- <-. exists rp'.
      destruct k; simpl; by rewrite Ef.
  - simpl in E. destruct (focus pos) as [f|] eqn:Ef.
    + destruct (Z.leb_spec dp (nowp rp)) as [Hle|_];
        [specialize (Hpat rp); lia|].
      destruct (capture _ _ _ f (ctx pos) w) as [[pos1 w1]| |] eqn:Ec;
        cbn [rbind] in E; try discriminate.
      destruct (IH _ _ _ _ _ _ E k (S rp')) as [rF' E'].
      exists rF'. replace (k + S fuel)%nat with (S (k + fuel)) by lia.
      simpl. rewrite Ef.
      destruct (Z.leb_spec dp (nowp rp')) as [Hle|_];
        [specialize (Hpat rp'); lia|].
      rewrite Ec. cbn [rbind]. exact E'.
    + injection E as <- <- <-. exists rp'.
      replace (k + S fuel)%nat with (S (k + fuel)) by lia.
      simpl. by rewrite Ef.
Qed.

(** A walk that comes to its end under any clock is the walk made under
    a clock that never reaches the deadline. *)
Lemma reconcile_finished_patient (now nowp : nat -> Z) (dp : Z) :
  (forall n, nowp n < dp) ->
  forall fuel d r pos (w : World (H:=H)) posF wF rF,
  reconcile tg comps effect_result now fuel d r pos w = Ok (posF, wF, rF) ->
  focus posF = None ->
  forall rp, exists rF',
    reconcile tg comps effect_result nowp fuel dp rp pos w
    = Ok (posF, wF, rF').
Proof.
  intros Hpat. induction fuel as [|fuel IH];
    intros d r pos w posF wF rF E Hend rp; simpl in E.
  - destruct (focus pos) as [f|] eqn:Ef.
    + destruct (d <=? now r); [|discriminate].
      injection E as <- <- <-. congruence.
    + injection E as <- <- <-. exists rp. simpl. by rewrite Ef.
  - destruct (focus pos) as [f|] eqn:Ef.
    + destruct (d <=? now r).
      * injection E as <- <- <-. congruence.
      * destruct (capture _ _ _ f (ctx pos) w) as [[pos1 w1]| |] eqn:Ec;
          cbn [rbind] in E; try discriminate.
        destruct (IH _ _ _ _ _ _ _ E Hend (S rp)) as [rF' E'].
        exists rF'. simpl. rewrite Ef.
        destruct (Z.leb_spec dp (nowp rp)) as [Hle|_];
          [specialize (Hpat rp); lia|].
        rewrite Ec. cbn [rbind]. exact E'.
    + injection E as <- <- <-. exists rp. simpl. by rewrite Ef.
Qed.

(** The fibers captured in a slice are the first ones that an
    uninterrupted walk captures. *)
Lemma reconcile_slice_prefix (now nowp : nat -> Z) (dp : Z) :
  (forall n, nowp n < dp) ->
  forall fuel d r pos (w : World (H:=H)) pos1 w1 r1,
  reconcile tg comps effect_result now fuel d r pos w = Ok (pos1, w1, r1) ->
  forall fuelp rp posF wF rF,
  reconcile tg comps effect_result nowp fuelp dp rp pos1 w1
  = Ok (posF, wF, rF) ->
  forall rp', exists rF',
    reconcile tg comps effect_result nowp (fuel + fuelp) dp rp' pos w
    = Ok (posF, wF, rF').
Proof.
  intros Hpat. induction fuel as [|fuel IH];
    intros d r pos w pos1 w1 r1 E fuelp rp posF wF rF Ep rp'; simpl in E.
  - destruct (focus pos) as [f|] eqn:Ef.
    + destruct (d <=? now r); [|discriminate].
      injection E as <- <- <-.
      apply (reconcile_patient_more nowp dp Hpat _ _ _ _ _ _ _ Ep 0%nat).
    + injection E as <- <- <-.
      apply (reconcile_patient_more nowp dp Hpat _ _ _ _ _ _ _ Ep 0%nat).
  - destruct (focus pos) as [f|] eqn:Ef.
    + destruct (d <=? now r).
      * injection E as <- <- <-.
        apply (reconcile_patient_more nowp dp Hpat _ _ _ _ _ _ _ Ep
                 (S fuel)).
      * destruct (capture _ _ _ f (ctx pos) w) as [[pos2 w2]| |] eqn:Ec;
          cbn [rbind] in E; try discriminate.
        destruct (IH _ _ _ _ _ _ _ E _ _ _ _ _ Ep (S rp')) as [rF' E'].
        exists rF'. simpl. rewrite Ef.
        destruct (Z.leb_spec dp (nowp rp')) as [Hle|_];
          [specialize (Hpat rp'); lia|].
        rewrite Ec. cbn [rbind]. exact E'.
    + injection E as <- <- <-.
      apply (reconcile_patient_more nowp dp Hpat _ _ _ _ _ _ _ Ep (S fuel)).
Qed.

End ReconcileSlices.


(** ** Keyed children: the order that [diff] arrives at *)

Lemma remove_nat_notin c l : c ∉ l -> remove_nat c l = l.
Proof.
  intros Hc. unfold remove_nat. induction l as [|y l IH]; [reflexivity|].
  rewrite filter_cons_True by (intros ->; apply Hc; constructor).
  f_equal. apply IH. intros Hin. apply Hc. by constructor.
Qed.

Lemma remove_nat_mid c l1 l2 :
  NoDup (l1 ++ c :: l2) -> remove_nat c (l1 ++ c :: l2) = l1 ++ l2.
Proof.
  intros Hnd. apply NoDup_app in Hnd as (_ & H1 & H2).
  apply NoDup_cons in H2 as [H2 _].
  unfold remove_nat. rewrite filter_app, filter_cons_False by (by intros ?).
  fold (remove_nat c l1). fold (remove_nat c l2).
  rewrite !remove_nat_notin; [done|done|].
  intros Hin. apply (H1 c Hin). constructor.
Qed.

Lemma insert_before_mid xs r P Q :
  r ∉ P -> insert_before xs (Some r) (P ++ r :: Q) = P ++ xs ++ r :: Q.
Proof.
  intros Hr. induction P as [|y P IH]; simpl.
  - by rewrite bool_decide_eq_true_2.
  - rewrite bool_decide_eq_false_2.
    + f_equal. apply IH. intros Hin. apply Hr. by constructor.
    + intros [= ->]. apply Hr. constructor.
Qed.

Lemma play_snoc tg l acts act :
  play tg l (acts ++ [act])
  = (l' <-- play tg l acts ;; play_action tg l' act).
Proof. unfold play. by rewrite foldl_app. Qed.

Lemma owner_clone x y : owner (clone x y) = fid x.
Proof. reflexivity. Qed.

Lemma name_of_clone x y : name_of (clone x y) = name_of y.
Proof. reflexivity. Qed.

Section DiffOrder.
Variable tg : TagTable.
Variables a b : list Fiber.
Hypothesis Hins : INSERT tg ≠ 0.
Hypothesis Hmov : MOVE tg ≠ 0.
Hypothesis Hupd_ins : Z.land (UPDATE tg) (INSERT tg) = 0.
Hypothesis Hupd_mov : Z.land (UPDATE tg) (MOVE tg) = 0.
Hypothesis Hfid : NoDup (fid <$> (a ++ b)).
Hypothesis Hka : keyed a.
Hypothesis Hkb : keyed b.
Hypothesis Hsame : forall x y, x ∈ a -> y ∈ b ->
  name_of x = name_of y -> same x y = true.
Hypothesis Hfresh : forall y, y ∈ b -> alternate y = None.

Abbreviation keep := (fun x : Fiber => name_of x ∈ name_of <$> b).
Abbreviation gone := (fun x : Fiber => name_of x ∉ name_of <$> b).

Lemma same_name x y : same x y = true -> name_of x = name_of y.
Proof. intros E. apply same_true in E as [_ E]. unfold name_of. by rewrite E. Qed.

Lemma names_inj_a x x' : x ∈ a -> x' ∈ a -> name_of x = name_of x' -> x = x'.
Proof.
  intros Hx Hx' E. destruct Hka as [Hnd _].
  apply list_elem_of_lookup in Hx as [i Hi].
  apply list_elem_of_lookup in Hx' as [j Hj].
  assert (i = j); [|congruence].
  eapply NoDup_lookup; [exact Hnd| |];
    rewrite list_lookup_fmap; [by rewrite Hi|by rewrite Hj, E].
Qed.

Lemma names_inj_b y y' : y ∈ b -> y' ∈ b -> name_of y = name_of y' -> y = y'.
Proof.
  intros Hx Hx' E. destruct Hkb as [Hnd _].
  apply list_elem_of_lookup in Hx as [i Hi].
  apply list_elem_of_lookup in Hx' as [j Hj].
  assert (i = j); [|congruence].
  eapply NoDup_lookup; [exact Hnd| |];
    rewrite list_lookup_fmap; [by rewrite Hi|by rewrite Hj, E].
Qed.

Lemma pair_up_match x y :
  x ∈ a -> name_of x = name_of y -> pair_up a y = clone x y.
Proof.
  intros Hx E. unfold pair_up.
  destruct (list_find _ a) as [[i x']|] eqn:Ef.
  - apply list_find_Some in Ef as (Hi & E' & _).
    f_equal. apply names_inj_a; [by eapply list_elem_of_lookup_2|done|congruence].
  - apply list_find_None in Ef. rewrite Forall_forall in Ef.
    by destruct (Ef x Hx).
Qed.

Lemma pair_up_new y :
  (forall x, x ∈ a -> name_of x ≠ name_of y) -> pair_up a y = y.
Proof.
  intros Hn. unfold pair_up.
  destruct (list_find _ a) as [[i x']|] eqn:Ef; [|done].
  apply list_find_Some in Ef as (Hi & E' & _).
  destruct (Hn x'); [by eapply list_elem_of_lookup_2|done].
Qed.

Lemma fid_a_b x y : x ∈ a -> y ∈ b -> fid x ≠ fid y.
Proof.
  intros Hx Hy E. rewrite fmap_app in Hfid.
  apply NoDup_app in Hfid as (_ & Hd & _).
  apply (Hd (fid x)); [by apply list_elem_of_fmap_2|].
  rewrite E. by apply list_elem_of_fmap_2.
Qed.

Lemma fid_inj_a x x' : x ∈ a -> x' ∈ a -> fid x = fid x' -> x = x'.
Proof.
  intros Hx Hx' E. rewrite fmap_app in Hfid.
  apply NoDup_app in Hfid as (Hnd & _ & _).
  apply list_elem_of_lookup in Hx as [i Hi].
  apply list_elem_of_lookup in Hx' as [j Hj].
  assert (i = j); [|congruence].
  eapply NoDup_lookup; [exact Hnd| |];
    rewrite list_lookup_fmap; [by rewrite Hi|by rewrite Hj, E].
Qed.

Lemma play_action_update l : play_action tg l (update_action tg) = Ok l.
Proof.
  unfold play_action, update_action, has_flag. cbn [op].
  by rewrite Hupd_ins, Hupd_mov.
Qed.

Lemma has_flag_diag z : z ≠ 0 -> has_flag z z = true.
Proof.
  intros Hz. unfold has_flag. rewrite Z.land_diag.
  by destruct (Z.eqb_spec z 0).
Qed.

Lemma play_action_insert c r P Q :
  fid c ∉ P ++ fid r :: Q -> fid r ∉ P ->
  play_action tg (P ++ fid r :: Q) (mkAction (INSERT tg) (Some c) (Some r))
  = Ok (P ++ fid c :: fid r :: Q).
Proof.
  intros Hc Hr. unfold play_action. cbn [op cur aref].
  rewrite has_flag_diag by done. cbn [orb fmap option_fmap option_map].
  rewrite bool_decide_eq_true_2
    by (apply elem_of_app; right; constructor).
  rewrite bool_decide_eq_false_2.
  - rewrite remove_nat_notin by done. by rewrite insert_before_mid.
  - intros [= E]. apply Hc. rewrite <- E. apply elem_of_app. right.
    constructor.
Qed.

Lemma play_action_append c P :
  fid c ∉ P ->
  play_action tg P (mkAction (INSERT tg) (Some c) None) = Ok (P ++ [fid c]).
Proof.
  intros Hc. unfold play_action. cbn [op cur aref].
  rewrite has_flag_diag by done. cbn [orb fmap option_fmap option_map].
  rewrite bool_decide_eq_false_2 by done.
  rewrite remove_nat_notin by done. by rewrite insert_before_None.
Qed.

Lemma play_action_move m r P Q1 Q2 :
  NoDup (P ++ fid r :: Q1 ++ fid m :: Q2) ->
  play_action tg (P ++ fid r :: Q1 ++ fid m :: Q2)
              (mkAction (MOVE tg) (Some m) (Some r))
  = Ok (P ++ fid m :: fid r :: Q1 ++ Q2).
Proof.
  intros Hnd. unfold play_action. cbn [op cur aref].
  rewrite (has_flag_diag (MOVE tg)) by done.
  rewrite orb_true_r. cbn [fmap option_fmap option_map].
  rewrite bool_decide_eq_true_2
    by (apply elem_of_app; right; constructor).
  assert (Hne : fid r ≠ fid m).
  { apply NoDup_app in Hnd as (_ & _ & Hnd).
    apply NoDup_cons in Hnd as [Hr _]. intros E. apply Hr.
    rewrite E. apply elem_of_app. right. constructor. }
  rewrite bool_decide_eq_false_2 by congruence.
  replace (P ++ fid r :: Q1 ++ fid m :: Q2)
    with ((P ++ fid r :: Q1) ++ fid m :: Q2) in *
    by (by rewrite <- app_assoc).
  rewrite remove_nat_mid by done. rewrite <- app_assoc. simpl.
  rewrite insert_before_mid; [done|].
  apply NoDup_app in Hnd as (Hnd & _ & _).
  apply NoDup_app in Hnd as (_ & Hd & _).
  intros Hin. apply (Hd _ Hin). constructor.
Qed.

Lemma cells_live b0 L L0 x :
  Forall2 (cell_of b0) L L0 -> x ∈ omap id L -> x ∈ L0.
Proof.
  induction 1 as [|c x0 L L0 Hc HF IH]; simpl; [by intros ?%elem_of_nil|].
  destruct Hc as [->|[-> _]]; simpl.
  - intros [->|Hin]%elem_of_cons; [constructor|]. constructor. by apply IH.
  - intros Hin. constructor. by apply IH.
Qed.

Lemma cells_weaken b0 y L L0 :
  Forall2 (cell_of b0) L L0 -> Forall2 (cell_of (b0 ++ [y])) L L0.
Proof.
  intros HF. eapply Forall2_impl; [exact HF|].
  intros c x [->|[-> Hn]]; [by left|right].
  split; [done|]. rewrite fmap_app. apply elem_of_app. by left.
Qed.

Lemma owner_pair_up y :
  y ∈ b -> owner (pair_up a y) ∈ fid <$> a \/ owner (pair_up a y) = fid y.
Proof.
  intros Hy. unfold pair_up.
  destruct (list_find _ a) as [[i x]|] eqn:Ef.
  - left. apply list_find_Some in Ef as (Hi & _ & _).
    rewrite owner_clone. apply list_elem_of_fmap_2.
    by eapply list_elem_of_lookup_2.
  - right. unfold owner. by rewrite Hfresh.
Qed.

Section Step.
Variable s : DiffSt.
Variables apre L : list (option Fiber).
Variables a0 L0 Tl b0 Bm bt : list Fiber.
Hypothesis Hoi : order_inv tg a b s apre L a0 L0 Tl b0 Bm bt.

Lemma oi_L0_a x : x ∈ L0 -> x ∈ a.
Proof.
  intros Hx. rewrite (oi_a _ _ _ _ _ _ _ _ _ _ _ _ Hoi).
  apply elem_of_app. right. apply elem_of_app. by left.
Qed.

Lemma oi_a0_a x : x ∈ a0 -> x ∈ a.
Proof.
  intros Hx. rewrite (oi_a _ _ _ _ _ _ _ _ _ _ _ _ Hoi).
  apply elem_of_app. by left.
Qed.

Lemma oi_Tl_a x : x ∈ Tl -> x ∈ a.
Proof.
  intros Hx. rewrite (oi_a _ _ _ _ _ _ _ _ _ _ _ _ Hoi).
  apply elem_of_app. right. apply elem_of_app. by right.
Qed.

Lemma oi_b0_b y : y ∈ b0 -> y ∈ b.
Proof.
  intros Hy. rewrite (oi_b _ _ _ _ _ _ _ _ _ _ _ _ Hoi).
  apply elem_of_app. by left.
Qed.

Lemma oi_Bm_b y : y ∈ Bm -> y ∈ b.
Proof.
  intros Hy. rewrite (oi_b _ _ _ _ _ _ _ _ _ _ _ _ Hoi).
  apply elem_of_app. right. apply elem_of_app. by left.
Qed.

Lemma oi_bt_b y : y ∈ bt -> y ∈ b.
Proof.
  intros Hy. rewrite (oi_b _ _ _ _ _ _ _ _ _ _ _ _ Hoi).
  apply elem_of_app. right. apply elem_of_app. by right.
Qed.

Lemma oi_live_a x : x ∈ omap id L -> x ∈ a.
Proof.
  intros Hx. apply oi_L0_a. eapply cells_live; [|exact Hx].
  exact (oi_cells _ _ _ _ _ _ _ _ _ _ _ _ Hoi).
Qed.

(** The children played so far are nodes of old fibers or of new fibers
    passed. *)
Lemma oi_V_sub i :
  i ∈ (owner <$> (pair_up a <$> b0))
      ++ (fid <$> filter keep (omap id L)) ++ (fid <$> Tl) ->
  i ∈ fid <$> a \/ i ∈ fid <$> b0.
Proof.
  intros [Hi|[Hi|Hi]%elem_of_app]%elem_of_app.
  - apply list_elem_of_fmap in Hi as (y' & -> & Hy').
    apply list_elem_of_fmap in Hy' as (y & -> & Hy).
    destruct (owner_pair_up y (oi_b0_b y Hy)) as [?|E]; [by left|right].
    rewrite E. by apply list_elem_of_fmap_2.
  - left. apply list_elem_of_fmap in Hi as (x & -> & Hx).
    apply list_elem_of_filter in Hx as [_ Hx].
    apply list_elem_of_fmap_2. by apply oi_live_a.
  - left. apply list_elem_of_fmap in Hi as (x & -> & Hx).
    apply list_elem_of_fmap_2. by apply oi_Tl_a.
Qed.

(** A new fiber still to be placed has no node among the children. *)
Lemma oi_fresh y :
  y ∈ Bm ->
  fid y ∉ (owner <$> (pair_up a <$> b0))
          ++ (fid <$> filter keep (omap id L)) ++ (fid <$> Tl).
Proof.
  intros Hy Hin. apply oi_V_sub in Hin as [Hin|Hin].
  - apply list_elem_of_fmap in Hin as (x & E & Hx).
    by apply (fid_a_b x y Hx (oi_Bm_b y Hy)).
  - apply list_elem_of_fmap in Hin as (y0 & E & Hy0).
    pose proof Hfid as Hnd. rewrite fmap_app in Hnd.
    apply NoDup_app in Hnd as (_ & _ & Hnd).
    rewrite (oi_b _ _ _ _ _ _ _ _ _ _ _ _ Hoi), fmap_app in Hnd.
    apply NoDup_app in Hnd as (_ & Hd & _).
    apply (Hd (fid y0)); [by apply list_elem_of_fmap_2|].
    rewrite <- E. rewrite fmap_app. apply elem_of_app. left.
    by apply list_elem_of_fmap_2.
Qed.
End Step.

Ltac open_oi H :=
  pose proof H as
    [HaCh Ha Hapre HaHead HaTail Hcells HbCh Hb HbHead HbTail Htail Htemp
     Hlog Hplay Hnd Hlive Hpassed].

Ltac state_simpl :=
  cbn [aCh bCh aHead bHead aTail bTail aMap bMap temp actions dlog].

Lemma names_b_parts b0 Bm bt :
  b = b0 ++ Bm ++ bt ->
  (forall y0 y, y0 ∈ b0 -> y ∈ Bm -> name_of y0 ≠ name_of y)
  /\ (forall y0 y, y0 ∈ b0 -> y ∈ bt -> name_of y0 ≠ name_of y)
  /\ (forall y y1, y ∈ Bm -> y1 ∈ bt -> name_of y ≠ name_of y1).
Proof.
  intros Hb. destruct Hkb as [Hnd _]. rewrite Hb, !fmap_app in Hnd.
  apply NoDup_app in Hnd as (_ & H1 & Hnd).
  apply NoDup_app in Hnd as (_ & H2 & _).
  repeat split; intros y y' Hy Hy' E.
  - apply (H1 (name_of y)); [by apply list_elem_of_fmap_2|].
    apply elem_of_app. left. rewrite E. by apply list_elem_of_fmap_2.
  - apply (H1 (name_of y)); [by apply list_elem_of_fmap_2|].
    apply elem_of_app. right. rewrite E. by apply list_elem_of_fmap_2.
  - apply (H2 (name_of y)); [by apply list_elem_of_fmap_2|].
    rewrite E. by apply list_elem_of_fmap_2.
Qed.

Lemma filter_gone_snoc_keep (l : list Fiber) x :
  name_of x ∈ name_of <$> b -> filter gone (l ++ [x]) = filter gone l.
Proof.
  intros Hx. rewrite filter_app, filter_cons_False by (by intros ?).
  by rewrite filter_nil, app_nil_r.
Qed.

Lemma filter_gone_snoc_gone (l : list Fiber) x :
  name_of x ∉ name_of <$> b -> filter gone (l ++ [x]) = filter gone l ++ [x].
Proof.
  intros Hx. rewrite filter_app, filter_cons_True by done.
  by rewrite filter_nil.
Qed.

Lemma name_in_b0_b b0 Bm bt n :
  b = b0 ++ Bm ++ bt -> n ∈ name_of <$> b0 -> n ∈ name_of <$> b.
Proof. intros ->. rewrite fmap_app. intros ?. apply elem_of_app. by left. Qed.

(** The slot at [aHead] is empty: the loop goes past it. *)
Lemma order_step_null s apre L1 a0 x0 L0' Tl b0 Bm bt :
  order_inv tg a b s apre (None :: L1) a0 (x0 :: L0') Tl b0 Bm bt ->
    let s' := mkDiffSt (aCh s) (bCh s) (aHead s + 1) (bHead s) (aTail s)
                     (bTail s) (aMap s) (bMap s) (temp s) (actions s)
                     (dlog s) in
  order_inv tg a b s' (apre ++ [None]) L1 (a0 ++ [x0]) L0' Tl b0 Bm bt
  /\ (maps_inv a b s (None :: L1) a0 Bm -> maps_inv a b s' L1 (a0 ++ [x0]) Bm).
Proof.
  intros Hoi s'. open_oi Hoi.
  apply Forall2_cons in Hcells as [Hc Hcells].
  assert (Hx0 : name_of x0 ∈ name_of <$> b0)
    by (destruct Hc as [?|[_ ?]]; [discriminate|done]).
  destruct (names_b_parts _ _ _ Hb) as (D1 & D2 & D3).
  split; [constructor|intros [M1 M2 M3 M4]; constructor]; subst s'; state_simpl.
  - rewrite HaCh. by rewrite <- !app_assoc.
  - rewrite Ha. by rewrite <- !app_assoc.
  - rewrite !length_app. simpl. lia.
  - rewrite length_app. simpl. lia.
  - rewrite HaTail, length_app. simpl. lia.
  - exact Hcells.
  - exact HbCh.
  - exact Hb.
  - exact HbHead.
  - exact HbTail.
  - exact Htail.
  - exact Htemp.
  - rewrite filter_gone_snoc_keep; [exact Hlog|].
    by eapply name_in_b0_b.
  - exact Hplay.
  - exact Hnd.
  - exact Hlive.
  - intros x [Hx|Hx]%elem_of_app; [by apply Hpassed|].
    apply list_elem_of_singleton in Hx as ->.
    intros Hin. apply list_elem_of_fmap in Hin as (y & E & Hy).
    apply list_elem_of_fmap in Hx0 as (y0 & E0 & Hy0).
    apply (D1 y0 y Hy0 Hy). congruence.
  - intros i x Hi. rewrite (M1 (S i) x Hi), length_app. simpl.
    f_equal. lia.
  - exact M2.
  - exact M3.
  - exact M4.
Qed.

Lemma set_idx_mid {A} (l1 l2 : list A) v0 v :
  set_idx (l1 ++ v0 :: l2) (Z.of_nat (length l1)) v = l1 ++ v :: l2.
Proof.
  unfold set_idx. rewrite Nat2Z.id.
  rewrite insert_app_r_alt by lia. by rewrite Nat.sub_diag.
Qed.

Lemma names_split (l1 l2 : list Fiber) x x' :
  NoDup (name_of <$> (l1 ++ x :: l2)) -> x' ∈ l1 ++ l2 ->
  name_of x' ≠ name_of x.
Proof.
  rewrite fmap_app, fmap_cons. intros Hnd Hx' E.
  apply NoDup_app in Hnd as (_ & H1 & H2).
  apply NoDup_cons in H2 as [H2 _].
  apply elem_of_app in Hx' as [Hx'|Hx'].
  - apply (H1 (name_of x')); [by apply list_elem_of_fmap_2|].
    rewrite E. constructor.
  - apply H2. rewrite <- E. by apply list_elem_of_fmap_2.
Qed.

(** No other old fiber has the key of the old fiber at [aHead]. *)
Lemma head_name_unique a0 x L0' Tl x' :
  a = a0 ++ (x :: L0') ++ Tl -> x' ∈ a0 ++ L0' ++ Tl ->
  name_of x' ≠ name_of x.
Proof.
  intros Ha Hx'. destruct Hka as [Hnd _]. rewrite Ha in Hnd.
  simpl in Hnd. by eapply names_split.
Qed.

(** The old fiber at [aHead], whose key is not in the new list, is
    removed. *)
Lemma order_step_remove s apre x L1 a0 x0 L0' Tl b0 Bm bt ev :
  order_inv tg a b s apre (Some x :: L1) a0 (x0 :: L0') Tl b0 Bm bt ->
  name_of x ∉ name_of <$> b ->
  removeElement x true = Ok ev ->
  let s' := mkDiffSt (aCh s) (bCh s) (aHead s + 1) (bHead s) (aTail s)
                     (bTail s) (aMap s) (bMap s) (temp s) (actions s)
                     (dlog s ++ ev) in
  order_inv tg a b s' (apre ++ [Some x]) L1 (a0 ++ [x]) L0' Tl b0 Bm bt
  /\ (maps_inv a b s (Some x :: L1) a0 Bm -> maps_inv a b s' L1 (a0 ++ [x]) Bm).
Proof.
  intros Hoi Hgone Hev s'. open_oi Hoi.
  apply Forall2_cons in Hcells as [Hc Hcells].
  assert (x0 = x) as -> by (destruct Hc as [[= ->]|[? _]]; [done|discriminate]).
  split; [constructor|intros [M1 M2 M3 M4]; constructor]; subst s'; state_simpl.
  - rewrite HaCh. by rewrite <- !app_assoc.
  - rewrite Ha. by rewrite <- !app_assoc.
  - rewrite !length_app. simpl. lia.
  - rewrite length_app. simpl. lia.
  - rewrite HaTail, length_app. simpl. lia.
  - exact Hcells.
  - exact HbCh.
  - exact Hb.
  - exact HbHead.
  - exact HbTail.
  - exact Htail.
  - exact Htemp.
  - rewrite filter_gone_snoc_gone by done. by apply remove_all_snoc.
  - rewrite Hplay. simpl. by rewrite filter_cons_False by (by intros ?).
  - simpl in Hnd. by rewrite filter_cons_False in Hnd by (by intros ?).
  - intros x' Hx'. apply Hlive. simpl. by constructor.
  - intros x' [Hx'|Hx']%elem_of_app; [by apply Hpassed|].
    apply list_elem_of_singleton in Hx' as ->.
    intros Hin. apply Hgone. rewrite Hb, !fmap_app.
    apply elem_of_app. right. apply elem_of_app. by left.
  - intros i x' Hi. rewrite (M1 (S i) x' Hi), length_app. simpl.
    f_equal. lia.
  - exact M2.
  - exact M3.
  - exact M4.
Qed.

(** The old fiber at [aHead] and the new fiber at [bHead] are the same:
    the new fiber takes over, with an UPDATE. *)
Lemma order_step_same s apre x L1 a0 x0 L0' Tl b0 y Bm1 bt :
  order_inv tg a b s apre (Some x :: L1) a0 (x0 :: L0') Tl b0 (y :: Bm1) bt ->
  same x y = true ->
  let s' := mkDiffSt (aCh s) (set_idx (bCh s) (bHead s) (clone x y))
                     (aHead s + 1) (bHead s + 1) (aTail s) (bTail s)
                     (aMap s) (bMap s) (temp s)
                     (actions s ++ [update_action tg]) (dlog s) in
  order_inv tg a b s' (apre ++ [Some x]) L1 (a0 ++ [x]) L0' Tl
            (b0 ++ [y]) Bm1 bt
  /\ (maps_inv a b s (Some x :: L1) a0 (y :: Bm1) ->
      maps_inv a b s' L1 (a0 ++ [x]) Bm1).
Proof.
  intros Hoi Hs s'. open_oi Hoi.
  apply Forall2_cons in Hcells as [Hc Hcells].
  assert (x0 = x) as -> by (destruct Hc as [[= ->]|[? _]]; [done|discriminate]).
  apply same_name in Hs.
  assert (Hxa : x ∈ a).
  { rewrite Ha. apply elem_of_app. right. constructor. }
  assert (Hyb : y ∈ b).
  { rewrite Hb. apply elem_of_app. right. constructor. }
  assert (Hkeep : name_of x ∈ name_of <$> b)
    by (rewrite Hs; by apply list_elem_of_fmap_2).
  assert (Hpu : pair_up a y = clone x y) by (by apply pair_up_match).
  destruct (names_b_parts _ _ _ Hb) as (D1 & D2 & D3).
  assert (HV : (owner <$> (pair_up a <$> b0 ++ [y]))
               ++ (fid <$> filter keep (omap id L1)) ++ (fid <$> Tl)
               = (owner <$> (pair_up a <$> b0))
                 ++ (fid <$> filter keep (omap id (Some x :: L1)))
                 ++ (fid <$> Tl)).
  { rewrite !fmap_app. simpl. rewrite Hpu, owner_clone.
    rewrite filter_cons_True by done. by rewrite <- app_assoc. }
  split; [constructor|intros [M1 M2 M3 M4]; constructor]; subst s'; state_simpl.
  - rewrite HaCh. by rewrite <- !app_assoc.
  - rewrite Ha. by rewrite <- !app_assoc.
  - rewrite !length_app. simpl. lia.
  - rewrite length_app. simpl. lia.
  - rewrite HaTail, length_app. simpl. lia.
  - by apply cells_weaken.
  - rewrite HbCh, HbHead.
    replace (length b0) with (length (pair_up a <$> b0))
      by apply length_fmap.
    simpl. rewrite set_idx_mid, fmap_app. simpl.
    by rewrite Hpu, <- app_assoc.
  - rewrite Hb. by rewrite <- !app_assoc.
  - rewrite HbHead, length_app. simpl. lia.
  - rewrite HbTail, length_app. simpl. lia.
  - exact Htail.
  - exact Htemp.
  - rewrite filter_gone_snoc_keep; [exact Hlog|done].
  - rewrite play_snoc, Hplay. cbn [rbind].
    rewrite play_action_update. by rewrite HV.
  - by rewrite HV.
  - intros x' Hx'.
    assert (Hold : name_of x' ∉ name_of <$> b0 ++ bt)
      by (apply Hlive; simpl; by constructor).
    assert (Hne : name_of x' ≠ name_of x).
    { eapply (head_name_unique a0 x L0' Tl); [exact Ha|].
      apply elem_of_app. right. apply elem_of_app. left.
      by eapply cells_live. }
    rewrite !fmap_app in *. simpl.
    intros [[Hin|Hin]%elem_of_app|Hin]%elem_of_app.
    + apply Hold. apply elem_of_app. by left.
    + apply list_elem_of_singleton in Hin. congruence.
    + apply Hold. apply elem_of_app. by right.
  - intros x' [Hx'|Hx']%elem_of_app.
    + intros Hin. apply (Hpassed x' Hx'). simpl. by constructor.
    + apply list_elem_of_singleton in Hx' as ->.
      intros Hin. apply list_elem_of_fmap in Hin as (y' & E & Hy').
      destruct Hkb as [Hndb _]. rewrite Hb in Hndb.
      eapply (names_split b0 (Bm1 ++ bt) y y'); [exact Hndb| |congruence].
      apply elem_of_app. right. apply elem_of_app. by left.
  - intros i x' Hi. rewrite (M1 (S i) x' Hi), length_app. simpl.
    f_equal. lia.
  - exact M2.
  - intros y' Hy'. apply M3. by constructor.
  - exact M4.
Qed.

(** A new fiber whose key no old fiber has is inserted before the node
    that follows the children placed so far, or at the end. *)
Lemma order_step_insert s apre L a0 L0 Tl b0 y Bm1 bt (ref : option Fiber) :
  order_inv tg a b s apre L a0 L0 Tl b0 (y :: Bm1) bt ->
    (forall x', x' ∈ a -> name_of x' ≠ name_of y) ->
  match ref with
  | Some r => exists Q, (fid <$> filter keep (omap id L)) ++ (fid <$> Tl)
                        = fid r :: Q
  | None => (fid <$> filter keep (omap id L)) ++ (fid <$> Tl) = []
  end ->
  let s' := st_insert tg s (Some y) ref in
  order_inv tg a b s' apre L a0 L0 Tl (b0 ++ [y]) Bm1 bt
  /\ (maps_inv a b s L a0 (y :: Bm1) -> maps_inv a b s' L a0 Bm1).
Proof.
  intros Hoi Hnone Hanchor s'. open_oi Hoi.
  assert (Hyb : y ∈ b).
  { rewrite Hb. apply elem_of_app. right. constructor. }
  assert (Hpu : pair_up a y = y) by (by apply pair_up_new).
  assert (Hown : owner y = fid y) by (unfold owner; by rewrite Hfresh).
  pose proof (oi_fresh _ _ _ _ _ _ _ _ _ Hoi y ltac:(constructor)) as Hfr.
  set (P := owner <$> (pair_up a <$> b0)) in *.
  set (rest := (fid <$> filter keep (omap id L)) ++ (fid <$> Tl)) in *.
  assert (HV : (owner <$> (pair_up a <$> b0 ++ [y])) ++ rest
               = P ++ fid y :: rest).
  { rewrite !fmap_app. simpl. rewrite Hpu, Hown. by rewrite <- app_assoc. }
  split; [constructor|intros [M1 M2 M3 M4]; constructor]; subst s';
    unfold st_insert; state_simpl.
  - exact HaCh.
  - exact Ha.
  - exact Hapre.
  - exact HaHead.
  - exact HaTail.
  - by apply cells_weaken.
  - rewrite HbCh, fmap_app. simpl. by rewrite Hpu, <- app_assoc.
  - rewrite Hb. by rewrite <- !app_assoc.
  - rewrite HbHead, length_app. simpl. lia.
  - rewrite HbTail, length_app. simpl. lia.
  - exact Htail.
  - exact Htemp.
  - exact Hlog.
  - rewrite play_snoc, Hplay. cbn [rbind]. fold rest. rewrite HV.
    destruct ref as [r|].
    + destruct Hanchor as [Q HQ]. rewrite HQ in *.
      apply play_action_insert; [done|].
      apply NoDup_app in Hnd as (_ & Hd & _).
      intros Hin. apply (Hd _ Hin). constructor.
    + rewrite Hanchor in *. rewrite app_nil_r in *.
      by apply play_action_append.
  - fold rest. rewrite HV.
    apply (NoDup_Permutation_proper _ (fid y :: P ++ rest)).
    + by rewrite <- Permutation_middle.
    + apply NoDup_cons. split; [exact Hfr|exact Hnd].
  - intros x' Hx' Hin. rewrite !fmap_app in Hin. simpl in Hin.
    apply elem_of_app in Hin as [[Hin|Hin]%elem_of_app|Hin].
    + apply (Hlive x' Hx'). rewrite fmap_app. apply elem_of_app. by left.
    + apply list_elem_of_singleton in Hin.
      apply (Hnone x'); [|done].
      by eapply (oi_live_a _ _ _ _ _ _ _ _ _ Hoi).
    + apply (Hlive x' Hx'). rewrite fmap_app. apply elem_of_app. by right.
  - intros x' Hx' Hin. apply (Hpassed x' Hx'). simpl. by constructor.
  - exact M1.
  - exact M2.
  - intros y' Hy'. apply M3. by constructor.
  - exact M4.
Qed.

(** A new fiber whose key an old fiber further on has takes that fiber
    over; the node is moved before the node of the old fiber at
    [aHead]. *)
Lemma order_step_move s apre x L1a m L1b a0 L0 Tl b0 y Bm1 bt :
  order_inv tg a b s apre (Some x :: L1a ++ Some m :: L1b) a0 L0 Tl b0
            (y :: Bm1) bt ->
  name_of m = name_of y ->
  name_of x ∈ name_of <$> b ->
  let s' := mkDiffSt
              (set_idx (aCh s) (Z.of_nat (length a0 + S (length L1a))) None)
              (set_idx (bCh s) (bHead s) (clone m y))
              (aHead s) (bHead s + 1) (aTail s) (bTail s)
              (aMap s) (bMap s) (temp s)
              (actions s ++ [mkAction (MOVE tg) (Some m) (Some x)])
              (dlog s) in
  order_inv tg a b s' apre (Some x :: L1a ++ None :: L1b) a0 L0 Tl
            (b0 ++ [y]) Bm1 bt
  /\ (maps_inv a b s (Some x :: L1a ++ Some m :: L1b) a0 (y :: Bm1) ->
      maps_inv a b s' (Some x :: L1a ++ None :: L1b) a0 Bm1).
Proof.
  intros Hoi Hname Hkx s'. open_oi Hoi.
  apply Forall2_cons_inv_l in Hcells as (x0 & L0' & Hcx & Hcells & ->).
  apply Forall2_app_inv_l in Hcells as (L0a & L0r & Hca & Hcr & ->).
  apply Forall2_cons_inv_l in Hcr as (m0 & L0b & Hcm & Hcb & ->).
  assert (x0 = x) as ->
    by (destruct Hcx as [[= ->]|[? _]]; [done|discriminate]).
  assert (m0 = m) as ->
    by (destruct Hcm as [[= ->]|[? _]]; [done|discriminate]).
  assert (Hyb : y ∈ b).
  { rewrite Hb. apply elem_of_app. right. constructor. }
  assert (Hma : m ∈ a).
  { rewrite Ha. apply elem_of_app. right. apply elem_of_app. left.
    right. apply elem_of_app. right. constructor. }
  assert (Hkm : name_of m ∈ name_of <$> b)
    by (rewrite Hname; by apply list_elem_of_fmap_2).
  assert (Hpu : pair_up a y = clone m y) by (by apply pair_up_match).
  set (P := owner <$> (pair_up a <$> b0)) in *.
  set (Q1 := fid <$> filter keep (omap id L1a)) in *.
  set (Q2 := fid <$> filter keep (omap id L1b)) in *.
  assert (HVold : (fid <$> filter keep
                            (omap id (Some x :: L1a ++ Some m :: L1b)))
                  ++ (fid <$> Tl)
                  = fid x :: Q1 ++ fid m :: Q2 ++ (fid <$> Tl)).
  { simpl. rewrite omap_app. simpl.
    rewrite filter_cons_True, filter_app, filter_cons_True by done.
    rewrite !fmap_cons, fmap_app, fmap_cons. simpl.
    by rewrite <- !app_assoc. }
  assert (HVnew : (owner <$> (pair_up a <$> b0 ++ [y]))
                  ++ (fid <$> filter keep
                                (omap id (Some x :: L1a ++ None :: L1b)))
                  ++ (fid <$> Tl)
                  = P ++ fid m :: fid x :: Q1 ++ Q2 ++ (fid <$> Tl)).
  { rewrite !fmap_app. simpl. rewrite Hpu, owner_clone, omap_app. simpl.
    rewrite filter_cons_True, filter_app by done.
    rewrite !fmap_cons, fmap_app. simpl.
    by rewrite <- !app_assoc. }
  rewrite HVold in Hplay, Hnd.
  split; [constructor|intros [M1 M2 M3 M4]; constructor]; subst s'; state_simpl.
  - rewrite HaCh.
    replace (apre ++ (Some x :: L1a ++ Some m :: L1b) ++ (Some <$> Tl))
      with ((apre ++ Some x :: L1a) ++ Some m :: L1b ++ (Some <$> Tl))
      by (simpl; by rewrite <- !app_assoc).
    replace (length a0 + S (length L1a))%nat
      with (length (apre ++ Some x :: L1a))
      by (rewrite length_app; simpl; lia).
    rewrite set_idx_mid. simpl. by rewrite <- !app_assoc.
  - exact Ha.
  - exact Hapre.
  - exact HaHead.
  - exact HaTail.
  - apply Forall2_cons. split; [by left|].
    apply Forall2_app; [by apply cells_weaken|].
    apply Forall2_cons. split; [|by apply cells_weaken].
    right. split; [done|]. rewrite fmap_app. apply elem_of_app. right.
    rewrite Hname. constructor.
  - rewrite HbCh, HbHead.
    replace (length b0) with (length (pair_up a <$> b0))
      by apply length_fmap.
    simpl. rewrite set_idx_mid, fmap_app. simpl.
    by rewrite Hpu, <- app_assoc.
  - rewrite Hb. by rewrite <- !app_assoc.
  - rewrite HbHead, length_app. simpl. lia.
  - rewrite HbTail, length_app. simpl. lia.
  - exact Htail.
  - exact Htemp.
  - exact Hlog.
  - rewrite play_snoc, Hplay. cbn [rbind]. rewrite HVnew.
    replace (P ++ fid m :: fid x :: Q1 ++ Q2 ++ (fid <$> Tl))
      with (P ++ fid m :: fid x :: Q1 ++ (Q2 ++ (fid <$> Tl))) by done.
    by apply play_action_move.
  - rewrite HVnew.
    apply (NoDup_Permutation_proper _
             (P ++ fid x :: Q1 ++ fid m :: Q2 ++ (fid <$> Tl))); [|done].
    apply Permutation_app_head.
    exact (Permutation_middle (fid x :: Q1) (Q2 ++ (fid <$> Tl)) (fid m)).
  - intros x' Hx'.
    assert (Hx'L : x' ∈ omap id (Some x :: L1a ++ Some m :: L1b)).
    { simpl in *. rewrite omap_app in *. simpl in *.
      apply elem_of_cons in Hx' as [->|Hx']; [constructor|]. right.
      apply elem_of_app in Hx' as [?|?]; apply elem_of_app; [by left|].
      right. by constructor. }
    assert (Hne : name_of x' ≠ name_of m).
    { destruct Hka as [Hnda _]. rewrite Ha in Hnda.
      replace (a0 ++ (x :: L0a ++ m :: L0b) ++ Tl)
        with ((a0 ++ x :: L0a) ++ m :: (L0b ++ Tl)) in Hnda
        by (simpl; by rewrite <- !app_assoc).
      eapply names_split; [exact Hnda|].
      simpl in Hx'. rewrite omap_app in Hx'. simpl in Hx'.
      apply elem_of_cons in Hx' as [->|Hx'].
      - apply elem_of_app. left. apply elem_of_app. right. constructor.
      - apply elem_of_app in Hx' as [Hx'|Hx'].
        + apply elem_of_app. left. apply elem_of_app. right. right.
          by eapply cells_live.
        + apply elem_of_app. right. apply elem_of_app. left.
          by eapply cells_live. }
    intros Hin. rewrite !fmap_app in Hin. simpl in Hin.
    apply elem_of_app in Hin as [[Hin|Hin]%elem_of_app|Hin].
    + apply (Hlive x' Hx'L). rewrite fmap_app. apply elem_of_app. by left.
    + apply list_elem_of_singleton in Hin. congruence.
    + apply (Hlive x' Hx'L). rewrite fmap_app. apply elem_of_app. by right.
  - intros x' Hx' Hin. apply (Hpassed x' Hx'). simpl. by constructor.
  - intros i x' Hi. apply M1.
    destruct i as [|i]; [exact Hi|]. simpl in *.
    destruct (decide (i = length L1a)) as [->|Hne].
    + rewrite lookup_app_r, Nat.sub_diag in Hi by lia. discriminate.
    + destruct (decide (i < length L1a)%nat).
      * rewrite lookup_app_l in * by lia. exact Hi.
      * rewrite lookup_app_r in * by lia.
        destruct (i - length L1a)%nat as [|k] eqn:Ek; [lia|]. exact Hi.
  - exact M2.
  - intros y' Hy'. apply M3. by constructor.
  - exact M4.
Qed.

Lemma idx_mid {A} (l1 l2 : list A) v :
  idx (l1 ++ v :: l2) (Z.of_nat (length l1)) = Some v.
Proof. rewrite idx_nat. apply list_lookup_middle. reflexivity. Qed.

Lemma idx_end {A} (l : list A) : idx l (Z.of_nat (length l)) = None.
Proof. rewrite idx_nat. by apply lookup_ge_None. Qed.

Lemma snoc_cases {A} (l : list A) : l = [] \/ exists l' x, l = l' ++ [x].
Proof.
  induction l as [|x l _] using rev_ind; [by left|right]. by exists l, x.
Qed.

(** The last old fiber and the last new fiber still to be looked at are
    the same: the new fiber takes over, with an UPDATE kept for the
    end. *)
Lemma order_step_tail s apre L1 x a0 L0 Tl b0 Bm1 y bt :
  order_inv tg a b s apre (L1 ++ [Some x]) a0 L0 Tl b0 (Bm1 ++ [y]) bt ->
  same x y = true ->
  let s' := mkDiffSt (aCh s) (set_idx (bCh s) (bTail s) (clone x y))
                     (aHead s) (bHead s) (aTail s - 1) (bTail s - 1)
                     (aMap s) (bMap s)
                     (temp s ++ [update_action tg]) (actions s) (dlog s) in
  exists L0', L0 = L0' ++ [x]
    /\ order_inv tg a b s' apre L1 a0 L0' (x :: Tl) b0 Bm1 (y :: bt).
Proof.
  intros Hoi Hs s'. open_oi Hoi.
  apply Forall2_app_inv_l in Hcells as (L0' & L0r & Hc1 & Hcr & ->).
  apply Forall2_cons_inv_l in Hcr as (x0 & L0n & Hcx & Hcn & ->).
  apply Forall2_nil_inv_l in Hcn as ->.
  assert (x0 = x) as ->
    by (destruct Hcx as [[= ->]|[? _]]; [done|discriminate]).
  exists L0'. split; [done|].
  apply same_name in Hs.
  assert (Hxa : x ∈ a).
  { rewrite Ha. apply elem_of_app. right. apply elem_of_app. left.
    apply elem_of_app. right. constructor. }
  assert (Hyb : y ∈ b).
  { rewrite Hb. apply elem_of_app. right. apply elem_of_app. left.
    apply elem_of_app. right. constructor. }
  assert (Hkeep : name_of x ∈ name_of <$> b)
    by (rewrite Hs; by apply list_elem_of_fmap_2).
  assert (Hpu : pair_up a y = clone x y) by (by apply pair_up_match).
  assert (HV : (fid <$> filter keep (omap id (L1 ++ [Some x])))
               ++ (fid <$> Tl)
               = (fid <$> filter keep (omap id L1)) ++ (fid <$> x :: Tl)).
  { rewrite omap_app. simpl. rewrite filter_app.
    rewrite filter_cons_True by done. rewrite filter_nil, fmap_app. simpl.
    by rewrite <- app_assoc. }
  pose proof (Forall2_length _ _ _ Hc1) as Hlen.
  constructor; subst s'; state_simpl.
  - rewrite HaCh. simpl. by rewrite <- !app_assoc.
  - rewrite Ha. simpl. by rewrite <- !app_assoc.
  - exact Hapre.
  - exact HaHead.
  - rewrite HaTail, length_app. simpl. lia.
  - exact Hc1.
  - rewrite HbCh, HbTail.
    replace ((pair_up a <$> b0) ++ (Bm1 ++ [y]) ++ (pair_up a <$> bt))
      with (((pair_up a <$> b0) ++ Bm1) ++ y :: (pair_up a <$> bt))
      by (by rewrite <- !app_assoc).
    replace (Z.of_nat (length b0 + length (Bm1 ++ [y])) - 1)
      with (Z.of_nat (length ((pair_up a <$> b0) ++ Bm1)))
      by (rewrite !length_app, length_fmap; simpl; lia).
    rewrite set_idx_mid. simpl. by rewrite Hpu, <- !app_assoc.
  - rewrite Hb. simpl. by rewrite <- !app_assoc.
  - exact HbHead.
  - rewrite HbTail, length_app. simpl. lia.
  - rewrite !fmap_cons. by rewrite Hs, Htail.
  - rewrite Htemp. simpl. by rewrite <- replicate_S_end.
  - exact Hlog.
  - rewrite Hplay. by rewrite HV.
  - by rewrite <- HV.
  - intros x' Hx'.
    assert (Hold : name_of x' ∉ name_of <$> b0 ++ bt).
    { apply Hlive. rewrite omap_app. apply elem_of_app. by left. }
    assert (Hne : name_of x' ≠ name_of x).
    { destruct Hka as [Hnda _]. rewrite Ha in Hnda.
      replace (a0 ++ (L0' ++ [x]) ++ Tl)
        with ((a0 ++ L0') ++ x :: Tl) in Hnda
        by (by rewrite <- !app_assoc).
      eapply names_split; [exact Hnda|].
      apply elem_of_app. left. apply elem_of_app. right.
      by eapply cells_live. }
    rewrite !fmap_app in *. simpl.
    intros [Hin|[E|Hin]%elem_of_cons]%elem_of_app.
    + apply Hold. apply elem_of_app. by left.
    + congruence.
    + apply Hold. apply elem_of_app. by right.
  - intros x' Hx' Hin. apply (Hpassed x' Hx').
    rewrite fmap_app. apply elem_of_app. by left.
Qed.

Lemma tail_loop_order fuel : forall s s' apre L a0 L0 Tl b0 Bm bt,
  order_inv tg a b s apre L a0 L0 Tl b0 Bm bt ->
  tail_loop tg fuel s = Ok s' ->
  exists L' L0' Tl' Bm' bt',
    order_inv tg a b s' apre L' a0 L0' Tl' b0 Bm' bt'.
Proof.
  induction fuel as [|fuel IH]; intros s s' apre L a0 L0 Tl b0 Bm bt Hoi;
    simpl;
    destruct ((aHead s <=? aTail s) && (bHead s <=? bTail s)) eqn:Ec;
    try discriminate; try (intros [= <-]; by eauto 10).
  apply andb_true_iff in Ec as [Ea Eb].
  apply Z.leb_le in Ea. apply Z.leb_le in Eb.
  open_oi Hoi. pose proof (Forall2_length _ _ _ Hcells) as Hlen.
  destruct (snoc_cases L) as [->|(L1 & c & ->)];
    [simpl in Hlen; lia|].
  destruct (snoc_cases Bm) as [->|(Bm1 & y & ->)]; [simpl in *; lia|].
  assert (Eidx : idx (aCh s) (aTail s) = Some c).
  { rewrite HaCh, HaTail, <- Hlen, <- Hapre.
    replace (apre ++ (L1 ++ [c]) ++ (Some <$> Tl))
      with ((apre ++ L1) ++ c :: (Some <$> Tl))
      by (by rewrite <- !app_assoc).
    replace (Z.of_nat (length apre + length (L1 ++ [c])) - 1)
      with (Z.of_nat (length (apre ++ L1)))
      by (rewrite !length_app; simpl; lia).
    apply idx_mid. }
  assert (Eidy : idx (bCh s) (bTail s) = Some y).
  { rewrite HbCh, HbTail.
    replace ((pair_up a <$> b0) ++ (Bm1 ++ [y]) ++ (pair_up a <$> bt))
      with (((pair_up a <$> b0) ++ Bm1) ++ y :: (pair_up a <$> bt))
      by (by rewrite <- !app_assoc).
    replace (Z.of_nat (length b0 + length (Bm1 ++ [y])) - 1)
      with (Z.of_nat (length ((pair_up a <$> b0) ++ Bm1)))
      by (rewrite !length_app, length_fmap; simpl; lia).
    apply idx_mid. }
  rewrite Eidx, Eidy. destruct c as [x|]; [|discriminate].
  destruct (same x y) eqn:Es; simpl; [|intros [= <-]; by eauto 10].
  destruct (order_step_tail s apre L1 x a0 L0 Tl b0 Bm1 y bt Hoi Es)
    as (L0' & -> & Hoi').
  by apply (IH _ _ _ _ _ _ _ _ _ _ Hoi').
Qed.

Lemma head_loop_order fuel : forall s s' apre L a0 L0 Tl b0 Bm bt,
  order_inv tg a b s apre L a0 L0 Tl b0 Bm bt ->
  head_loop tg fuel s = Ok s' ->
  exists apre' L' a0' L0' b0' Bm',
    order_inv tg a b s' apre' L' a0' L0' Tl b0' Bm' bt.
Proof.
  induction fuel as [|fuel IH]; intros s s' apre L a0 L0 Tl b0 Bm bt Hoi;
    simpl;
    destruct ((aHead s <=? aTail s) && (bHead s <=? bTail s)) eqn:Ec;
    try discriminate; try (intros [= <-]; by eauto 10).
  apply andb_true_iff in Ec as [Ea Eb].
  apply Z.leb_le in Ea. apply Z.leb_le in Eb.
  open_oi Hoi. pose proof (Forall2_length _ _ _ Hcells) as Hlen.
  destruct L as [|c L1]; [simpl in Hlen; lia|].
  destruct L0 as [|x0 L0']; [discriminate|].
  destruct Bm as [|y Bm1]; [simpl in *; lia|].
  assert (Eidx : idx (aCh s) (aHead s) = Some c).
  { rewrite HaCh, HaHead, <- Hapre. apply idx_mid. }
  assert (Eidy : idx (bCh s) (bHead s) = Some y).
  { rewrite HbCh, HbHead.
    replace (length b0) with (length (pair_up a <$> b0))
      by apply length_fmap.
    apply idx_mid. }
  rewrite Eidx, Eidy. destruct c as [x|]; [|discriminate].
  destruct (same x y) eqn:Es; simpl; [|intros [= <-]; by eauto 10].
  destruct (order_step_same s apre x L1 a0 x0 L0' Tl b0 y Bm1 bt Hoi Es)
    as [Hoi' _].
  by apply (IH _ _ _ _ _ _ _ _ _ _ Hoi').
Qed.

Lemma map_set_plain m k i :
  is_proto_name (prop_name k) = false ->
  map_set m k i = <[prop_name k := i]> m.
Proof.
  intros Hp. unfold map_set. rewrite bool_decide_eq_false_2; [done|].
  intros E. rewrite E in Hp. discriminate.
Qed.

Lemma map_get_plain m k :
  is_proto_name (prop_name k) = false ->
  map_get m k = match m !! prop_name k with
                | Some i => FIdx i
                | None => FNone
                end.
Proof. intros Hp. unfold map_get. by rewrite Hp. Qed.

(** The map of step 3 for the old list, when the fibers in the range have
    truthy keys with different names: every fiber is found under the name
    of its key, at its own index, and nothing else is in the map. *)
Lemma index_old_spec ch : forall (l : list Z) m0 m,
  foldl (fun (acc : Res (gmap string Z)) i =>
           m <-- acc ;;
           match idx ch i with
           | Some (Some f) =>
               Ok (if truthy (key f) then map_set m (key f) i else m)
           | _ => Throw
           end) (Ok m0) l = Ok m ->
  NoDup l ->
  (forall i f, i ∈ l -> idx ch i = Some (Some f) ->
     truthy (key f) = true /\ is_proto_name (name_of f) = false) ->
  (forall i j f g, i ∈ l -> j ∈ l ->
     idx ch i = Some (Some f) -> idx ch j = Some (Some g) ->
     name_of f = name_of g -> i = j) ->
  (forall i, i ∈ l -> exists f, idx ch i = Some (Some f)
                                /\ m !! name_of f = Some i)
  /\ (forall n i, m !! n = Some i ->
        m0 !! n = Some i
        \/ (i ∈ l /\ exists f, idx ch i = Some (Some f) /\ name_of f = n))
  /\ (forall n, (forall i f, i ∈ l -> idx ch i = Some (Some f) ->
                   name_of f ≠ n) -> m !! n = m0 !! n).
Proof.
  induction l as [|i l IH]; intros m0 m; simpl.
  - intros [= <-] _ _ _. split; [by intros i ?%elem_of_nil|].
    split; [by left|done].
  - intros E Hnd Hkey Huniq.
    destruct (idx ch i) as [[f|]|] eqn:Ei;
      try (exfalso; revert E; clear;
           induction l as [|j l IH]; simpl; [discriminate|exact IH]).
    destruct (Hkey i f ltac:(constructor) Ei) as [Ht Hp].
    rewrite Ht, (map_set_plain _ _ _ Hp) in E. cbn [rbind] in E.
    apply NoDup_cons in Hnd as [Hi Hnd].
    destruct (IH _ _ E Hnd) as (C1 & C2 & C3).
    { intros j g Hj. apply Hkey. by constructor. }
    { intros j k g g' Hj Hk. apply Huniq; by constructor. }
    split; [|split].
    + intros j [->|Hj]%elem_of_cons; [|by apply C1].
      exists f. split; [done|]. rewrite C3.
      * apply lookup_insert_eq.
      * intros j g Hj Eg En. apply Hi.
        rewrite (Huniq i j f g); try done; [constructor|by constructor].
    + intros n j Hn. destruct (C2 n j Hn) as [Hm|(Hj & g & Eg & En)].
      * destruct (decide (prop_name (key f) = n)) as [<-|Hne].
        -- rewrite lookup_insert_eq in Hm. injection Hm as <-.
           right. split; [constructor|]. by exists f.
        -- rewrite lookup_insert_ne in Hm by done. by left.
      * right. split; [by constructor|]. by exists g.
    + intros n Hn. rewrite C3.
      * apply lookup_insert_ne. apply (Hn i f); [constructor|done].
      * intros j g Hj. apply Hn. by constructor.
Qed.

(** The fibers of the range are in the map of step 3 for the new list. *)
Lemma index_new_dom ch : forall (l : list Z) m0 m,
  foldl (fun (acc : Res (gmap string Z)) i =>
           m <-- acc ;;
           match idx ch i with
           | Some f =>
               Ok (if truthy (key f) then map_set m (key f) i else m)
           | None => Throw
           end) (Ok m0) l = Ok m ->
  (forall i f, i ∈ l -> idx ch i = Some f ->
     truthy (key f) = true /\ is_proto_name (name_of f) = false) ->
  (forall n, is_Some (m0 !! n) -> is_Some (m !! n))
  /\ (forall i, i ∈ l -> exists f, idx ch i = Some f
                                   /\ is_Some (m !! name_of f)).
Proof.
  induction l as [|i l IH]; intros m0 m; simpl.
  - intros [= <-] _. split; [done|by intros i ?%elem_of_nil].
  - intros E Hkey.
    destruct (idx ch i) as [f|] eqn:Ei;
      try (exfalso; revert E; clear;
           induction l as [|j l IH]; simpl; [discriminate|exact IH]).
    destruct (Hkey i f ltac:(constructor) Ei) as [Ht Hp].
    rewrite Ht, (map_set_plain _ _ _ Hp) in E. cbn [rbind] in E.
    destruct (IH _ _ E) as (C1 & C2).
    { intros j g Hj. apply Hkey. by constructor. }
    split.
    + intros n Hn. apply C1.
      destruct (decide (prop_name (key f) = n)) as [<-|Hne].
      * rewrite lookup_insert_eq. by eexists.
      * by rewrite lookup_insert_ne.
    + intros j [->|Hj]%elem_of_cons; [|by apply C2].
      exists f. split; [done|]. apply C1. rewrite lookup_insert_eq.
      by eexists.
Qed.

Lemma name_pair_up y : name_of (pair_up a y) = name_of y.
Proof. unfold pair_up. by destruct (list_find _ a) as [[i x]|]. Qed.

Lemma keyed_elem l x :
  keyed l -> x ∈ l ->
  truthy (key x) = true /\ is_proto_name (name_of x) = false.
Proof. intros [_ Hf] Hx. rewrite Forall_forall in Hf. by apply Hf. Qed.

Section Slots.
Variable s : DiffSt.
Variables apre L : list (option Fiber).
Variables a0 L0 Tl b0 Bm bt : list Fiber.
Hypothesis Hoi : order_inv tg a b s apre L a0 L0 Tl b0 Bm bt.

(** Reading the old array in the part still to be looked at. *)
Lemma oi_idx_L k c :
  L !! k = Some c -> idx (aCh s) (Z.of_nat (length a0 + k)) = Some c.
Proof.
  intros Hk. open_oi Hoi. rewrite idx_nat, HaCh.
  rewrite lookup_app_r by lia.
  replace (length a0 + k - length apre)%nat with k by lia.
  by apply lookup_app_l_Some.
Qed.

Lemma oi_idx_Bm k y :
  Bm !! k = Some y -> idx (bCh s) (Z.of_nat (length b0 + k)) = Some y.
Proof.
  intros Hk. open_oi Hoi. rewrite idx_nat, HbCh.
  rewrite lookup_app_r by (rewrite length_fmap; lia).
  rewrite length_fmap.
  replace (length b0 + k - length b0)%nat with k by lia.
  by apply lookup_app_l_Some.
Qed.

(** A slot that holds a fiber holds the old fiber of that index. *)
Lemma oi_slot k x :
  L !! k = Some (Some x) ->
  L0 !! k = Some x /\ a !! (length a0 + k)%nat = Some x.
Proof.
  intros Hk. open_oi Hoi.
  destruct (Forall2_lookup_l _ _ _ _ _ Hcells Hk) as (x0 & Hx0 & Hc).
  assert (x0 = x) as ->
    by (destruct Hc as [[= ->]|[? _]]; [done|discriminate]).
  split; [done|]. rewrite Ha.
  rewrite lookup_app_r by lia.
  replace (length a0 + k - length a0)%nat with k by lia.
  by apply lookup_app_l_Some.
Qed.

Lemma oi_len_L : length L = length L0.
Proof. open_oi Hoi. by eapply Forall2_length. Qed.

(** The maps built in step 3. *)
Lemma maps_established am bm :
  index_old (aCh s) (aHead s) (aTail s) = Ok am ->
  index_new (bCh s) (bHead s) (bTail s) = Ok bm ->
  let s' := mkDiffSt (aCh s) (bCh s) (aHead s) (bHead s) (aTail s)
                     (bTail s) am bm (temp s) (actions s) (dlog s) in
  order_inv tg a b s' apre L a0 L0 Tl b0 Bm bt
  /\ maps_inv a b s' L a0 Bm.
Proof.
  intros Eo En s'. open_oi Hoi. pose proof oi_len_L as Hlen.
  split; [constructor; subst s'; state_simpl; assumption|].
  assert (Hrange_a : forall i,
            i ∈ range (aHead s) (aTail s) ->
            exists k, i = Z.of_nat (length a0 + k) /\ (k < length L)%nat).
  { intros i Hi. unfold range in Hi. apply elem_of_seqZ in Hi.
    exists (Z.to_nat i - length a0)%nat. split; lia. }
  assert (Hrange_b : forall i,
            i ∈ range (bHead s) (bTail s) ->
            exists k, i = Z.of_nat (length b0 + k) /\ (k < length Bm)%nat).
  { intros i Hi. unfold range in Hi. apply elem_of_seqZ in Hi.
    exists (Z.to_nat i - length b0)%nat. split; lia. }
  assert (Hcell : forall i f,
            i ∈ range (aHead s) (aTail s) -> idx (aCh s) i = Some (Some f) ->
            exists k, i = Z.of_nat (length a0 + k)
                      /\ L !! k = Some (Some f)
                      /\ a !! (length a0 + k)%nat = Some f).
  { intros i f Hi Ef. destruct (Hrange_a i Hi) as (k & -> & Hk).
    destruct (lookup_lt_is_Some_2 L k Hk) as [c Hc].
    rewrite (oi_idx_L k c Hc) in Ef. injection Ef as ->.
    exists k. split; [done|]. split; [done|]. by apply oi_slot. }
  unfold index_old in Eo.
  destruct (index_old_spec _ _ _ _ Eo) as (C1 & C2 & _).
  { apply NoDup_seqZ. }
  { intros i f Hi Ef. destruct (Hcell i f Hi Ef) as (k & _ & _ & Hf).
    apply (keyed_elem a); [done|]. by eapply list_elem_of_lookup_2. }
  { intros i j f g Hi Hj Ef Eg E.
    destruct (Hcell i f Hi Ef) as (k & -> & _ & Hf).
    destruct (Hcell j g Hj Eg) as (k' & -> & _ & Hg).
    destruct Hka as [Hnda _].
    f_equal. eapply NoDup_lookup; [exact Hnda| |];
      rewrite list_lookup_fmap; [by rewrite Hf|by rewrite Hg, E]. }
  unfold index_new in En.
  destruct (index_new_dom _ _ _ _ En) as (_ & N2).
  { intros i f Hi Ef. destruct (Hrange_b i Hi) as (k & -> & Hk).
    destruct (lookup_lt_is_Some_2 Bm k Hk) as [y Hy].
    rewrite (oi_idx_Bm k y Hy) in Ef. injection Ef as <-.
    apply (keyed_elem b); [done|]. rewrite Hb.
    apply elem_of_app. right. apply elem_of_app. left.
    by eapply list_elem_of_lookup_2. }
  constructor; subst s'; state_simpl.
  - intros k x Hk.
    destruct (C1 (Z.of_nat (length a0 + k))) as (f & Ef & Em).
    { unfold range. apply elem_of_seqZ.
      apply lookup_lt_Some in Hk. lia. }
    rewrite (oi_idx_L k _ Hk) in Ef. by injection Ef as <-.
  - intros n i Hn. destruct (C2 n i Hn) as [Hm|(Hi & f & Ef & En')].
    + by rewrite lookup_empty in Hm.
    + destruct (Hcell i f Hi Ef) as (k & -> & _ & Hf).
      split; [lia|]. exists f. by rewrite Nat2Z.id.
  - intros y Hy. apply list_elem_of_lookup in Hy as [k Hk].
    destruct (N2 (Z.of_nat (length b0 + k))) as (f & Ef & Em).
    { unfold range. apply elem_of_seqZ.
      apply lookup_lt_Some in Hk. lia. }
    rewrite (oi_idx_Bm k y Hk) in Ef. by injection Ef as <-.
  - intros n j Hn.
    apply (index_new_indexed (bCh s) (bHead s) (bTail s)) in Hn
      as (f & Ef & _ & <-); [|exact En].
    assert (Hin : f ∈ bCh s).
    { unfold idx in Ef. destruct (j <? 0); [discriminate|].
      by eapply list_elem_of_lookup_2. }
    rewrite HbCh in Hin. rewrite Hb, !fmap_app.
    apply elem_of_app in Hin as [Hin|[Hin|Hin]%elem_of_app].
    + apply list_elem_of_fmap in Hin as (y & -> & Hy).
      apply elem_of_app. left. fold (name_of (pair_up a y)).
      rewrite name_pair_up. by apply list_elem_of_fmap_2.
    + apply elem_of_app. right. apply elem_of_app. left.
      by apply (list_elem_of_fmap_2 name_of).
    + apply list_elem_of_fmap in Hin as (y & -> & Hy).
      apply elem_of_app. right. apply elem_of_app. right.
      fold (name_of (pair_up a y)).
      rewrite name_pair_up. by apply list_elem_of_fmap_2.
Qed.
End Slots.

(** One turn of the loop of step 4: it goes through, unless the removal
    of an old fiber whose key is not in the new list throws. *)
Lemma mid_step_total s apre L a0 L0 Tl b0 Bm bt :
  order_inv tg a b s apre L a0 L0 Tl b0 Bm bt ->
  maps_inv a b s L a0 Bm ->
  (aHead s <=? aTail s) || (bHead s <=? bTail s) = true ->
  match mid_step tg s with
  | Ok s' =>
      exists apre' L' a0' L0' b0' Bm',
        order_inv tg a b s' apre' L' a0' L0' Tl b0' Bm' bt
        /\ maps_inv a b s' L' a0' Bm'
  | Throw =>
      exists x, x ∈ a /\ (name_of x ∉ name_of <$> b)
                /\ removeElement x true = Throw
  | OutOfFuel => False
  end.
Proof.
  intros Hoi Hmi Hcond. open_oi Hoi.
  pose proof Hmi as [M1 M2 M3 M4].
  pose proof (oi_len_L _ _ _ _ _ _ _ _ _ Hoi) as Hlen.
  destruct (names_b_parts _ _ _ Hb) as (D1 & D2 & D3).
  assert (Htl : forall x', x' ∈ Tl -> forall y, y ∈ Bm ->
                  name_of x' ≠ name_of y).
  { intros x' Hx' y Hy E.
    assert (Hn : name_of x' ∈ name_of <$> bt)
      by (rewrite <- Htail; by apply list_elem_of_fmap_2).
    apply list_elem_of_fmap in Hn as (y1 & E1 & Hy1).
    apply (D3 y y1 Hy Hy1). congruence. }
  destruct L as [|c L1].
  - (* no old fiber is left *)
    destruct L0; [|discriminate].
    destruct Bm as [|y Bm1].
    { exfalso. apply orb_true_iff in Hcond as [E|E];
        apply Z.leb_le in E; simpl in *; lia. }
    assert (Eidy : idx (bCh s) (bHead s) = Some y).
    { rewrite HbHead. replace (length b0) with (length b0 + 0)%nat by lia.
      by apply (oi_idx_Bm _ _ _ _ _ _ _ _ _ Hoi). }
    assert (Eidx : idx (aCh s) (aHead s) = head (Some <$> Tl)).
    { rewrite HaCh, HaHead, <- Hapre. simpl.
      destruct Tl as [|t Tl']; simpl.
      - rewrite app_nil_r. apply idx_end.
      - apply idx_mid. }
    rewrite mid_step_append.
    2:{ rewrite Eidx. by destruct Tl. }
    2:{ apply Z.leb_gt. simpl in *. lia. }
    2:{ apply Z.leb_le. simpl in *. lia. }
    rewrite Eidy, Eidx.
    destruct (order_step_insert s apre [] a0 [] Tl b0 y Bm1 bt
                (default None (head (Some <$> Tl))) Hoi) as [Hoi' Hmi'].
    + intros x' Hx'. rewrite Ha in Hx'. simpl in Hx'.
      apply elem_of_app in Hx' as [Hx'|Hx'].
      * intros E. apply (Hpassed x' Hx'). rewrite E. constructor.
      * apply Htl; [done|constructor].
    + destruct Tl as [|t Tl']; simpl; [done|]. by eexists.
    + eauto 10.
  - destruct L0 as [|x0 L0']; [discriminate|].
    assert (Eidx : idx (aCh s) (aHead s) = Some c).
    { rewrite HaHead. replace (length a0) with (length a0 + 0)%nat by lia.
      by apply (oi_idx_L _ _ _ _ _ _ _ _ _ Hoi). }
    destruct c as [x|].
    2:{ (* the slot is empty *)
        rewrite mid_step_null by done.
        destruct (order_step_null s apre L1 a0 x0 L0' Tl b0 Bm bt Hoi)
          as [Hoi' Hmi'].
        eauto 10. }
    destruct (oi_slot _ _ _ _ _ _ _ _ _ Hoi 0%nat x eq_refl) as [Hx0 Hxa].
    injection Hx0 as ->.
    assert (Hx_a : x ∈ a) by (by eapply list_elem_of_lookup_2).
    destruct (keyed_elem a x Hka Hx_a) as [_ Hpx].
    assert (Hlive_x : name_of x ∉ name_of <$> b0 ++ bt)
      by (apply Hlive; simpl; constructor).
    destruct Bm as [|y Bm1].
    { (* the new list is used up: the old fiber goes *)
      rewrite (mid_step_remove_rest tg s x);
        [|done|apply Z.leb_le; simpl in *; lia].
      assert (Hgone : name_of x ∉ name_of <$> b)
        by (rewrite Hb; simpl; exact Hlive_x).
      unfold st_remove.
      destruct (removeElement x true) as [ev| |] eqn:Erm; cbn [rbind].
      - destruct (order_step_remove s apre x L1 a0 x L0' Tl b0 [] bt ev
                    Hoi) as [Hoi' Hmi']; [done|done|eauto 10].
      - by exists x.
      - by apply removeElement_no_fuel in Erm. }
    assert (Eidy : idx (bCh s) (bHead s) = Some y).
    { rewrite HbHead. replace (length b0) with (length b0 + 0)%nat by lia.
      by apply (oi_idx_Bm _ _ _ _ _ _ _ _ _ Hoi). }
    assert (Hy_b : y ∈ b).
    { rewrite Hb. apply elem_of_app. right. constructor. }
    destruct (keyed_elem b y Hkb Hy_b) as [_ Hpy].
    assert (Hb1 : (bTail s + 1 <=? bHead s) = false)
      by (apply Z.leb_gt; simpl in *; lia).
    assert (Ha1 : (aTail s + 1 <=? aHead s) = false)
      by (apply Z.leb_gt; simpl in *; lia).
    destruct (same x y) eqn:Es.
    { (* the same fiber *)
      rewrite (mid_step_same tg s x y) by done.
      destruct (order_step_same s apre x L1 a0 x L0' Tl b0 y Bm1 bt Hoi Es)
        as [Hoi' Hmi'].
      eauto 10. }
    assert (Hne_xy : name_of x ≠ name_of y).
    { intros E. rewrite (Hsame x y Hx_a Hy_b E) in Es. discriminate. }
    destruct (bMap s !! name_of x) as [j|] eqn:EfB.
    2:{ (* the key of the old fiber is not in the new list *)
        rewrite (mid_step_remove tg s x y); try done.
        2:{ rewrite map_get_plain by done. fold (name_of x).
            by rewrite EfB. }
        assert (Hgone : name_of x ∉ name_of <$> b).
        { rewrite Hb, !fmap_app.
          intros [Hin|[Hin|Hin]%elem_of_app]%elem_of_app.
          - apply Hlive_x. rewrite fmap_app. apply elem_of_app. by left.
          - apply list_elem_of_fmap in Hin as (y' & E & Hy').
            destruct (M3 y' Hy') as [j Hj]. congruence.
          - apply Hlive_x. rewrite fmap_app. apply elem_of_app.
            by right. }
        unfold st_remove.
        destruct (removeElement x true) as [ev| |] eqn:Erm; cbn [rbind].
        - destruct (order_step_remove s apre x L1 a0 x L0' Tl b0 (y :: Bm1)
                      bt ev Hoi) as [Hoi' Hmi']; [done|done|eauto 10].
        - by exists x.
        - by apply removeElement_no_fuel in Erm. }
    assert (Hkx : name_of x ∈ name_of <$> b) by (by eapply M4).
    assert (HfB : is_nullish (map_get (bMap s) (key x)) = false).
    { rewrite map_get_plain by done. fold (name_of x). by rewrite EfB. }
    destruct (aMap s !! name_of y) as [i|] eqn:EfA.
    2:{ (* the key of the new fiber is not in the old list *)
        rewrite (mid_step_insert tg s x y); try done.
        2:{ rewrite map_get_plain by done. fold (name_of y).
            by rewrite EfA. }
        destruct (order_step_insert s apre (Some x :: L1) a0 (x :: L0') Tl
                    b0 y Bm1 bt (Some x) Hoi) as [Hoi' Hmi'].
        - intros x' Hx'. rewrite Ha in Hx'.
          apply elem_of_app in Hx' as [Hx'|[Hx'|Hx']%elem_of_app].
          + intros E. apply (Hpassed x' Hx'). rewrite E. constructor.
          + apply list_elem_of_lookup in Hx' as [k Hk].
            destruct (Forall2_lookup_r _ _ _ _ _ Hcells Hk)
              as (c & Hc & [->|[-> Hn]]).
            * intros E. pose proof (M1 k x' Hc) as Hm.
              rewrite E, EfA in Hm. discriminate.
            * apply list_elem_of_fmap in Hn as (y0 & E0 & Hy0).
              intros E. apply (D1 y0 y Hy0); [constructor|congruence].
          + apply Htl; [done|constructor].
        - simpl. rewrite filter_cons_True by done. simpl. by eexists.
        - eauto 10. }
    (* the key of the new fiber belongs to an old fiber further on *)
    destruct (M2 _ _ EfA) as (Hi0 & xm & Hxm & Enm).
    assert (Hxm_a : xm ∈ a) by (by eapply list_elem_of_lookup_2).
    assert (Hpos : exists p, Z.to_nat i = (length a0 + S p)%nat
                             /\ L0' !! p = Some xm).
    { rewrite Ha in Hxm.
      destruct (decide (Z.to_nat i < length a0)%nat) as [Hlt|Hge].
      { rewrite lookup_app_l in Hxm by done.
        exfalso. apply (Hpassed xm); [by eapply list_elem_of_lookup_2|].
        rewrite Enm. constructor. }
      rewrite lookup_app_r in Hxm by lia.
      destruct (Z.to_nat i - length a0)%nat as [|p] eqn:Ep.
      { simpl in Hxm. injection Hxm as <-. by destruct Hne_xy. }
      simpl in Hxm.
      destruct (decide (p < length L0')%nat) as [Hlt|Hge'].
      - exists p. split; [lia|]. by rewrite lookup_app_l in Hxm.
      - rewrite lookup_app_r in Hxm by lia.
        exfalso.
        exact (Htl xm ltac:(by eapply list_elem_of_lookup_2) y
                 ltac:(constructor) Enm). }
    destruct Hpos as (p & Hip & Hp).
    apply Forall2_cons in Hcells as [_ Hcells'].
    destruct (Forall2_lookup_r _ _ _ _ _ Hcells' Hp) as (cm & Hcm & Hcell).
    assert (Eidm : idx (aCh s) i = Some cm).
    { replace i with (Z.of_nat (length a0 + S p)) by lia.
      by apply (oi_idx_L _ _ _ _ _ _ _ _ _ Hoi). }
    destruct Hcell as [->|[-> H]].
    2:{ exfalso. apply list_elem_of_fmap in H as (y0 & E0 & Hy0).
        apply (D1 y0 y Hy0); [constructor|congruence]. }
    rewrite (mid_step_move tg s x y i xm); try done.
    2:{ rewrite map_get_plain by done. fold (name_of y). by rewrite EfA. }
    destruct (list_elem_of_split_length L1 p (Some xm) Hcm)
      as (L1a & L1b & -> & Hp').
    replace i with (Z.of_nat (length a0 + S (length L1a))) by lia.
    destruct (order_step_move s apre x L1a xm L1b a0 (x :: L0') Tl b0 y Bm1
                bt Hoi Enm Hkx) as [Hoi' Hmi'].
    eauto 10.
Qed.

Lemma mid_step_order s s' apre L a0 L0 Tl b0 Bm bt :
  order_inv tg a b s apre L a0 L0 Tl b0 Bm bt ->
  maps_inv a b s L a0 Bm ->
  (aHead s <=? aTail s) || (bHead s <=? bTail s) = true ->
  mid_step tg s = Ok s' ->
  exists apre' L' a0' L0' b0' Bm',
    order_inv tg a b s' apre' L' a0' L0' Tl b0' Bm' bt
    /\ maps_inv a b s' L' a0' Bm'.
Proof.
  intros Hoi Hmi Hcond Hstep.
  pose proof (mid_step_total s apre L a0 L0 Tl b0 Bm bt Hoi Hmi Hcond) as Ht.
  by rewrite Hstep in Ht.
Qed.

Lemma mid_loop_order fuel : forall s s' apre L a0 L0 Tl b0 Bm bt,
  order_inv tg a b s apre L a0 L0 Tl b0 Bm bt ->
  maps_inv a b s L a0 Bm ->
  mid_loop tg fuel s = Ok s' ->
  exists apre' a0' b0', order_inv tg a b s' apre' [] a0' [] Tl b0' [] bt.
Proof.
  induction fuel as [|fuel IH];
    intros s s' apre L a0 L0 Tl b0 Bm bt Hoi Hmi; simpl;
    destruct ((aHead s <=? aTail s) || (bHead s <=? bTail s)) eqn:Ec;
    try discriminate.
  - intros [= <-]. apply orb_false_iff in Ec as [Ea Eb].
    apply Z.leb_gt in Ea. apply Z.leb_gt in Eb.
    pose proof (oi_len_L _ _ _ _ _ _ _ _ _ Hoi) as Hlen. open_oi Hoi.
    destruct L0; [|simpl in *; lia]. destruct L; [|discriminate].
    destruct Bm; [|simpl in *; lia]. eauto.
  - destruct (mid_step tg s) as [s1| |] eqn:E1; cbn [rbind];
      try discriminate.
    destruct (mid_step_order _ _ _ _ _ _ _ _ _ _ Hoi Hmi Ec E1)
      as (apre' & L' & a0' & L0' & b0' & Bm' & Hoi' & Hmi').
    by apply (IH _ _ _ _ _ _ _ _ _ _ Hoi' Hmi').
  - intros [= <-]. apply orb_false_iff in Ec as [Ea Eb].
    apply Z.leb_gt in Ea. apply Z.leb_gt in Eb.
    pose proof (oi_len_L _ _ _ _ _ _ _ _ _ Hoi) as Hlen. open_oi Hoi.
    destruct L0; [|simpl in *; lia]. destruct L; [|discriminate].
    destruct Bm; [|simpl in *; lia]. eauto.
Qed.

Lemma omap_id_Some (l : list Fiber) : omap id (Some <$> l) = l.
Proof. induction l as [|x l IH]; [done|]. cbn. by f_equal. Qed.

Lemma NoDup_fmap_filter (P : Fiber -> Prop) `{forall x, Decision (P x)}
  (l : list Fiber) :
  NoDup (fid <$> l) -> NoDup (fid <$> filter P l).
Proof.
  induction l as [|x l IH]; simpl; [done|].
  intros [Hx Hnd]%NoDup_cons. rewrite filter_cons.
  destruct (decide (P x)); [|by apply IH].
  simpl. apply NoDup_cons. split; [|by apply IH].
  intros Hin. apply Hx. apply list_elem_of_fmap in Hin as (x' & E & Hx').
  apply list_elem_of_filter in Hx' as [_ Hx'].
  rewrite E. by apply list_elem_of_fmap_2.
Qed.

Lemma cells_init (l : list Fiber) : Forall2 (cell_of []) (Some <$> l) l.
Proof. induction l as [|x l IH]; simpl; constructor; [by left|done]. Qed.

Lemma order_init :
  order_inv tg a b (diff_init a b) [] (Some <$> a) [] a [] [] b [].
Proof.
  constructor; unfold diff_init; state_simpl.
  - simpl. by rewrite app_nil_r.
  - simpl. by rewrite app_nil_r.
  - done.
  - done.
  - simpl. lia.
  - apply cells_init.
  - simpl. by rewrite app_nil_r.
  - simpl. by rewrite app_nil_r.
  - done.
  - simpl. lia.
  - done.
  - done.
  - done.
  - rewrite omap_id_Some. simpl. by rewrite app_nil_r.
  - rewrite omap_id_Some. simpl. rewrite app_nil_r.
    apply NoDup_fmap_filter. pose proof Hfid as Hnd.
    rewrite fmap_app in Hnd. by apply NoDup_app in Hnd as (? & _ & _).
  - intros x _ Hin. by apply elem_of_nil in Hin.
  - intros x Hin. by apply elem_of_nil in Hin.
Qed.

Lemma play_updates l l' acts n :
  play tg l acts = Ok l' ->
  play tg l (acts ++ replicate n (update_action tg)) = Ok l'.
Proof.
  intros Hp. induction n as [|n IH].
  - simpl. by rewrite app_nil_r.
  - rewrite replicate_S_end, app_assoc, play_snoc, IH.
    cbn [rbind]. apply play_action_update.
Qed.

Lemma tail_owners (Tl : list Fiber) : forall bt : list Fiber,
  name_of <$> Tl = name_of <$> bt -> (forall x, x ∈ Tl -> x ∈ a) ->
  owner <$> (pair_up a <$> bt) = fid <$> Tl.
Proof.
  induction Tl as [|x Tl IH]; intros [|y bt]; simpl; try done.
  intros [= E1 E2] Hin.
  rewrite (pair_up_match x y); [|apply Hin; constructor|done].
  rewrite owner_clone. f_equal. apply IH; [done|].
  intros x' Hx'. apply Hin. by constructor.
Qed.

Lemma filter_gone_tail (Tl bt0 b0 Bm : list Fiber) :
  b = b0 ++ Bm ++ bt0 -> name_of <$> Tl = name_of <$> bt0 ->
  filter gone Tl = [].
Proof.
  intros Hb Ht. induction Tl as [|x Tl IH] in bt0, b0, Bm, Hb, Ht |- *;
    [done|].
  destruct bt0 as [|y bt0]; [discriminate|]. simpl in Ht.
  injection Ht as E1 E2.
  rewrite filter_cons_False.
  - apply (IH bt0 b0 (Bm ++ [y])); [|done]. rewrite Hb.
    by rewrite <- !app_assoc.
  - intros Hg. apply Hg. rewrite Hb, E1, !fmap_app.
    apply elem_of_app. right. apply elem_of_app. right. constructor.
Qed.


(** *** The result is there *)

Lemma tail_loop_aCh fuel : forall s s',
  tail_loop tg fuel s = Ok s' -> aCh s' = aCh s.
Proof.
  induction fuel as [|fuel IH]; intros s s'; simpl;
    destruct ((aHead s <=? aTail s) && (bHead s <=? bTail s));
    try discriminate; try (by intros [= <-]).
  destruct (idx (aCh s) (aTail s)) as [[x|]|]; try discriminate.
  destruct (idx (bCh s) (bTail s)) as [y|]; try discriminate.
  destruct (same x y); simpl; [|by intros [= <-]].
  intros E. by rewrite (IH _ _ E).
Qed.

Lemma head_loop_aCh fuel : forall s s',
  head_loop tg fuel s = Ok s' -> aCh s' = aCh s.
Proof.
  induction fuel as [|fuel IH]; intros s s'; simpl;
    destruct ((aHead s <=? aTail s) && (bHead s <=? bTail s));
    try discriminate; try (by intros [= <-]).
  destruct (idx (aCh s) (aHead s)) as [[x|]|]; try discriminate.
  destruct (idx (bCh s) (bHead s)) as [y|]; try discriminate.
  destruct (same x y); simpl; [|by intros [= <-]].
  intros E. by rewrite (IH _ _ E).
Qed.

(** While the old array is untouched, every slot holds a fiber. *)
Lemma full_slot s apre L Tl c :
  aCh s = apre ++ L ++ (Some <$> Tl) -> aCh s = Some <$> a -> c ∈ L ->
  is_Some c.
Proof.
  intros HaCh Hfull Hc.
  assert (Hin : c ∈ Some <$> a).
  { rewrite <- Hfull, HaCh. apply elem_of_app. right.
    apply elem_of_app. by left. }
  apply list_elem_of_fmap in Hin as (x & -> & _). by eexists.
Qed.

Lemma tail_loop_total fuel : forall s apre L a0 L0 Tl b0 Bm bt,
  order_inv tg a b s apre L a0 L0 Tl b0 Bm bt ->
  aCh s = Some <$> a ->
  tail_loop tg fuel s ≠ Throw.
Proof.
  induction fuel as [|fuel IH]; intros s apre L a0 L0 Tl b0 Bm bt Hoi Hfull;
    simpl;
    destruct ((aHead s <=? aTail s) && (bHead s <=? bTail s)) eqn:Ec;
    try discriminate.
  apply andb_true_iff in Ec as [Ea Eb].
  apply Z.leb_le in Ea. apply Z.leb_le in Eb.
  open_oi Hoi. pose proof (Forall2_length _ _ _ Hcells) as Hlen.
  destruct (snoc_cases L) as [->|(L1 & c & ->)];
    [simpl in Hlen; lia|].
  destruct (snoc_cases Bm) as [->|(Bm1 & y & ->)]; [simpl in *; lia|].
  assert (Eidx : idx (aCh s) (aTail s) = Some c).
  { rewrite HaCh, HaTail, <- Hlen, <- Hapre.
    replace (apre ++ (L1 ++ [c]) ++ (Some <$> Tl))
      with ((apre ++ L1) ++ c :: (Some <$> Tl))
      by (by rewrite <- !app_assoc).
    replace (Z.of_nat (length apre + length (L1 ++ [c])) - 1)
      with (Z.of_nat (length (apre ++ L1)))
      by (rewrite !length_app; simpl; lia).
    apply idx_mid. }
  assert (Eidy : idx (bCh s) (bTail s) = Some y).
  { rewrite HbCh, HbTail.
    replace ((pair_up a <$> b0) ++ (Bm1 ++ [y]) ++ (pair_up a <$> bt))
      with (((pair_up a <$> b0) ++ Bm1) ++ y :: (pair_up a <$> bt))
      by (by rewrite <- !app_assoc).
    replace (Z.of_nat (length b0 + length (Bm1 ++ [y])) - 1)
      with (Z.of_nat (length ((pair_up a <$> b0) ++ Bm1)))
      by (rewrite !length_app, length_fmap; simpl; lia).
    apply idx_mid. }
  rewrite Eidx, Eidy.
  destruct (full_slot s apre (L1 ++ [c]) Tl c HaCh Hfull) as [x ->].
  { apply elem_of_app. right. constructor. }
  destruct (same x y) eqn:Es; simpl; [|discriminate].
  destruct (order_step_tail s apre L1 x a0 L0 Tl b0 Bm1 y bt Hoi Es)
    as (L0' & -> & Hoi').
  by apply (IH _ _ _ _ _ _ _ _ _ Hoi').
Qed.

Lemma head_loop_total fuel : forall s apre L a0 L0 Tl b0 Bm bt,
  order_inv tg a b s apre L a0 L0 Tl b0 Bm bt ->
  aCh s = Some <$> a ->
  head_loop tg fuel s ≠ Throw.
Proof.
  induction fuel as [|fuel IH]; intros s apre L a0 L0 Tl b0 Bm bt Hoi Hfull;
    simpl;
    destruct ((aHead s <=? aTail s) && (bHead s <=? bTail s)) eqn:Ec;
    try discriminate.
  apply andb_true_iff in Ec as [Ea Eb].
  apply Z.leb_le in Ea. apply Z.leb_le in Eb.
  open_oi Hoi. pose proof (Forall2_length _ _ _ Hcells) as Hlen.
  destruct L as [|c L1]; [simpl in Hlen; lia|].
  destruct L0 as [|x0 L0']; [discriminate|].
  destruct Bm as [|y Bm1]; [simpl in *; lia|].
  assert (Eidx : idx (aCh s) (aHead s) = Some c).
  { rewrite HaCh, HaHead, <- Hapre. apply idx_mid. }
  assert (Eidy : idx (bCh s) (bHead s) = Some y).
  { rewrite HbCh, HbHead.
    replace (length b0) with (length (pair_up a <$> b0))
      by apply length_fmap.
    apply idx_mid. }
  rewrite Eidx, Eidy.
  destruct (full_slot s apre (c :: L1) Tl c HaCh Hfull) as [x ->];
    [constructor|].
  destruct (same x y) eqn:Es; simpl; [|discriminate].
  destruct (order_step_same s apre x L1 a0 x0 L0' Tl b0 y Bm1 bt Hoi Es)
    as [Hoi' _].
  by apply (IH _ _ _ _ _ _ _ _ _ Hoi').
Qed.

Lemma mid_loop_total fuel : forall s apre L a0 L0 Tl b0 Bm bt,
  (forall x, x ∈ a -> name_of x ∉ name_of <$> b ->
     removeElement x true ≠ Throw) ->
  order_inv tg a b s apre L a0 L0 Tl b0 Bm bt ->
  maps_inv a b s L a0 Bm ->
  mid_loop tg fuel s ≠ Throw.
Proof.
  induction fuel as [|fuel IH];
    intros s apre L a0 L0 Tl b0 Bm bt Hrem Hoi Hmi; simpl;
    destruct ((aHead s <=? aTail s) || (bHead s <=? bTail s)) eqn:Ec;
    try discriminate.
  pose proof (mid_step_total s apre L a0 L0 Tl b0 Bm bt Hoi Hmi Ec) as Ht.
  destruct (mid_step tg s) as [s1| |]; cbn [rbind]; [|exfalso|done].
  - destruct Ht as (apre' & L' & a0' & L0' & b0' & Bm' & Hoi' & Hmi').
    by apply (IH _ _ _ _ _ _ _ _ _ Hrem Hoi' Hmi').
  - destruct Ht as (x & Hx & Hg & Et). by apply (Hrem x Hx Hg).
Qed.

Lemma diff_fuel_enough : diff tg a b ≠ OutOfFuel.
Proof.
  unfold diff. fold (diff_init a b).
  assert (Hb0 : bounded (length a) (length b) (diff_init a b)).
  { unfold bounded, diff_init; simpl. rewrite length_fmap. lia. }
  destruct (tail_loop_fuel tg (diff_fuel a b) (diff_init a b) _ _ Hb0)
    as (r1 & E1 & Hn1 & Hb1).
  { unfold diff_fuel, diff_init; simpl. lia. }
  rewrite E1. destruct r1 as [s1| |]; [|discriminate|done].
  specialize (Hb1 _ eq_refl). cbn [rbind].
  destruct (head_loop_fuel tg (diff_fuel a b) s1 _ _ Hb1)
    as (r2 & E2 & Hn2 & Hb2).
  { destruct Hb1 as (_ & _ & ? & ?). unfold diff_fuel. lia. }
  rewrite E2. destruct r2 as [s2| |]; [|discriminate|done].
  specialize (Hb2 _ eq_refl). cbn [rbind].
  pose proof (index_old_no_fuel (aCh s2) (aHead s2) (aTail s2)) as Hio.
  destruct (index_old _ _ _) as [am| |]; [|discriminate|done].
  cbn [rbind].
  pose proof (index_new_no_fuel (bCh s2) (bHead s2) (bTail s2)) as Hin.
  destruct (index_new _ _ _) as [bm| |]; [|discriminate|done].
  cbn [rbind].
  pose proof (mid_loop_fuel tg (diff_fuel a b)
                (mkDiffSt (aCh s2) (bCh s2) (aHead s2) (bHead s2) (aTail s2)
                          (bTail s2) am bm (temp s2) (actions s2) (dlog s2)))
    as Hml.
  destruct (mid_loop tg _ _) as [s3| |]; cbn [rbind]; try discriminate.
  exfalso. apply Hml; [|reflexivity].
  destruct Hb2 as (Hl & ? & ? & ?).
  unfold mid_measure, diff_fuel; simpl. rewrite Hl. lia.
Qed.

End DiffOrder.


